(** * The identity wallet's helpers, store and identity service

    A shallow embedding of [helpers] (the crypto helper, the data mapping
    layer and the persistent cells), of [lib/store.ts] (the credential table
    and the error cell) and of [lib/identity/index.ts] (the keychain-backed
    identity service), with the properties of their specification. *)

From Stdlib Require Import ZArith NArith List Bool Lia ZifyN Btauto String Ascii Floats.
From Stdlib.Strings Require Import Byte.
From stdpp Require Import base option list gmap.
Import ListNotations.

Set Default Proof Using "Type".

(** ** JavaScript strings and bytes *)

Module JS.

(** A JavaScript string is a sequence of UTF-16 code units. *)
Abbreviation jsstring := (list N).

(** The string written by an ASCII literal of the source. *)
Definition js (s : string) : jsstring :=
  map N_of_ascii (list_ascii_of_string s).

(** A well-formed string: every code unit fits sixteen bits and every
    surrogate is half of a high-low pair. *)
Definition is_high (c : N) : bool := ((0xD800 <=? c) && (c <=? 0xDBFF))%N.
Definition is_low (c : N) : bool := ((0xDC00 <=? c) && (c <=? 0xDFFF))%N.

Fixpoint well_formed (s : jsstring) : bool :=
  match s with
  | [] => true
  | c :: rest =>
      if is_high c then
        match rest with
        | d :: rest' => is_low d && well_formed rest'
        | [] => false
        end
      else negb (is_low c) && (c <? 0x10000)%N && well_formed rest
  end.

(** The elements of a [Uint8Array] or [Buffer]. *)
Definition byte_of_N (n : N) : byte :=
  match Byte.of_N (n mod 256) with
  | Some b => b
  | None => x00
  end.

Definition bxor (a b : byte) : byte :=
  byte_of_N (N.lxor (Byte.to_N a) (Byte.to_N b)).

(** [xor(a, b)] of the buffer library: as long as the shorter argument. *)
Definition xor (a b : list byte) : list byte := zip_with bxor a b.

End JS.
Export JS.

(** ** helpers: hexadecimal text *)

Module Hex.

(** [Number.prototype.toString(16)] on a digit value. *)
Definition hex_digit (d : N) : N :=
  if (d <? 10)%N then (48 + d)%N else (87 + d)%N.

Fixpoint hex_digits (fuel : nat) (n : N) (acc : jsstring) : jsstring :=
  match fuel with
  | O => acc
  | S fuel' =>
      let acc' := hex_digit (n mod 16) :: acc in
      if (n / 16 =? 0)%N then acc' else hex_digits fuel' (n / 16) acc'
  end.

(** [n.toString(16)] for an integer [n]. *)
Definition toString16 (n : Z) : jsstring :=
  let digits m := hex_digits (S (N.to_nat (N.log2 m))) m [] in
  if (n <? 0)%Z then 45%N :: digits (Z.to_N (- n)) else digits (Z.to_N n).

(** The [>>>] and [&] of the source, on the 32-bit views of their operands. *)
Definition ushr (x : Z) (n : Z) : Z := Z.shiftr (x mod 2 ^ 32) n.
Definition band (x y : Z) : Z :=
  let r := Z.land (x mod 2 ^ 32) (y mod 2 ^ 32) in
  if (r <? 2 ^ 31)%Z then r else (r - 2 ^ 32)%Z.

(** [convertByteArrayToHex]: two digits for every element. *)
Definition convertByteArrayToHex (bytes : list byte) : jsstring :=
  flat_map
    (fun b =>
       let x := Z.of_N (Byte.to_N b) in
       let current := if (x <? 0)%Z then (x + 256)%Z else x in
       toString16 (ushr current 4) ++ toString16 (band current 0xf))
    bytes.

(** [buf.toString('hex')]. *)
Definition toString_hex (buf : list byte) : jsstring :=
  flat_map
    (fun b => [hex_digit (Byte.to_N b / 16); hex_digit (Byte.to_N b mod 16)])
    buf.

Definition hex_value (c : N) : option N :=
  if ((48 <=? c) && (c <=? 57))%N then Some (c - 48)%N
  else if ((97 <=? c) && (c <=? 102))%N then Some (c - 87)%N
  else if ((65 <=? c) && (c <=? 70))%N then Some (c - 55)%N
  else None.

(** The white space and line terminators that [parseInt] skips. *)
Definition is_white_space (c : N) : bool :=
  ((c =? 0x9) || (c =? 0xA) || (c =? 0xB) || (c =? 0xC) || (c =? 0xD) ||
   (c =? 0x20) || (c =? 0xA0) || (c =? 0x1680) ||
   ((0x2000 <=? c) && (c <=? 0x200A)) ||
   (c =? 0x2028) || (c =? 0x2029) || (c =? 0x202F) || (c =? 0x205F) ||
   (c =? 0x3000) || (c =? 0xFEFF))%N.

Fixpoint trim_start (s : jsstring) : jsstring :=
  match s with
  | c :: rest => if is_white_space c then trim_start rest else s
  | [] => []
  end.

(** The value of the longest run of hexadecimal digits at the start of
    [s], if there is a digit. *)
Fixpoint hex_run (s : jsstring) (acc : option N) : option N :=
  match s with
  | c :: rest =>
      match hex_value c with
      | Some d => hex_run rest (Some (16 * default 0 acc + d)%N)
      | None => acc
      end
  | [] => acc
  end.

(** [parseInt(s, 16)]: white space is skipped, then a sign and a prefix
    [0x] are taken off, and the digits that follow are read; [None] is
    [NaN]. *)
Definition parseInt16 (s : jsstring) : option Z :=
  let s1 := trim_start s in
  let '(negative, s2) :=
    match s1 with
    | 45 :: rest => (true, rest)
    | 43 :: rest => (false, rest)
    | _ => (false, s1)
    end%N in
  let s3 :=
    match s2 with
    | 48 :: x :: rest => if ((x =? 120) || (x =? 88))%N then rest else s2
    | _ => s2
    end%N in
  match hex_run s3 None with
  | Some n => Some (if negative : bool then (- Z.of_N n)%Z else Z.of_N n)
  | None => None
  end.

(** [Buffer.from(s, 'hex')]: every pair of characters is read with
    [parseInt(pair, 16)] and stored as a byte, up to the first pair that
    reads as [NaN]; a last character without a partner is left out. *)
Fixpoint from_hex (s : jsstring) : list byte :=
  match s with
  | c1 :: c2 :: rest =>
      match parseInt16 [c1; c2] with
      | Some parsed => byte_of_N (Z.to_N (parsed mod 256)) :: from_hex rest
      | None => []
      end
  | _ => []
  end.

End Hex.

(** ** The buffer library's UTF-8 codec *)

Module Utf8.

Definition replacement : list byte := [xef; xbf; xbd].

(** The bytes of one code point. *)
Definition encode_code_point (cp : N) : list byte :=
  if (cp <? 0x80)%N then [byte_of_N cp]
  else if (cp <? 0x800)%N then
    [byte_of_N (N.lor (N.shiftr cp 6) 0xC0);
     byte_of_N (N.lor (N.land cp 0x3F) 0x80)]
  else if (cp <? 0x10000)%N then
    [byte_of_N (N.lor (N.shiftr cp 12) 0xE0);
     byte_of_N (N.lor (N.land (N.shiftr cp 6) 0x3F) 0x80);
     byte_of_N (N.lor (N.land cp 0x3F) 0x80)]
  else
    [byte_of_N (N.lor (N.shiftr cp 18) 0xF0);
     byte_of_N (N.lor (N.land (N.shiftr cp 12) 0x3F) 0x80);
     byte_of_N (N.lor (N.land (N.shiftr cp 6) 0x3F) 0x80);
     byte_of_N (N.lor (N.land cp 0x3F) 0x80)].

(** The code point of a surrogate pair. *)
Definition pair_code_point (hi lo : N) : N :=
  (N.lor (N.shiftl (hi - 0xD800) 10) (lo - 0xDC00) + 0x10000)%N.

(** [Buffer.from(s)]: the UTF-8 bytes of a string; a surrogate that is not
    half of a pair is written as U+FFFD. *)
Fixpoint utf8ToBytes (s : jsstring) : list byte :=
  match s with
  | [] => []
  | c :: rest =>
      if is_high c then
        match rest with
        | d :: rest' =>
            if is_low d
            then encode_code_point (pair_code_point c d) ++ utf8ToBytes rest'
            else replacement ++ utf8ToBytes rest
        | [] => replacement
        end
      else if is_low c then replacement ++ utf8ToBytes rest
      else encode_code_point c ++ utf8ToBytes rest
  end.

Definition bytesPerSequence (firstByte : N) : nat :=
  if (0xEF <? firstByte)%N then 4
  else if (0xDF <? firstByte)%N then 3
  else if (0xBF <? firstByte)%N then 2
  else 1.

Definition continuation (b : byte) : bool :=
  (N.land (Byte.to_N b) 0xC0 =? 0x80)%N.

Definition decode2 (b0 b1 : byte) : option N :=
  if continuation b1 then
    let cp := N.lor (N.shiftl (N.land (Byte.to_N b0) 0x1F) 6)
                    (N.land (Byte.to_N b1) 0x3F) in
    if (0x7F <? cp)%N then Some cp else None
  else None.

Definition decode3 (b0 b1 b2 : byte) : option N :=
  if continuation b1 && continuation b2 then
    let cp := N.lor (N.lor (N.shiftl (N.land (Byte.to_N b0) 0xF) 12)
                           (N.shiftl (N.land (Byte.to_N b1) 0x3F) 6))
                    (N.land (Byte.to_N b2) 0x3F) in
    if ((0x7FF <? cp) && ((cp <? 0xD800) || (0xDFFF <? cp)))%N
    then Some cp else None
  else None.

Definition decode4 (b0 b1 b2 b3 : byte) : option N :=
  if continuation b1 && continuation b2 && continuation b3 then
    let cp := N.lor (N.lor (N.lor (N.shiftl (N.land (Byte.to_N b0) 0xF) 18)
                                  (N.shiftl (N.land (Byte.to_N b1) 0x3F) 12))
                           (N.shiftl (N.land (Byte.to_N b2) 0x3F) 6))
                    (N.land (Byte.to_N b3) 0x3F) in
    if ((0xFFFF <? cp) && (cp <? 0x110000))%N then Some cp else None
  else None.

(** The code units of a decoded code point. *)
Definition code_units (cp : N) : jsstring :=
  if (0xFFFF <? cp)%N then
    let c := (cp - 0x10000)%N in
    [N.lor (N.land (N.shiftr c 10) 0x3FF) 0xD800;
     N.lor 0xDC00 (N.land c 0x3FF)]
  else [cp].

(** [buf.toString()]: a sequence that is not the UTF-8 form of a code point
    yields U+FFFD and decoding resumes at the next byte. *)
Fixpoint utf8Slice (buf : list byte) : jsstring :=
  match buf with
  | [] => []
  | b0 :: tl =>
      let bad := (0xFFFD)%N :: utf8Slice tl in
      match bytesPerSequence (Byte.to_N b0), tl with
      | 1, _ =>
          if (Byte.to_N b0 <? 0x80)%N
          then Byte.to_N b0 :: utf8Slice tl else bad
      | 2, b1 :: tl1 =>
          match decode2 b0 b1 with
          | Some cp => code_units cp ++ utf8Slice tl1
          | None => bad
          end
      | 3, b1 :: b2 :: tl2 =>
          match decode3 b0 b1 b2 with
          | Some cp => code_units cp ++ utf8Slice tl2
          | None => bad
          end
      | 4, b1 :: b2 :: b3 :: tl3 =>
          match decode4 b0 b1 b2 b3 with
          | Some cp => code_units cp ++ utf8Slice tl3
          | None => bad
          end
      | _, _ => bad
      end
  end.

End Utf8.

(** ** helpers: the crypto helper *)

Module Crypto.
Import Hex Utf8.

(** The block cipher behind [createCipheriv('aes-256-cbc', ...)] and
    [createDecipheriv]: the cipher library's AES with a 256-bit key, taken
    through its contract. Under every 32-byte key the two directions are
    inverse permutations of the 16-byte blocks. The general statements hold
    for every such cipher; [AES] below is the cipher of the standard, and
    the examples run on it. *)
Class BlockCipher := {
  encryptBlock : list byte -> list byte -> list byte;
  decryptBlock : list byte -> list byte -> list byte;
  encryptBlock_length : forall key block,
    length key = 32 -> length block = 16 ->
    length (encryptBlock key block) = 16;
  decryptBlock_length : forall key block,
    length key = 32 -> length block = 16 ->
    length (decryptBlock key block) = 16;
  decrypt_encrypt_block : forall key block,
    length key = 32 -> length block = 16 ->
    decryptBlock key (encryptBlock key block) = block;
  encrypt_decrypt_block : forall key block,
    length key = 32 -> length block = 16 ->
    encryptBlock key (decryptBlock key block) = block
}.

(** What the cipher library throws. *)
Inductive error :=
| InvalidKeyLength (n : nat)
| InvalidIvLength (n : nat)
| NoFinalBlock
| UnableToDecryptData.

Inductive result (A : Type) :=
| Ok (a : A)
| Throw (e : error).
Arguments Ok {A} a.
Arguments Throw {A} e.

Definition bind {A B} (r : result A) (f : A -> result B) : result B :=
  match r with
  | Ok a => f a
  | Throw e => Throw e
  end.

Notation "'let*' x ':=' r 'in' k" := (bind r (fun x => k))
  (at level 10, x name, r at level 100, k at level 200).

(** The source of [crypto.getRandomValues]: the bytes it will hand out. *)
Definition entropy := nat -> byte.

Definition getRandomValues (n : nat) (rnd : entropy) : list byte * entropy :=
  (map rnd (seq 0 n), fun i => rnd (n + i)).

(** The key and the initialization vector of a cipher object. *)
Record cipher := { cipher_key : list byte; cipher_iv : list byte }.

(** [createCipheriv('aes-256-cbc', key, iv)] and [createDecipheriv]: both
    refuse a key that is not 32 bytes and a vector that is not 16; the first
    tests the key first, the second the vector. *)
Definition createCipheriv (key iv : list byte) : result cipher :=
  if negb (length key =? 32)%nat then Throw (InvalidKeyLength (length key))
  else if negb (length iv =? 16)%nat then Throw (InvalidIvLength (length iv))
  else Ok {| cipher_key := key; cipher_iv := iv |}.

Definition createDecipheriv (key iv : list byte) : result cipher :=
  if negb (length iv =? 16)%nat then Throw (InvalidIvLength (length iv))
  else if negb (length key =? 32)%nat then Throw (InvalidKeyLength (length key))
  else Ok {| cipher_key := key; cipher_iv := iv |}.

(** The 16-byte blocks of the data handed to a cipher object. *)
Definition blocks (data : list byte) : list (list byte) :=
  reshape (replicate (length data / 16) 16) data.

(** The padding [final()] appends: [n] bytes of value [n], with
    [1 <= n <= 16], up to the next block boundary. *)
Definition pad (data : list byte) : list byte :=
  let n := 16 - length data mod 16 in
  data ++ replicate n (byte_of_N (N.of_nat n)).

(** The unpadding of the last decrypted block. *)
Definition unpad (last : list byte) : result (list byte) :=
  let padded := N.to_nat (Byte.to_N (nth 15 last x00)) in
  if (padded <? 1)%nat || (16 <? padded)%nat then Throw UnableToDecryptData
  else if forallb
            (fun i => N.to_nat (Byte.to_N (nth (i + (16 - padded)) last x00))
                      =? padded)%nat
            (seq 0 padded)
       then Ok (take (16 - padded) last)
       else Throw UnableToDecryptData.

Section WithCipher.
Context `{BlockCipher}.

(** Cipher block chaining. *)
Fixpoint cbc_encrypt (key prev : list byte) (bs : list (list byte))
  : list (list byte) :=
  match bs with
  | [] => []
  | b :: bs' =>
      let c := encryptBlock key (xor b prev) in
      c :: cbc_encrypt key c bs'
  end.

Fixpoint cbc_decrypt (key prev : list byte) (cs : list (list byte))
  : list (list byte) :=
  match cs with
  | [] => []
  | c :: cs' => xor (decryptBlock key c) prev :: cbc_decrypt key c cs'
  end.

(** [cipher.update(data)] followed by [cipher.final()], concatenated. *)
Definition cipher_update_final (c : cipher) (data : list byte) : list byte :=
  concat (cbc_encrypt (cipher_key c) (cipher_iv c) (blocks (pad data))).

(** What the block function reads of the chunk [final()] hands it: the
    whole 32-bit words of the chunk, and zero for the words that are missing.
    A whole block is read as it is. *)
Definition final_block (chunk : list byte) : list byte :=
  let whole := 4 * (length chunk / 4) in
  take whole chunk ++ replicate (16 - whole) x00.

(** [decipher.update(data)] followed by [decipher.final()], concatenated.
    [update] decrypts the blocks that have data after them and keeps the rest,
    up to a whole block, for [final], which decrypts it and takes the padding
    off; with no data [final] has nothing to hand to the block function. *)
Definition decipher_update_final (c : cipher) (data : list byte)
  : result (list byte) :=
  match length data with
  | O => Throw NoFinalBlock
  | S m =>
      let front := blocks (take (16 * (m / 16)) data) in
      let chunk := drop (16 * (m / 16)) data in
      let prev := default (cipher_iv c) (last front) in
      let* tail :=
        unpad (xor (decryptBlock (cipher_key c) (final_block chunk)) prev) in
      Ok (concat (cbc_decrypt (cipher_key c) (cipher_iv c) front) ++ tail)
  end.

(** [encrypt(key, payload)], given the state of the random source; the
    source has advanced whether or not the cipher object could be made. *)
Definition encrypt (key payload : jsstring) (rnd : entropy)
  : result jsstring * entropy :=
  let '(iv, rnd') := getRandomValues 16 rnd in
  (let* cipher := createCipheriv (utf8ToBytes key) iv in
   let encrypted := cipher_update_final cipher (utf8ToBytes payload) in
   Ok (convertByteArrayToHex iv ++ js ":" ++ toString_hex encrypted),
   rnd').

(** [payload.split(':')]. *)
Fixpoint split (sep : N) (s : jsstring) : list jsstring :=
  match s with
  | [] => [[]]
  | c :: rest =>
      if (c =? sep)%N then [] :: split sep rest
      else
        match split sep rest with
        | part :: parts => (c :: part) :: parts
        | [] => [[c]]
        end
  end.

(** [parts.join(':')]. *)
Fixpoint join (sep : N) (parts : list jsstring) : jsstring :=
  match parts with
  | [] => []
  | [part] => part
  | part :: rest => part ++ sep :: join sep rest
  end.

(** The bytes [decrypt] recovers, before they are read as text. *)
Definition decrypt_bytes (key payload : jsstring) : result (list byte) :=
  let textParts := split 58 payload in
  let iv := from_hex (hd [] textParts) in
  let encryptedText := from_hex (join 58 (tl textParts)) in
  let* decipher := createDecipheriv (utf8ToBytes key) iv in
  decipher_update_final decipher encryptedText.

(** [decrypt(key, payload)]. *)
Definition decrypt (key payload : jsstring) : result jsstring :=
  let* decrypted := decrypt_bytes key payload in
  Ok (utf8Slice decrypted).

End WithCipher.

End Crypto.

(** ** The cipher library's AES with a 256-bit key *)

Module AES.

(** *** The field of the bytes *)

(** Multiplication by [x] modulo [x^8 + x^4 + x^3 + x + 1]. *)
Definition xtime (b : byte) : byte :=
  bxor (byte_of_N (2 * Byte.to_N b))
       (if (Byte.to_N b <? 128)%N then x00 else x1b).

Definition mul2 (b : byte) : byte := xtime b.
Definition mul3 (b : byte) : byte := bxor (xtime b) b.
Definition mul4 (b : byte) : byte := xtime (xtime b).
Definition mul8 (b : byte) : byte := xtime (mul4 b).
Definition mul9 (b : byte) : byte := bxor (mul8 b) b.
Definition mul11 (b : byte) : byte := bxor (bxor (mul8 b) (mul2 b)) b.
Definition mul13 (b : byte) : byte := bxor (bxor (mul8 b) (mul4 b)) b.
Definition mul14 (b : byte) : byte := bxor (bxor (mul8 b) (mul4 b)) (mul2 b).

Fixpoint gmul_loop (n : nat) (a b acc : byte) : byte :=
  match n with
  | O => acc
  | S n' =>
      gmul_loop n' (xtime a) (byte_of_N (Byte.to_N b / 2))
        (if N.odd (Byte.to_N b) then bxor acc a else acc)
  end.

(** The product of two bytes. *)
Definition gmul (a b : byte) : byte := gmul_loop 8 a b x00.

Definition bytes : list byte :=
  map (fun n => byte_of_N (N.of_nat n)) (seq 0 256).

(** The inverse of a byte, and zero for zero. *)
Definition ginv (a : byte) : byte :=
  match List.find (fun b => Byte.eqb (gmul a b) x01) bytes with
  | Some b => b
  | None => x00
  end.

Definition rotl (b : byte) (k : N) : byte :=
  byte_of_N (Byte.to_N b * 2 ^ k + Byte.to_N b / 2 ^ (8 - k)).

(** The substitution of a byte: the inverse, then the affine map. *)
Definition substitute (a : byte) : byte :=
  let b := ginv a in
  bxor (bxor (bxor (bxor (bxor b (rotl b 1)) (rotl b 2)) (rotl b 3)) (rotl b 4))
       x63.

Definition sbox_table : list byte :=
  Eval vm_compute in map substitute bytes.

Definition sbox (b : byte) : byte :=
  nth (N.to_nat (Byte.to_N b)) sbox_table x00.

Definition inv_sbox_table : list byte :=
  Eval vm_compute in
    map (fun y =>
           match List.find (fun x => Byte.eqb (sbox x) y) bytes with
           | Some x => x
           | None => x00
           end) bytes.

Definition inv_sbox (b : byte) : byte :=
  nth (N.to_nat (Byte.to_N b)) inv_sbox_table x00.

(** *** The steps of a round, on a state of sixteen bytes in column order *)

Definition sub_bytes (st : list byte) : list byte := map sbox st.
Definition inv_sub_bytes (st : list byte) : list byte := map inv_sbox st.

Definition permute (indices : list nat) (st : list byte) : list byte :=
  map (fun i => nth i st x00) indices.

Definition shift_rows : list byte -> list byte :=
  permute [0; 5; 10; 15; 4; 9; 14; 3; 8; 13; 2; 7; 12; 1; 6; 11].

Definition inv_shift_rows : list byte -> list byte :=
  permute [0; 13; 10; 7; 4; 1; 14; 11; 8; 5; 2; 15; 12; 9; 6; 3].

(** The matrices of the column step and of its inverse. *)
Definition mix_matrix : list (list nat) :=
  [[2; 3; 1; 1]; [1; 2; 3; 1]; [1; 1; 2; 3]; [3; 1; 1; 2]].

Definition inv_mix_matrix : list (list nat) :=
  [[14; 11; 13; 9]; [9; 14; 11; 13]; [13; 9; 14; 11]; [11; 13; 9; 14]].

Definition times (k : nat) (x : byte) : byte :=
  match k with
  | 1 => x
  | 2 => mul2 x
  | 3 => mul3 x
  | 9 => mul9 x
  | 11 => mul11 x
  | 13 => mul13 x
  | 14 => mul14 x
  | _ => x00
  end.

Definition coefficient (m : list (list nat)) (i k : nat) : nat :=
  nth k (nth i m []) 0.

(** A row of a matrix times a column. *)
Definition row (m : list (list nat)) (i : nat) (a b c d : byte) : byte :=
  bxor (bxor (bxor (times (coefficient m i 0) a) (times (coefficient m i 1) b))
             (times (coefficient m i 2) c))
       (times (coefficient m i 3) d).

Definition times_column (m : list (list nat)) (a b c d : byte) : list byte :=
  [row m 0 a b c d; row m 1 a b c d; row m 2 a b c d; row m 3 a b c d].

Definition mix_column : byte -> byte -> byte -> byte -> list byte :=
  times_column mix_matrix.

Definition inv_mix_column : byte -> byte -> byte -> byte -> list byte :=
  times_column inv_mix_matrix.

Fixpoint columns (f : byte -> byte -> byte -> byte -> list byte)
    (st : list byte) : list byte :=
  match st with
  | a :: b :: c :: d :: rest => f a b c d ++ columns f rest
  | _ => []
  end.

Definition mix_columns : list byte -> list byte := columns mix_column.
Definition inv_mix_columns : list byte -> list byte := columns inv_mix_column.

(** *** The key schedule *)

Definition word := (byte * byte * byte * byte)%type.

Definition word_bytes (w : word) : list byte :=
  let '(a, b, c, d) := w in [a; b; c; d].

Definition word_xor (v w : word) : word :=
  let '(a, b, c, d) := v in
  let '(a', b', c', d') := w in
  (bxor a a', bxor b b', bxor c c', bxor d d').

Definition rot_word (w : word) : word :=
  let '(a, b, c, d) := w in (b, c, d, a).

Definition sub_word (w : word) : word :=
  let '(a, b, c, d) := w in (sbox a, sbox b, sbox c, sbox d).

(** The round constant of the [i]-th group of eight words, [i >= 1]. *)
Definition rcon (i : nat) : word :=
  (Nat.iter (i - 1) xtime x01, x00, x00, x00).

Definition zero_word : word := (x00, x00, x00, x00).

Definition key_words (key : list byte) : list word :=
  map (fun j => (nth (4 * j) key x00, nth (4 * j + 1) key x00,
                 nth (4 * j + 2) key x00, nth (4 * j + 3) key x00))
      (seq 0 8).

Fixpoint expand (n : nat) (w : list word) : list word :=
  match n with
  | O => w
  | S n' =>
      let i := length w in
      let prev := nth (i - 1) w zero_word in
      let temp :=
        if (i mod 8 =? 0)%nat
        then word_xor (sub_word (rot_word prev)) (rcon (i / 8))
        else if (i mod 8 =? 4)%nat then sub_word prev
        else prev in
      expand n' (w ++ [word_xor (nth (i - 8) w zero_word) temp])
  end.

(** The fifteen round keys of a 256-bit key. *)
Definition round_keys (key : list byte) : list (list byte) :=
  let w := expand 52 (key_words key) in
  map (fun r => flat_map word_bytes (take 4 (drop (4 * r) w))) (seq 0 15).

(** *** The cipher and its inverse *)

Fixpoint rounds (rks : list (list byte)) (st : list byte) : list byte :=
  match rks with
  | [] => st
  | [rk] => xor (shift_rows (sub_bytes st)) rk
  | rk :: rks' =>
      rounds rks' (xor (mix_columns (shift_rows (sub_bytes st))) rk)
  end.

Fixpoint inv_rounds (rks : list (list byte)) (st : list byte) : list byte :=
  match rks with
  | [] => st
  | [rk] => inv_sub_bytes (inv_shift_rows (xor st rk))
  | rk :: rks' =>
      inv_sub_bytes
        (inv_shift_rows (inv_mix_columns (xor (inv_rounds rks' st) rk)))
  end.

Definition encrypt_block (key block : list byte) : list byte :=
  match round_keys key with
  | rk0 :: rks => rounds rks (xor block rk0)
  | [] => block
  end.

Definition decrypt_block (key block : list byte) : list byte :=
  match round_keys key with
  | rk0 :: rks => xor (inv_rounds rks block) rk0
  | [] => block
  end.

End AES.

(** ** JavaScript values *)

Module Value.

(** JavaScript numbers are IEEE 754 doubles. *)
Definition number := float.

(** The data a store cell holds, by content. *)
#[local] Set Warnings "-register-all".
Inductive value :=
| VUndefined
| VNull
| VBool (b : bool)
| VNum (x : number)
| VStr (s : jsstring)
| VArr (items : list value)
| VObj (props : list (jsstring * value)).
#[local] Set Warnings "register-all".

Definition is_nan (x : number) : bool := negb (PrimFloat.eqb x x).

Fixpoint string_eqb (s t : jsstring) : bool :=
  match s, t with
  | [], [] => true
  | c :: s', d :: t' => (c =? d)%N && string_eqb s' t'
  | _, _ => false
  end.

(** [a === b] on primitive values. *)
Definition strict_equal (a b : value) : bool :=
  match a, b with
  | VUndefined, VUndefined => true
  | VNull, VNull => true
  | VBool x, VBool y => Bool.eqb x y
  | VNum x, VNum y => PrimFloat.eqb x y
  | VStr s, VStr t => string_eqb s t
  | _, _ => false
  end.

(** The truthiness [if (v)] tests. *)
Definition truthy (v : value) : bool :=
  match v with
  | VUndefined | VNull => false
  | VBool b => b
  | VNum x => negb (PrimFloat.eqb x 0%float) && negb (is_nan x)
  | VStr s => negb (string_eqb s [])
  | VArr _ | VObj _ => true
  end.

(** The result of an expression that may throw. *)
Inductive completion (A : Type) :=
| Return (a : A)
| Raise (reason : value).
Arguments Return {A} a.
Arguments Raise {A} reason.

(** The [JSON] object of the runtime, taken through its interface:
    [JSON_stringify v] is [None] when [JSON.stringify(v)] is [undefined], and
    [JSON_parse s] is [None] when [JSON.parse(s)] throws a [SyntaxError].
    The two facts are those of the language: [undefined] has no JSON text, and
    the text [undefined] is not JSON. *)
Class JSON := {
  JSON_stringify : value -> option jsstring;
  JSON_parse : jsstring -> option value;
  JSON_stringify_undefined : JSON_stringify VUndefined = None;
  JSON_parse_undefined : JSON_parse (js "undefined") = None
}.

End Value.
Export Value.

(** ** The store library's writable cells *)

Module Svelte.

(** [safe_not_equal(a, b)]: whether [set] takes [b] for a change of [a]. *)
Definition safe_not_equal (a b : value) : bool :=
  match a with
  | VNum x =>
      if is_nan x
      then match b with VNum y => negb (is_nan y) | _ => true end
      else negb (strict_equal a b)
  | VArr _ | VObj _ => true
  | _ => negb (strict_equal a b)
  end.

(** [cell.set(new_value)] on a cell with one subscriber [run]: a value that
    is no change is dropped; otherwise it is stored and the subscriber runs
    with it. *)
Definition writable_set {W : Type} (run : value -> W -> W)
    (new_value : value) (st : value * W) : value * W :=
  let '(current, w) := st in
  if safe_not_equal current new_value
  then (new_value, run new_value w)
  else (current, w).

(** [cell.subscribe(run)]: the subscriber runs at once with the current
    value. *)
Definition writable_subscribe {W : Type} (run : value -> W -> W)
    (st : value * W) : value * W :=
  let '(current, w) := st in (current, run current w).

End Svelte.

(** ** helpers: persistent cells *)

Module Persistent.
Import Svelte.

(** [localStorage]. *)
Abbreviation storage := (gmap jsstring jsstring).

(** What [console.error] has been given: the texts that did not parse. *)
Definition console := list jsstring.

(** [String(x)] of what [JSON.stringify] returned, as [setItem] stores it. *)
Definition to_item (text : option jsstring) : jsstring :=
  match text with
  | Some s => s
  | None => js "undefined"
  end.

Section WithJSON.
Context `{JSON}.

(** The subscriber [persistent] installs. *)
Definition mirror (key : jsstring) (v : value) (ls : storage) : storage :=
  <[key := to_item (JSON_stringify v)]> ls.

(** The value a new cell starts from, and what is logged on the way. *)
Definition rehydrate (key : jsstring) (initialValue : value)
    (ls : storage) (log : console) : value * console :=
  match ls !! key with
  | Some json =>
      if negb (string_eqb json [])
      then match JSON_parse json with
           | Some v => (v, log)
           | None => (initialValue, log ++ [json])
           end
      else (initialValue, log)
  | None => (initialValue, log)
  end.

(** [persistent(key, initialValue)]: the cell's value, the storage and the
    console after the call. *)
Definition persistent (key : jsstring) (initialValue : value)
    (ls : storage) (log : console) : value * storage * console :=
  let '(v, log') := rehydrate key initialValue ls log in
  let '(state, ls') := writable_subscribe (mirror key) (v, ls) in
  (state, ls', log').

(** [cell.set(v)] on the cell [persistent(key, ...)] returned. *)
Definition persistent_set (key : jsstring) (v : value)
    (st : value * storage) : value * storage :=
  writable_set (mirror key) v st.

(** What happens to a cell and the storage it mirrors to: the cell is set, or
    another persistent cell, of another key, mirrors a value of its own. *)
Inductive event :=
| Set_ (v : value)
| Other (key : jsstring) (v : value).

Definition step (key : jsstring) (st : value * storage) (e : event)
  : value * storage :=
  match e with
  | Set_ v => persistent_set key v st
  | Other key' v => (fst st, mirror key' v (snd st))
  end.

Definition foreign (key : jsstring) (e : event) : bool :=
  match e with
  | Set_ _ => true
  | Other key' _ => negb (string_eqb key' key)
  end.

(** The cell and the storage after [persistent(key, initialValue)] and the
    events that follow. *)
Definition run (key : jsstring) (initialValue : value) (ls : storage)
    (events : list event) : value * storage :=
  let '(v, ls', _) := persistent key initialValue ls [] in
  fold_left (step key) events (v, ls').

(** The slot of the cell holds the text of the cell's value. *)
Definition in_sync (key : jsstring) (st : value * storage) : Prop :=
  snd st !! key = Some (to_item (JSON_stringify (fst st))).

End WithJSON.

End Persistent.

(** ** A JSON for booleans, null and strings *)

Module LiteralJSON.
Import Hex.

(** The four hexadecimal digits of a code unit in an escape. *)
Definition hex4 (c : N) : jsstring :=
  [hex_digit (c / 4096 mod 16); hex_digit (c / 256 mod 16);
   hex_digit (c / 16 mod 16); hex_digit (c mod 16)]%N.

Definition escape_unit (c : N) : jsstring :=
  if (c =? 34)%N then [92; 34]%N
  else if (c =? 92)%N then [92; 92]%N
  else if (c =? 8)%N then [92; 98]%N
  else if (c =? 12)%N then [92; 102]%N
  else if (c =? 10)%N then [92; 110]%N
  else if (c =? 13)%N then [92; 114]%N
  else if (c =? 9)%N then [92; 116]%N
  else if (c <? 32)%N then [92; 117]%N ++ hex4 c
  else [c].

(** The characters between the quotes of [JSON.stringify(s)]: a surrogate
    that is not half of a pair is escaped. *)
Fixpoint escape (s : jsstring) : jsstring :=
  match s with
  | [] => []
  | c :: rest =>
      if is_high c then
        match rest with
        | d :: rest' =>
            if is_low d then c :: d :: escape rest'
            else [92; 117]%N ++ hex4 c ++ escape rest
        | [] => [92; 117]%N ++ hex4 c
        end
      else if is_low c then [92; 117]%N ++ hex4 c ++ escape rest
      else escape_unit c ++ escape rest
  end.

Definition stringify (v : value) : option jsstring :=
  match v with
  | VNull => Some (js "null")
  | VBool true => Some (js "true")
  | VBool false => Some (js "false")
  | VStr s => Some (34%N :: escape s ++ [34%N])
  | _ => None
  end.

Definition is_space (c : N) : bool :=
  ((c =? 32) || (c =? 9) || (c =? 10) || (c =? 13))%N.

Fixpoint skip_spaces (s : jsstring) : jsstring :=
  match s with
  | c :: rest => if is_space c then skip_spaces rest else s
  | [] => []
  end.

(** The characters of a string literal after its opening quote, and what
    follows its closing quote. *)
Fixpoint string_body (s : jsstring) : option (jsstring * jsstring) :=
  match s with
  | [] => None
  | c :: rest =>
      if (c =? 34)%N then Some ([], rest)
      else if (c <? 32)%N then None
      else if (c =? 92)%N then
        match rest with
        | e :: rest' =>
            let simple (u : N) :=
              match string_body rest' with
              | Some (body, after) => Some (u :: body, after)
              | None => None
              end in
            if (e =? 34)%N then simple 34%N
            else if (e =? 92)%N then simple 92%N
            else if (e =? 47)%N then simple 47%N
            else if (e =? 98)%N then simple 8%N
            else if (e =? 102)%N then simple 12%N
            else if (e =? 110)%N then simple 10%N
            else if (e =? 114)%N then simple 13%N
            else if (e =? 116)%N then simple 9%N
            else if (e =? 117)%N then
              match rest' with
              | h3 :: h2 :: h1 :: h0 :: rest'' =>
                  match hex_value h3, hex_value h2, hex_value h1, hex_value h0,
                        string_body rest'' with
                  | Some a, Some b, Some c', Some d, Some (body, after) =>
                      Some ((4096 * a + 256 * b + 16 * c' + d)%N :: body, after)
                  | _, _, _, _, _ => None
                  end
              | _ => None
              end
            else None
        | [] => None
        end
      else
        match string_body rest with
        | Some (body, after) => Some (c :: body, after)
        | None => None
        end
  end.

Definition literal (s : jsstring) : option (value * jsstring) :=
  match s with
  | 116 :: 114 :: 117 :: 101 :: rest => Some (VBool true, rest)
  | 102 :: 97 :: 108 :: 115 :: 101 :: rest => Some (VBool false, rest)
  | 110 :: 117 :: 108 :: 108 :: rest => Some (VNull, rest)
  | 34 :: rest =>
      match string_body rest with
      | Some (body, after) => Some (VStr body, after)
      | None => None
      end
  | _ => None
  end%N.

Definition parse (s : jsstring) : option value :=
  match literal (skip_spaces s) with
  | Some (v, after) =>
      match skip_spaces after with
      | [] => Some v
      | _ => None
      end
  | None => None
  end.

(** A JSON to run the cells with: it has the texts of [null], of the
    booleans and of the strings, and reads them back. A number or a container
    has a JSON text in an engine; this instance gives and reads none, and the
    statements that use it keep to booleans, strings and [undefined]. *)
#[export] Instance literal_json : JSON := {|
  JSON_stringify := stringify;
  JSON_parse := parse;
  JSON_stringify_undefined := eq_refl;
  JSON_parse_undefined := eq_refl
|}.

End LiteralJSON.

(** ** store: the error cell and its timer *)

Module ErrorCell.
Import Svelte.

(** A pending [setTimeout]: its handle and the time it is due, in
    milliseconds. The one callback the store ever schedules is the one that
    clears the error cell. *)
Record timer := { timer_id : nat; timer_due : Z }.

(** The event loop as the store sees it, and the module's [errorTimeout]
    variable ([None] while it is [undefined]). *)
Record loop := {
  errorTimeout : option nat;
  timers : list timer;
  next_timer : nat;
  now : Z;
  cleared : list Z  (* the times at which the callback has run *)
}.

(** The error cell and the loop. *)
Definition state := (value * loop)%type.

Definition setTimeout (delay : Z) (w : loop) : nat * loop :=
  (next_timer w,
   {| errorTimeout := errorTimeout w;
      timers := timers w ++ [{| timer_id := next_timer w;
                                timer_due := now w + delay |}];
      next_timer := S (next_timer w);
      now := now w;
      cleared := cleared w |}).

Definition clearTimeout (handle : option nat) (w : loop) : loop :=
  match handle with
  | None => w
  | Some id =>
      {| errorTimeout := errorTimeout w;
         timers := filter (fun t => timer_id t <> id) (timers w);
         next_timer := next_timer w;
         now := now w;
         cleared := cleared w |}
  end.

(** The subscriber of the error cell. *)
Definition on_error (item : value) (w : loop) : loop :=
  let w1 := clearTimeout (errorTimeout w) w in
  if truthy item then
    let '(id, w2) := setTimeout 3500 w1 in
    {| errorTimeout := Some id;
       timers := timers w2;
       next_timer := next_timer w2;
       now := now w2;
       cleared := cleared w2 |}
  else w1.

(** [error.set(v)]. *)
Definition error_set (v : value) (st : state) : state :=
  writable_set on_error v st.

(** The module's top level: [writable(null)], then [error.subscribe]. *)
Definition init (start : Z) : state :=
  writable_subscribe on_error
    (VNull,
     {| errorTimeout := None; timers := []; next_timer := 0; now := start;
        cleared := [] |}).

(** The loop runs a due timer: the timer leaves the queue, the clock is at
    its due time, and its callback, [error.set(null)], runs. *)
Definition fire (t : timer) (st : state) : state :=
  let '(cell, w) := st in
  error_set VNull
    (cell,
     {| errorTimeout := errorTimeout w;
        timers := filter (fun t' => timer_id t' <> timer_id t) (timers w);
        next_timer := next_timer w;
        now := timer_due t;
        cleared := cleared w ++ [timer_due t] |}).

(** The pending timer that is due first. *)
Fixpoint earliest (ts : list timer) : option timer :=
  match ts with
  | [] => None
  | t :: ts' =>
      match earliest ts' with
      | Some t' => if (timer_due t' <? timer_due t)%Z then Some t' else Some t
      | None => Some t
      end
  end.

Fixpoint run_timers (fuel : nat) (until : Z) (st : state) : state :=
  match fuel with
  | O => st
  | S fuel' =>
      match earliest (timers (snd st)) with
      | Some t =>
          if (timer_due t <=? until)%Z
          then run_timers fuel' until (fire t st)
          else st
      | None => st
      end
  end.

(** Time passes until [until]: the timers due by then run in order. The
    callback schedules nothing, so one round per pending timer is enough. *)
Definition advance (until : Z) (st : state) : state :=
  let '(cell, w) := run_timers (length (timers (snd st))) until st in
  (cell,
   {| errorTimeout := errorTimeout w;
      timers := timers w;
      next_timer := next_timer w;
      now := Z.max (now w) until;
      cleared := cleared w |}).

(** What the cell is given: it is a [Writable<string>], initially [null]. *)
Definition is_message (v : value) : bool :=
  match v with
  | VNull | VStr _ => true
  | _ => false
  end.

(** The states the store can be in. *)
Inductive reachable : state -> Prop :=
| reachable_init start : reachable (init start)
| reachable_set v st :
    reachable st -> is_message v = true -> reachable (error_set v st)
| reachable_advance until st :
    reachable st -> reachable (advance until st).

End ErrorCell.

(** ** identity: the shapes of credential data *)

Module IdentityTypes.

Record BankData := {
  BankName : jsstring;
  AccountType : jsstring;
  AccountNumber : jsstring;
  AccountIBAN : jsstring
}.

Record Commitment := {
  CommitmentId : jsstring;
  CommitmentTitle : jsstring;
  CommitmentPercentage : number;
  CommitmentSupport : jsstring;
  CommitmentWalletPercentage : number
}.

Module FutureCommitmentData.
Record t := { Commitments : list Commitment }.
End FutureCommitmentData.

Module PresentCommitmentData.
Record t := { Commitments : list Commitment }.
End PresentCommitmentData.

End IdentityTypes.

(** ** store: the shapes of credential information *)

Module StoreTypes.

Record BankInfo := {
  accountType : jsstring;
  bankName : jsstring;
  accountNumber : jsstring
}.

Record Commitment := {
  commitmentId : jsstring;
  commitmentTitle : jsstring;
  commitmentPercentage : number;
  commitmentSupport : jsstring;
  commitmentWalletPercentage : number
}.

Module FutureCommitmentInfo.
Record t := { commitments : list Commitment }.
End FutureCommitmentInfo.

Module PresentCommitmentInfo.
Record t := { commitments : list Commitment }.
End PresentCommitmentInfo.

End StoreTypes.

(** ** helpers: the data mapping layer *)

Module Mapping.
Import IdentityTypes StoreTypes.

Definition prepareBankInformation (bankData : BankData) : BankInfo :=
  {| bankName := BankName bankData;
     accountNumber := AccountNumber bankData;
     accountType := AccountType bankData |}.

(** The body both commitment mappings give to [map]. *)
Definition prepareCommitment (commitment : IdentityTypes.Commitment)
  : StoreTypes.Commitment :=
  {| commitmentId := CommitmentId commitment;
     commitmentTitle := CommitmentTitle commitment;
     commitmentPercentage := CommitmentPercentage commitment;
     commitmentSupport := CommitmentSupport commitment;
     commitmentWalletPercentage := CommitmentWalletPercentage commitment |}.

Definition prepareFutureCommitmentInformation
    (futureCommitmentData : FutureCommitmentData.t) : FutureCommitmentInfo.t :=
  {| FutureCommitmentInfo.commitments :=
       map prepareCommitment
         (FutureCommitmentData.Commitments futureCommitmentData) |}.

Definition preparePresentCommitmentInformation
    (presentCommitmentData : PresentCommitmentData.t)
  : PresentCommitmentInfo.t :=
  {| PresentCommitmentInfo.commitments :=
       map prepareCommitment
         (PresentCommitmentData.Commitments presentCommitmentData) |}.

End Mapping.

(** ** Objects by reference *)

Module Heap.

(** The value of a property: data by content, or an object by reference. *)
Inductive hvalue :=
| HData (v : value)
| HRef (l : nat).

(** An object is its properties in order; the heap is the objects made so
    far, each at its address. *)
Abbreviation object := (list (jsstring * hvalue)).
Abbreviation heap := (list object).

(** An object literal is evaluated: the objects inside it are made first. *)
Fixpoint alloc (v : value) (h : heap) {struct v} : hvalue * heap :=
  match v with
  | VObj props =>
      let '(props', h') :=
        (fix alloc_props (ps : list (jsstring * value)) (h : heap)
           : object * heap :=
           match ps with
           | [] => ([], h)
           | (k, x) :: ps' =>
               let '(x', h1) := alloc x h in
               let '(rest, h2) := alloc_props ps' h1 in
               ((k, x') :: rest, h2)
           end) props h in
      (HRef (length h'), h' ++ [props'])
  | _ => (HData v, h)
  end.

Fixpoint clone_props (clone : hvalue -> heap -> option (hvalue * heap))
    (props : object) (h : heap) : option (object * heap) :=
  match props with
  | [] => Some ([], h)
  | (k, v) :: rest =>
      match clone v h with
      | Some (v', h1) =>
          match clone_props clone rest h1 with
          | Some (rest', h2) => Some ((k, v') :: rest', h2)
          | None => None
          end
      | None => None
      end
  end.

(** [cloneDeep(v)]: a new object for every object reached from [v], with
    the same properties. [fuel] bounds the depth that is followed; the
    address of a clone is the next free one. *)
Fixpoint cloneDeep (fuel : nat) (v : hvalue) (h : heap)
  : option (hvalue * heap) :=
  match v with
  | HData d => Some (HData d, h)
  | HRef l =>
      match fuel with
      | O => None
      | S fuel' =>
          match h !! l with
          | Some props =>
              match clone_props (cloneDeep fuel') props h with
              | Some (props', h') => Some (HRef (length h'), h' ++ [props'])
              | None => None
              end
          | None => None
          end
      end
  end.

Fixpoint snapshot_props (read : hvalue -> option value) (props : object)
  : option (list (jsstring * value)) :=
  match props with
  | [] => Some []
  | (k, v) :: rest =>
      match read v, snapshot_props read rest with
      | Some x, Some rest' => Some ((k, x) :: rest')
      | _, _ => None
      end
  end.

(** What [v] holds, by content: two values are deep-equal when their
    snapshots are equal. *)
Fixpoint snapshot (fuel : nat) (h : heap) (v : hvalue) : option value :=
  match v with
  | HData d => Some d
  | HRef l =>
      match fuel with
      | O => None
      | S fuel' =>
          match h !! l with
          | Some props =>
              match snapshot_props (snapshot fuel' h) props with
              | Some props' => Some (VObj props')
              | None => None
              end
          | None => None
          end
      end
  end.

End Heap.

(** ** store: the credential table *)

Module Credentials.
Import Heap.

(** An entry of [defaultCredentials]. *)
Definition entry (heading subheading : string) : value :=
  VObj [(js "heading", VStr (js heading));
        (js "subheading", VStr (js subheading));
        (js "data", VNull)].

(** The object literal [defaultCredentials]. *)
Definition defaultCredentials_literal : value :=
  VObj [(js "personal", entry "Home Office" "My Identity");
        (js "immunity", entry "Public Health Authority" "Health Certificate");
        (js "visa", entry "Foreign Border Agency" "Travel Visa");
        (js "company", entry "Company House" "Business Details");
        (js "bank", entry "SNS Bank" "Bank details");
        (js "insurance", entry "Insurance" "Insurance details");
        (js "futureCommitment",
           entry "The Far Future Foundation" "Future Commitment");
        (js "presentCommitment",
           entry "The Now Foundation" "Present Commitment")].

End Credentials.

(** ** Promises *)

Module Promise.

(** A settled promise. *)
Inductive promise (A : Type) :=
| Resolved (a : A)
| Rejected (reason : value).
Arguments Resolved {A} a.
Arguments Rejected {A} reason.

(** [p.then(f)]. *)
Definition then_ {A B} (p : promise A) (f : A -> completion B) : promise B :=
  match p with
  | Resolved a =>
      match f a with
      | Return b => Resolved b
      | Raise reason => Rejected reason
      end
  | Rejected reason => Rejected reason
  end.

(** [p.catch(f)]. *)
Definition catch_ {A} (p : promise A) (f : value -> completion A) : promise A :=
  match p with
  | Resolved a => Resolved a
  | Rejected reason =>
      match f reason with
      | Return a => Resolved a
      | Raise reason' => Rejected reason'
      end
  end.

End Promise.

(** ** The keychain *)

Module Keychain.
Import Promise.

Abbreviation keychain := (gmap jsstring jsstring).

(** What [get] resolves to. *)
Record item := { value : jsstring }.

(** Modelled from the spec: [lib/keychain] is not among the sources. The
    specification gives its interface: [set(key, value)] resolves to a flag,
    [get(key)] resolves to the string stored under [key] and rejects if there
    is none, and [clear()] purges the storage and resolves to a flag. The
    reason of the rejection is not specified; no caller reads it. *)
Definition set (key text : jsstring) (kc : keychain) : promise bool * keychain :=
  (Resolved true, <[key := text]> kc).

Definition get (key : jsstring) (kc : keychain) : promise item :=
  match kc !! key with
  | Some text => Resolved {| value := text |}
  | None => Rejected VUndefined
  end.

Definition clear (kc : keychain) : promise bool * keychain :=
  (Resolved true, ∅).

End Keychain.

(** ** identity: the identity service *)

Module Identity.
Import Svelte Persistent Heap Credentials Promise.

Section WithJSON.
Context `{JSON}.

(** helpers: [parse(data)]. *)
Definition parse (data : jsstring) : Value.value :=
  match JSON_parse data with
  | Some v => v
  | None => VNull
  end.

(** [retrieveIdentity(identifier = 'did')]. *)
Definition retrieveIdentity (identifier : option jsstring)
    (kc : Keychain.keychain) : promise Value.value :=
  catch_
    (then_ (Keychain.get (default (js "did") identifier) kc)
           (fun data => Return (parse (Keychain.value data))))
    (fun _ => Return VNull).

(** [retrieveCredential(credentialId)]. *)
Definition retrieveCredential (credentialId : jsstring)
    (kc : Keychain.keychain) : promise Value.value :=
  catch_
    (then_ (Keychain.get credentialId kc)
           (fun data => Return (parse (Keychain.value data))))
    (fun _ => Return VNull).

(** The cells of the store the service writes, the objects they refer to
    and the two storages. *)
Record world := {
  localStorage : storage;
  hasSetupAccount : Value.value;
  dataVersion : Value.value;
  defaultCredentials : nat;
  credentials : nat;
  heap_ : heap;
  keychain_ : Keychain.keychain
}.

(** The depth [cloneDeep] may have to follow in a heap. *)
Definition depth (h : heap) : nat := S (length h).

(** store: the top level of the module, as far as these cells go. *)
Definition init_store (ls : storage) (kc : Keychain.keychain) : option world :=
  let '(setup, ls1, _) := persistent (js "hasSetupAccount") (VBool false) ls [] in
  let '(version, ls2, _) := persistent (js "dataVersion") VUndefined ls1 [] in
  match alloc defaultCredentials_literal [] with
  | (HRef table, h) =>
      match cloneDeep (depth h) (HRef table) h with
      | Some (HRef copy, h') =>
          Some {| localStorage := ls2; hasSetupAccount := setup;
                  dataVersion := version; defaultCredentials := table;
                  credentials := copy; heap_ := h'; keychain_ := kc |}
      | _ => None
      end
  | _ => None
  end.

(** [clearIdentity()]: the promise it returns and the world it leaves. A
    table object is always a change to [credentials.set]. *)
Definition clearIdentity (w : world) : option (promise bool * world) :=
  let '(setup, ls1) :=
    persistent_set (js "hasSetupAccount") (VBool false)
      (hasSetupAccount w, localStorage w) in
  let '(version, ls2) :=
    persistent_set (js "dataVersion") VUndefined (dataVersion w, ls1) in
  match cloneDeep (depth (heap_ w)) (HRef (defaultCredentials w)) (heap_ w) with
  | Some (HRef copy, h') =>
      let '(cleared, kc') := Keychain.clear (keychain_ w) in
      Some (cleared,
            {| localStorage := ls2; hasSetupAccount := setup;
               dataVersion := version;
               defaultCredentials := defaultCredentials w;
               credentials := copy; heap_ := h'; keychain_ := kc' |})
  | _ => None
  end.

(** [defaultCredentials] still reads as its literal. *)
Definition default_intact (w : world) : Prop :=
  snapshot (depth (heap_ w)) (heap_ w) (HRef (defaultCredentials w))
  = Some defaultCredentials_literal.

End WithJSON.

End Identity.

(** ** Strings with unpaired surrogates *)

Module Text.

(** [String.prototype.toWellFormed]: every surrogate that is not half of a
    pair is replaced by U+FFFD. *)
Fixpoint toWellFormed (s : jsstring) : jsstring :=
  match s with
  | [] => []
  | c :: rest =>
      if is_high c then
        match rest with
        | d :: rest' =>
            if is_low d then c :: d :: toWellFormed rest'
            else 0xFFFD%N :: toWellFormed rest
        | [] => [0xFFFD%N]
        end
      else if is_low c then 0xFFFD%N :: toWellFormed rest
      else c :: toWellFormed rest
  end.

(** The code units of a string are 16 bits wide. *)
Definition code_units_16 (s : jsstring) : Prop :=
  Forall (fun c => (c < 0x10000)%N) s.

(** U+FFFD does not occur in the string. *)
Definition no_replacement (s : jsstring) : bool :=
  forallb (fun c => negb (c =? 0xFFFD)%N) s.

(** A digit of [0-9a-f]. *)
Definition is_hex_digit (c : N) : bool :=
  ((48 <=? c) && (c <=? 57) || (97 <=? c) && (c <=? 102))%N.

End Text.

(** ** identity and store: the other shapes of credential data *)

Module AddressData.
Record UserAddress_t := {
  City : jsstring;
  State : jsstring;
  Country : jsstring;
  Postcode : jsstring;
  Street : jsstring;
  House : jsstring
}.
Record t := {
  Language : jsstring;
  Locale : jsstring;
  UserAddress : UserAddress_t
}.
End AddressData.

Module PersonalData.
Record UserName_t := { FirstName : jsstring; LastName : jsstring }.
Record UserDOB_t := { Date : jsstring }.
Record UserPersonalData_t := {
  UserName : UserName_t;
  UserDOB : UserDOB_t;
  Birthplace : jsstring;
  Nationality : jsstring;
  Country : jsstring;
  Gender : jsstring;
  IdentityCardNumber : jsstring;
  PassportNumber : jsstring
}.
Record t := {
  Language : jsstring;
  Locale : jsstring;
  UserPersonalData : UserPersonalData_t
}.
End PersonalData.

Module ContactDetails.
Record UserContacts_t := {
  Email : jsstring;
  Phone : jsstring;
  Cell : jsstring
}.
Record t := {
  Language : jsstring;
  Locale : jsstring;
  UserContacts : UserContacts_t
}.
End ContactDetails.

Module TestResultData.
Record t := {
  TestID : jsstring;
  TestBy : jsstring;
  TestTimestamp : jsstring;
  TestKit : jsstring;
  TestResult : jsstring
}.
End TestResultData.

Module VisaApplicationData.
Record t := {
  VisaApplicationNumber : jsstring;
  VisaCountry : jsstring
}.
End VisaApplicationData.

Module CompanyData.
Record t := {
  CompanyName : jsstring;
  CompanyAddress : jsstring;
  CompanyType : jsstring;
  CompanyBusiness : jsstring;
  CompanyNumber : jsstring;
  CompanyOwner : jsstring;
  CompanyStatus : jsstring;
  CompanyCreationDate : jsstring
}.
End CompanyData.

Module InsuranceData.
Record t := {
  Name : jsstring;
  Address : jsstring;
  AccountNumber : jsstring;
  InsuranceType : jsstring;
  StartDate : jsstring;
  EndDate : jsstring
}.
End InsuranceData.

Module PersonalInfo.
Record t := {
  firstName : jsstring;
  lastName : jsstring;
  dateOfBirth : jsstring;
  birthPlace : jsstring;
  nationality : jsstring;
  countryOfResidence : jsstring;
  address : jsstring;
  identityCardNumber : jsstring;
  passportNumber : jsstring;
  phoneNumber : jsstring;
  email : jsstring
}.
End PersonalInfo.

Module ImmunityInfo.
Record t := {
  testId : jsstring;
  testedBy : jsstring;
  testTimestamp : jsstring;
  testKit : jsstring;
  testResult : jsstring
}.
End ImmunityInfo.

Module VisaInfo.
Record t := {
  visaApplicationNumber : jsstring;
  visaCountry : jsstring
}.
End VisaInfo.

Module CompanyInfo.
Record t := {
  companyName : jsstring;
  companyAddress : jsstring;
  companyType : jsstring;
  companyBusiness : jsstring;
  companyNumber : jsstring;
  companyOwner : jsstring;
  companyStatus : jsstring;
  companyCreationDate : jsstring
}.
End CompanyInfo.

Module InsuranceInfo.
Record t := {
  insuranceType : jsstring;
  name : jsstring;
  startDate : jsstring;
  endDate : jsstring
}.
End InsuranceInfo.

(** ** helpers: the other mappings *)

Module Mapping2.

(** [preparePersonalInformation]: the address is the template
    [`${Street} ${City}, ${Postcode}`]. *)
Definition preparePersonalInformation (addressData : AddressData.t)
    (personalData : PersonalData.t) (contactData : ContactDetails.t)
  : PersonalInfo.t :=
  let user := PersonalData.UserPersonalData personalData in
  let userAddress := AddressData.UserAddress addressData in
  {| PersonalInfo.firstName :=
       PersonalData.FirstName (PersonalData.UserName user);
     PersonalInfo.lastName :=
       PersonalData.LastName (PersonalData.UserName user);
     PersonalInfo.dateOfBirth := PersonalData.Date (PersonalData.UserDOB user);
     PersonalInfo.birthPlace := PersonalData.Birthplace user;
     PersonalInfo.nationality := PersonalData.Nationality user;
     PersonalInfo.countryOfResidence := AddressData.Country userAddress;
     PersonalInfo.address :=
       AddressData.Street userAddress ++ js " " ++
       AddressData.City userAddress ++ js ", " ++
       AddressData.Postcode userAddress;
     PersonalInfo.identityCardNumber := PersonalData.IdentityCardNumber user;
     PersonalInfo.passportNumber := PersonalData.PassportNumber user;
     PersonalInfo.phoneNumber :=
       ContactDetails.Phone (ContactDetails.UserContacts contactData);
     PersonalInfo.email :=
       ContactDetails.Email (ContactDetails.UserContacts contactData) |}.

Definition prepareImmunityInformation (testResultData : TestResultData.t)
  : ImmunityInfo.t :=
  {| ImmunityInfo.testId := TestResultData.TestID testResultData;
     ImmunityInfo.testedBy := TestResultData.TestBy testResultData;
     ImmunityInfo.testTimestamp := TestResultData.TestTimestamp testResultData;
     ImmunityInfo.testKit := TestResultData.TestKit testResultData;
     ImmunityInfo.testResult := TestResultData.TestResult testResultData |}.

Definition prepareVisaInformation
    (visaApplicationData : VisaApplicationData.t) : VisaInfo.t :=
  {| VisaInfo.visaApplicationNumber :=
       VisaApplicationData.VisaApplicationNumber visaApplicationData;
     VisaInfo.visaCountry :=
       VisaApplicationData.VisaCountry visaApplicationData |}.

Definition prepareCompanyInformation (companyData : CompanyData.t)
  : CompanyInfo.t :=
  {| CompanyInfo.companyName := CompanyData.CompanyName companyData;
     CompanyInfo.companyAddress := CompanyData.CompanyAddress companyData;
     CompanyInfo.companyType := CompanyData.CompanyType companyData;
     CompanyInfo.companyBusiness := CompanyData.CompanyBusiness companyData;
     CompanyInfo.companyNumber := CompanyData.CompanyNumber companyData;
     CompanyInfo.companyOwner := CompanyData.CompanyOwner companyData;
     CompanyInfo.companyStatus := CompanyData.CompanyStatus companyData;
     CompanyInfo.companyCreationDate :=
       CompanyData.CompanyCreationDate companyData |}.

Definition prepareInsuranceInformation (insuranceData : InsuranceData.t)
  : InsuranceInfo.t :=
  {| InsuranceInfo.insuranceType := InsuranceData.InsuranceType insuranceData;
     InsuranceInfo.name := InsuranceData.Name insuranceData;
     InsuranceInfo.startDate := InsuranceData.StartDate insuranceData;
     InsuranceInfo.endDate := InsuranceData.EndDate insuranceData |}.

End Mapping2.

(** ** helpers: the demo user data *)

Module RandomUser.
Import Promise.

(** What is thrown on reading a property of [undefined] or [null]; of the
    error object only the name is kept. *)
Definition TypeError : value := VObj [(js "name", VStr (js "TypeError"))].

(** The value of an own property of an object, whose keys are distinct. *)
Fixpoint property (key : jsstring) (props : list (jsstring * value))
  : value :=
  match props with
  | [] => VUndefined
  | (k, v) :: rest => if string_eqb k key then v else property key rest
  end.

(** [result.results]. *)
Definition results_of (result : value) : completion value :=
  match result with
  | VUndefined | VNull => Raise TypeError
  | VObj props => Return (property (js "results") props)
  | _ => Return VUndefined
  end.

(** [results[0]]. *)
Definition first_of (results : value) : completion value :=
  match results with
  | VUndefined | VNull => Raise TypeError
  | VArr (item :: _) => Return item
  | VStr (c :: _) => Return (VStr [c])
  | VObj props => Return (property (js "0") props)
  | _ => Return VUndefined
  end.

(** The response [fetch] resolves to: what its [json()] settles to. *)
Record response := { json : promise value }.

(** [p.then(f)] for an [f] that returns a promise, which is adopted. *)
Definition then_adopt {A B} (p : promise A) (f : A -> promise B) : promise B :=
  match p with
  | Resolved a => f a
  | Rejected reason => Rejected reason
  end.

(** [getRandomUserData()], given what [fetch(RANDOM_USER_DATA_API_URL)]
    settles to. *)
Definition getRandomUserData (fetched : promise response) : promise value :=
  then_ (then_adopt fetched (fun response => json response))
        (fun result =>
           match results_of result with
           | Return results => first_of results
           | Raise reason => Raise reason
           end).

End RandomUser.

(** ** helpers: the synchronous timeout *)

Module Delay.

(** [delay(ms)], given the successive readings of [new Date().getTime()]:
    the loop reads the clock until a reading is no longer within [ms] of the
    first one. The result is the number of readings taken; [None] when
    [fuel] readings were not enough. *)
Fixpoint delay_loop (fuel : nat) (ms startPoint : number)
    (clock : nat -> number) (k : nat) : option nat :=
  match fuel with
  | O => None
  | S fuel' =>
      if PrimFloat.leb (PrimFloat.sub (clock k) startPoint) ms
      then delay_loop fuel' ms startPoint clock (S k)
      else Some (S k)
  end.

Definition delay (fuel : nat) (ms : number) (clock : nat -> number)
  : option nat :=
  let startPoint := clock 0 in
  delay_loop fuel ms startPoint clock 1.

(** The test of the loop on the [k]-th reading. *)
Definition waiting (ms : number) (clock : nat -> number) (k : nat) : bool :=
  PrimFloat.leb (PrimFloat.sub (clock k) (clock 0)) ms.

End Delay.

(** ** identity: storing in the keychain *)

Module IdentityStore.
Import Promise.

Section WithJSON.
Context `{JSON}.

(** [storeIdentity(identifier, ident)]: the keychain takes strings, and an
    [Identity] has a JSON text; for a value that has none the call is not
    modelled. *)
Definition storeIdentity (identifier : jsstring) (ident : Value.value)
    (kc : Keychain.keychain) : option (promise bool * Keychain.keychain) :=
  match JSON_stringify ident with
  | Some text => Some (Keychain.set identifier text kc)
  | None => None
  end.

(** [storeCredential(credentialId, credential)]. *)
Definition storeCredential (credentialId : jsstring) (credential : Value.value)
    (kc : Keychain.keychain) : option (promise bool * Keychain.keychain) :=
  match JSON_stringify credential with
  | Some text => Some (Keychain.set credentialId text kc)
  | None => None
  end.

End WithJSON.

End IdentityStore.

(** ** store: the persistent cells at start *)

Module StoreCells.
Import Persistent.

Section WithJSON.
Context `{JSON}.

(** The two persistent cells of the store are made, in the order of the
    module: the values they start with, the storage and the console. *)
Definition start (ls : storage) (log : console)
  : value * value * storage * console :=
  let '(setup, ls1, log1) :=
    persistent (js "hasSetupAccount") (VBool false) ls log in
  let '(version, ls2, log2) :=
    persistent (js "dataVersion") VUndefined ls1 log1 in
  (setup, version, ls2, log2).

End WithJSON.

End StoreCells.

(** ** Objects reached from a value *)

Module Reach.
Import Heap.

(** The addresses of the objects reached from [v], following at most
    [fuel] references in a row. *)
Fixpoint addresses (fuel : nat) (h : heap) (v : hvalue) : list nat :=
  match v with
  | HData _ => []
  | HRef l =>
      l ::
      match fuel with
      | O => []
      | S fuel' =>
          match h !! l with
          | Some props => flat_map (fun p => addresses fuel' h (snd p)) props
          | None => []
          end
      end
  end.

(** No object is reached from both values. *)
Definition disjoint (fuel : nat) (h : heap) (v v' : hvalue) : bool :=
  forallb (fun l => negb (existsb (Nat.eqb l) (addresses fuel h v')))
          (addresses fuel h v).

End Reach.

(** ** identity: clearing more than once *)

Module Repeat.
Import Identity.

Section WithJSON.
Context `{JSON}.

(** [clearIdentity()] called [n] times in a row. *)
Fixpoint clear_times (n : nat) (w : world) : option world :=
  match n with
  | O => Some w
  | S n' =>
      match clearIdentity w with
      | Some (_, w') => clear_times n' w'
      | None => None
      end
  end.

End WithJSON.

End Repeat.

(** * Properties *)

(** ** Bytes and bit fields *)

Module BitFacts.

Local Ltac Zify.zify_post_hook ::= Z.div_mod_to_equations.

Lemma to_N_byte_of_N n : (n < 256)%N -> Byte.to_N (byte_of_N n) = n.
Proof.
  intros Hn. unfold byte_of_N. rewrite N.mod_small by assumption.
  destruct (Byte.of_N n) as [b|] eqn:E.
  - apply Byte.to_of_N. assumption.
  - apply Byte.of_N_None_iff in E. lia.
Qed.

Lemma byte_of_N_to_N b : byte_of_N (Byte.to_N b) = b.
Proof.
  unfold byte_of_N. pose proof (Byte.to_N_bounded b).
  rewrite N.mod_small by lia. rewrite Byte.of_to_N. reflexivity.
Qed.

Lemma to_N_lt b : (Byte.to_N b < 256)%N.
Proof. pose proof (Byte.to_N_bounded b). lia. Qed.

Lemma land_shiftl_low a b k : (b < 2 ^ k)%N -> N.land (N.shiftl a k) b = 0%N.
Proof.
  intros Hb. apply N.bits_inj. intros n. rewrite N.land_spec, N.bits_0.
  destruct (N.lt_ge_cases n k) as [Hn|Hn].
  - rewrite N.shiftl_spec_low by assumption. reflexivity.
  - destruct (N.eq_dec b 0%N) as [->|Hb0]; [rewrite N.bits_0; apply andb_false_r|].
    rewrite (N.bits_above_log2 b n), andb_false_r; [reflexivity|].
    apply N.log2_lt_pow2 in Hb; lia.
Qed.

(** Bit fields that do not overlap add up. *)
Lemma lor_add_disjoint k a b :
  (a mod 2 ^ k = 0)%N -> (b < 2 ^ k)%N -> N.lor a b = (a + b)%N.
Proof.
  intros Ha Hb.
  assert (a = N.shiftl (a / 2 ^ k) k) as ->.
  { rewrite N.shiftl_mul_pow2. pose proof (N.div_mod' a (2 ^ k)). lia. }
  rewrite N.add_nocarry_lxor, N.lxor_lor by (apply land_shiftl_low; assumption).
  reflexivity.
Qed.

Lemma shiftr_div a k : N.shiftr a k = (a / 2 ^ k)%N.
Proof. apply N.shiftr_div_pow2. Qed.

Lemma shiftl_mul a k : N.shiftl a k = (a * 2 ^ k)%N.
Proof. apply N.shiftl_mul_pow2. Qed.

Lemma land_mod a k : N.land a (N.ones k) = (a mod 2 ^ k)%N.
Proof. apply N.land_ones. Qed.

(** The bitwise expressions of the codec, as arithmetic. *)
Ltac arith_bits :=
  change 0x3F%N with (N.ones 6) in *;
  change 0x1F%N with (N.ones 5) in *;
  change 0xF%N with (N.ones 4) in *;
  change 0x3FF%N with (N.ones 10) in *;
  rewrite ?land_mod, ?shiftr_div, ?shiftl_mul in *;
  change (2 ^ 4)%N with 16%N in *;
  change (2 ^ 5)%N with 32%N in *;
  change (2 ^ 6)%N with 64%N in *;
  change (2 ^ 10)%N with 1024%N in *;
  change (2 ^ 12)%N with 4096%N in *;
  change (2 ^ 18)%N with 262144%N in *.

Lemma lor_const k c y :
  (c mod 2 ^ k = 0)%N -> (y < 2 ^ k)%N -> N.lor y c = (c + y)%N.
Proof. intros. rewrite N.lor_comm. eapply lor_add_disjoint; eassumption. Qed.

End BitFacts.

(** ** The UTF-8 codec on well-formed strings *)

Module Utf8Facts.
Import Utf8 BitFacts.

Local Ltac Zify.zify_post_hook ::= Z.div_mod_to_equations.

Fixpoint all_from (n : nat) (start : N) (P : N -> bool) : bool :=
  match n with
  | O => true
  | S n' => if P start then all_from n' (N.succ start) P else false
  end.

Lemma all_from_spec n : forall start P, all_from n start P = true ->
  forall x, (start <= x < start + N.of_nat n)%N -> P x = true.
Proof.
  induction n as [|n IH]; intros start P Hall x Hx; [lia|].
  simpl in Hall. destruct (P start) eqn:E; [|discriminate].
  destruct (N.eq_dec x start) as [->|Hne]; [assumption|].
  apply (IH _ _ Hall). lia.
Qed.

Lemma continuation_byte z :
  (z < 64)%N ->
  continuation (byte_of_N (N.lor z 0x80)) = true /\
  Byte.to_N (byte_of_N (N.lor z 0x80)) = (128 + z)%N.
Proof.
  intros Hz.
  assert (all_from 64 0
            (fun z => continuation (byte_of_N (N.lor z 0x80)) &&
                      (Byte.to_N (byte_of_N (N.lor z 0x80)) =? 128 + z)%N)
          = true) as Hall by (vm_compute; reflexivity).
  pose proof (all_from_spec _ _ _ Hall z ltac:(lia)) as Hz'.
  apply andb_true_iff in Hz' as [? ?%N.eqb_eq]. split; assumption.
Qed.

Lemma slice1 b tl :
  (Byte.to_N b < 0x80)%N ->
  utf8Slice (b :: tl) = Byte.to_N b :: utf8Slice tl.
Proof.
  intros Hb. cbn [utf8Slice]. unfold bytesPerSequence.
  destruct (0xEF <? Byte.to_N b)%N eqn:E1; [apply N.ltb_lt in E1; lia|].
  destruct (0xDF <? Byte.to_N b)%N eqn:E2; [apply N.ltb_lt in E2; lia|].
  destruct (0xBF <? Byte.to_N b)%N eqn:E3; [apply N.ltb_lt in E3; lia|].
  apply N.ltb_lt in Hb. rewrite Hb. reflexivity.
Qed.

Lemma slice2 b0 b1 tl cp :
  bytesPerSequence (Byte.to_N b0) = 2 -> decode2 b0 b1 = Some cp ->
  utf8Slice (b0 :: b1 :: tl) = code_units cp ++ utf8Slice tl.
Proof. intros H1 H2. cbn [utf8Slice]. rewrite H1, H2. reflexivity. Qed.

Lemma slice3 b0 b1 b2 tl cp :
  bytesPerSequence (Byte.to_N b0) = 3 -> decode3 b0 b1 b2 = Some cp ->
  utf8Slice (b0 :: b1 :: b2 :: tl) = code_units cp ++ utf8Slice tl.
Proof. intros H1 H2. cbn [utf8Slice]. rewrite H1, H2. reflexivity. Qed.

Lemma slice4 b0 b1 b2 b3 tl cp :
  bytesPerSequence (Byte.to_N b0) = 4 -> decode4 b0 b1 b2 b3 = Some cp ->
  utf8Slice (b0 :: b1 :: b2 :: b3 :: tl) = code_units cp ++ utf8Slice tl.
Proof. intros H1 H2. cbn [utf8Slice]. rewrite H1, H2. reflexivity. Qed.

Lemma bytesPerSequence_cases b :
  bytesPerSequence b =
    if (0xEF <? b)%N then 4 else if (0xDF <? b)%N then 3
    else if (0xBF <? b)%N then 2 else 1.
Proof. reflexivity. Qed.

Ltac ltb_cases :=
  repeat match goal with
  | |- context [(?a <? ?b)%N] =>
      let E := fresh "E" in
      destruct (a <? b)%N eqn:E;
      [apply N.ltb_lt in E | apply N.ltb_ge in E]; try lia
  end.

(** A code point of the basic plane outside the surrogates decodes from its
    own bytes, whatever follows them. *)
Lemma decode_encode_bmp c tl :
  (c < 0x10000)%N -> is_high c = false -> is_low c = false ->
  utf8Slice (encode_code_point c ++ tl) = c :: utf8Slice tl.
Proof.
  intros Hc Hh Hl. unfold encode_code_point.
  destruct (c <? 0x80)%N eqn:E1; [apply N.ltb_lt in E1 | apply N.ltb_ge in E1].
  { cbn [app]. rewrite slice1; rewrite to_N_byte_of_N by lia; [reflexivity|lia]. }
  destruct (c <? 0x800)%N eqn:E2; [apply N.ltb_lt in E2 | apply N.ltb_ge in E2].
  { cbn [app].
    destruct (continuation_byte (N.land c 0x3F)) as [Hk1 Hv1].
    { arith_bits. lia. }
    assert (N.lor (N.shiftr c 6) 0xC0 = 192 + c / 64)%N as Hb0.
    { arith_bits. apply (lor_const 6); [reflexivity|]. change (2 ^ 6)%N with 64%N. lia. }
    erewrite slice2 with (cp := c).
    - unfold code_units. ltb_cases; try reflexivity.
    - rewrite Hb0, to_N_byte_of_N by lia. rewrite bytesPerSequence_cases. ltb_cases; try reflexivity.
    - unfold decode2. rewrite Hk1, Hv1, Hb0, to_N_byte_of_N by lia.
      arith_bits.
      rewrite (lor_add_disjoint 6) by (change (2 ^ 6)%N with 64%N; lia).
      ltb_cases; try (f_equal; lia). }
  destruct (c <? 0x10000)%N eqn:E3; [|apply N.ltb_ge in E3; lia].
  cbn [app].
  assert (c < 0xD800 \/ 0xDFFF < c)%N as Hsur.
  { unfold is_high, is_low in *.
    apply andb_false_iff in Hh as [Hh|Hh]; apply andb_false_iff in Hl as [Hl|Hl];
      rewrite ?N.leb_gt in *; lia. }
  destruct (continuation_byte (N.land c 0x3F)) as [Hk1 Hv1].
  { arith_bits. lia. }
  destruct (continuation_byte (N.land (N.shiftr c 6) 0x3F)) as [Hk2 Hv2].
  { arith_bits. lia. }
  assert (N.lor (N.shiftr c 12) 0xE0 = 224 + c / 4096)%N as Hb0.
  { arith_bits. apply (lor_const 5); [reflexivity|]. change (2 ^ 5)%N with 32%N. lia. }
  erewrite slice3 with (cp := c).
  - unfold code_units. ltb_cases; try reflexivity.
  - rewrite Hb0, to_N_byte_of_N by lia. rewrite bytesPerSequence_cases. ltb_cases; try reflexivity.
  - unfold decode3. rewrite Hk1, Hk2, Hv1, Hv2, Hb0, to_N_byte_of_N by lia.
    cbn [andb]. arith_bits.
    rewrite (lor_add_disjoint 12 (_ * 4096) (_ * 64))
      by (change (2 ^ 12)%N with 4096%N; lia).
    rewrite (lor_add_disjoint 6 (_ + _)) by (change (2 ^ 6)%N with 64%N; lia).
    assert (((224 + c / 4096) mod 16 * 4096 + (128 + (c / 64) mod 64) mod 64 * 64 +
             (128 + c mod 64) mod 64)%N = c) as -> by lia.
    assert ((0x7FF <? c)%N = true) as -> by (apply N.ltb_lt; lia).
    assert (((c <? 0xD800) || (0xDFFF <? c))%N = true) as ->.
    { apply orb_true_iff. rewrite !N.ltb_lt. assumption. }
    reflexivity.
Qed.

(** A code point beyond the basic plane decodes from its four bytes. *)
Lemma decode_encode_supplementary x tl :
  (0x10000 <= x < 0x110000)%N ->
  utf8Slice (encode_code_point x ++ tl) = code_units x ++ utf8Slice tl.
Proof.
  intros Hx. unfold encode_code_point.
  destruct (x <? 0x80)%N eqn:E1; [apply N.ltb_lt in E1; lia|].
  destruct (x <? 0x800)%N eqn:E2; [apply N.ltb_lt in E2; lia|].
  destruct (x <? 0x10000)%N eqn:E3; [apply N.ltb_lt in E3; lia|].
  clear E1 E2 E3. cbn [app].
  destruct (continuation_byte (N.land x 0x3F)) as [Hk1 Hv1].
  { arith_bits. lia. }
  destruct (continuation_byte (N.land (N.shiftr x 6) 0x3F)) as [Hk2 Hv2].
  { arith_bits. lia. }
  destruct (continuation_byte (N.land (N.shiftr x 12) 0x3F)) as [Hk3 Hv3].
  { arith_bits. lia. }
  assert (N.lor (N.shiftr x 18) 0xF0 = 240 + x / 262144)%N as Hb0.
  { arith_bits. apply (lor_const 4); [reflexivity|]. change (2 ^ 4)%N with 16%N. lia. }
  apply slice4.
  - rewrite Hb0, to_N_byte_of_N by lia. rewrite bytesPerSequence_cases.
    ltb_cases; try reflexivity.
  - unfold decode4. rewrite Hk1, Hk2, Hk3, Hv1, Hv2, Hv3, Hb0, to_N_byte_of_N by lia.
    clear Hk1 Hk2 Hk3 Hv1 Hv2 Hv3 Hb0.
    cbn [andb]. arith_bits.
    rewrite (lor_add_disjoint 18 (_ * 262144) (_ * 4096))
      by (change (2 ^ 18)%N with 262144%N; lia).
    rewrite (lor_add_disjoint 12 (_ + _) (_ * 64))
      by (change (2 ^ 12)%N with 4096%N; lia).
    rewrite (lor_add_disjoint 6 (_ + _)) by (change (2 ^ 6)%N with 64%N; lia).
    assert (((240 + x / 262144) mod 16 * 262144 +
             (128 + (x / 4096) mod 64) mod 64 * 4096 +
             (128 + (x / 64) mod 64) mod 64 * 64 +
             (128 + x mod 64) mod 64)%N = x) as -> by lia.
    assert ((0xFFFF <? x)%N = true) as -> by (apply N.ltb_lt; lia).
    assert ((x <? 0x110000)%N = true) as -> by (apply N.ltb_lt; lia).
    reflexivity.
Qed.

Lemma pair_code_point_value hi lo :
  is_high hi = true -> is_low lo = true ->
  (pair_code_point hi lo = (hi - 0xD800) * 1024 + (lo - 0xDC00) + 0x10000)%N.
Proof.
  intros Hh Hl. unfold is_high, is_low in *.
  apply andb_true_iff in Hh as [Hh1%N.leb_le Hh2%N.leb_le].
  apply andb_true_iff in Hl as [Hl1%N.leb_le Hl2%N.leb_le].
  unfold pair_code_point. arith_bits.
  rewrite (lor_add_disjoint 10) by (change (2 ^ 10)%N with 1024%N; lia).
  reflexivity.
Qed.

Lemma code_units_pair hi lo :
  is_high hi = true -> is_low lo = true ->
  code_units (pair_code_point hi lo) = [hi; lo].
Proof.
  intros Hh Hl. rewrite pair_code_point_value by assumption.
  unfold is_high, is_low in *.
  apply andb_true_iff in Hh as [Hh1%N.leb_le Hh2%N.leb_le].
  apply andb_true_iff in Hl as [Hl1%N.leb_le Hl2%N.leb_le].
  unfold code_units.
  match goal with |- context [(?a <? ?b)%N] =>
    assert ((a <? b)%N = true) as -> by (apply N.ltb_lt; lia) end.
  assert (((hi - 0xD800) * 1024 + (lo - 0xDC00) + 0x10000 - 0x10000
           = (hi - 0xD800) * 1024 + (lo - 0xDC00))%N) as -> by lia.
  arith_bits.
  rewrite (lor_const 10) by (try reflexivity; change (2 ^ 10)%N with 1024%N; lia).
  rewrite (lor_add_disjoint 10) by (try reflexivity; change (2 ^ 10)%N with 1024%N; lia).
  f_equal; [lia|]. f_equal. lia.
Qed.

(** A surrogate pair decodes from the four bytes of its code point. *)
Lemma decode_encode_pair hi lo tl :
  is_high hi = true -> is_low lo = true ->
  utf8Slice (encode_code_point (pair_code_point hi lo) ++ tl)
  = hi :: lo :: utf8Slice tl.
Proof.
  intros Hh Hl. rewrite decode_encode_supplementary.
  - rewrite code_units_pair by assumption. reflexivity.
  - rewrite pair_code_point_value by assumption. unfold is_high, is_low in *.
    apply andb_true_iff in Hh as [Hh1%N.leb_le Hh2%N.leb_le].
    apply andb_true_iff in Hl as [Hl1%N.leb_le Hl2%N.leb_le]. lia.
Qed.

Lemma utf8_roundtrip_bounded n : forall s,
  length s <= n -> well_formed s = true -> utf8Slice (utf8ToBytes s) = s.
Proof.
  induction n as [|n IH]; intros s Hlen Hwf.
  { destruct s; [reflexivity|simpl in Hlen; lia]. }
  destruct s as [|c rest]; [reflexivity|].
  cbn [well_formed utf8ToBytes] in *.
  destruct (is_high c) eqn:Hh.
  - destruct rest as [|d rest']; [discriminate|].
    apply andb_true_iff in Hwf as [Hd Hwf]. rewrite Hd.
    rewrite decode_encode_pair by assumption.
    rewrite IH; [reflexivity| simpl in Hlen; lia | assumption].
  - apply andb_true_iff in Hwf as [Hc Hwf].
    apply andb_true_iff in Hc as [Hl%negb_true_iff Hc%N.ltb_lt].
    rewrite Hl. rewrite decode_encode_bmp by assumption.
    rewrite IH; [reflexivity| simpl in Hlen; lia | assumption].
Qed.

(** Writing a well-formed string as UTF-8 and reading it back is the
    identity. *)
Lemma utf8_roundtrip s :
  well_formed s = true -> utf8Slice (utf8ToBytes s) = s.
Proof. apply (utf8_roundtrip_bounded (length s)). lia. Qed.

(** A lone surrogate does not survive the codec: it comes back as U+FFFD. *)
Lemma utf8_lone_surrogate :
  utf8Slice (utf8ToBytes [0xD83D%N]) = [0xFFFD%N].
Proof. reflexivity. Qed.

End Utf8Facts.

(** ** Text that was read without a replacement *)

Module Utf8Inverse.
Import Utf8 Text BitFacts Utf8Facts.

Local Ltac Zify.zify_post_hook ::= Z.div_mod_to_equations.

Lemma continuation_range b :
  continuation b = true -> (128 <= Byte.to_N b < 192)%N.
Proof.
  assert (continuation b = ((128 <=? Byte.to_N b) && (Byte.to_N b <? 192))%N)
    as -> by (destruct b; reflexivity).
  intros [H1%N.leb_le H2%N.ltb_lt]%andb_true_iff. split; assumption.
Qed.

Lemma lor_high k c y :
  (c mod 2 ^ k = 0)%N -> (y < 2 ^ k)%N -> N.lor y c = (c + y)%N.
Proof. apply lor_const. Qed.

(** The bytes of a two-byte sequence are those of the code point read. *)
Lemma encode_decode2 b0 b1 cp :
  bytesPerSequence (Byte.to_N b0) = 2 -> decode2 b0 b1 = Some cp ->
  encode_code_point cp = [b0; b1] /\ (0x80 <= cp < 0x800)%N.
Proof.
  intros Hseq Hdec.
  rewrite bytesPerSequence_cases in Hseq.
  pose proof (to_N_lt b0) as Hb0.
  assert (0xBF < Byte.to_N b0 <= 0xDF)%N as Hr0.
  { revert Hseq. ltb_cases; try discriminate. }
  unfold decode2 in Hdec.
  destruct (continuation b1) eqn:Hc1; [|discriminate].
  apply continuation_range in Hc1.
  set (n0 := Byte.to_N b0) in *. set (n1 := Byte.to_N b1) in *.
  arith_bits.
  rewrite (lor_add_disjoint 6) in Hdec
    by (change (2 ^ 6)%N with 64%N; lia).
  destruct (0x7F <? _)%N eqn:Hmin; [|discriminate].
  apply N.ltb_lt in Hmin. injection Hdec as <-.
  assert ((n0 mod 32 * 64 + n1 mod 64) / 64 = n0 mod 32)%N as Hq by lia.
  assert ((n0 mod 32 * 64 + n1 mod 64) mod 64 = n1 mod 64)%N as Hm by lia.
  split; [|lia].
  unfold encode_code_point.
  destruct (_ <? 0x80)%N eqn:E1; [apply N.ltb_lt in E1; lia|].
  destruct (_ <? 0x800)%N eqn:E2; [|apply N.ltb_ge in E2; lia].
  arith_bits. rewrite Hq, Hm.
  rewrite (lor_high 6 0xC0) by (try reflexivity; change (2 ^ 6)%N with 64%N; lia).
  rewrite (lor_high 7 0x80) by (try reflexivity; change (2 ^ 7)%N with 128%N; lia).
  replace (0xC0 + n0 mod 32)%N with n0 by lia.
  replace (0x80 + n1 mod 64)%N with n1 by lia.
  subst n0 n1. rewrite !byte_of_N_to_N. reflexivity.
Qed.

Lemma encode_decode3 b0 b1 b2 cp :
  bytesPerSequence (Byte.to_N b0) = 3 -> decode3 b0 b1 b2 = Some cp ->
  encode_code_point cp = [b0; b1; b2] /\ (0x800 <= cp < 0x10000)%N /\
  is_high cp = false /\ is_low cp = false.
Proof.
  intros Hseq Hdec.
  rewrite bytesPerSequence_cases in Hseq.
  pose proof (to_N_lt b0) as Hb0.
  assert (0xDF < Byte.to_N b0 <= 0xEF)%N as Hr0.
  { revert Hseq. ltb_cases; try discriminate. }
  unfold decode3 in Hdec.
  destruct (continuation b1) eqn:Hc1; [|discriminate].
  destruct (continuation b2) eqn:Hc2; [|discriminate].
  apply continuation_range in Hc1, Hc2. cbn [andb] in Hdec.
  set (n0 := Byte.to_N b0) in *. set (n1 := Byte.to_N b1) in *.
  set (n2 := Byte.to_N b2) in *.
  arith_bits.
  rewrite (lor_add_disjoint 12 (_ * 4096) (_ * 64)) in Hdec
    by (change (2 ^ 12)%N with 4096%N; lia).
  rewrite (lor_add_disjoint 6 (_ + _)) in Hdec
    by (change (2 ^ 6)%N with 64%N; lia).
  set (x := (n0 mod 16 * 4096 + n1 mod 64 * 64 + n2 mod 64)%N) in *.
  destruct (0x7FF <? x)%N eqn:Hmin; [|discriminate].
  destruct ((x <? 0xD800) || (0xDFFF <? x))%N eqn:Hsur; [|discriminate].
  apply N.ltb_lt in Hmin. cbn [andb] in Hdec. injection Hdec as <-.
  assert (x / 4096 = n0 mod 16)%N as Hq0 by (subst x; lia).
  assert ((x / 64) mod 64 = n1 mod 64)%N as Hq1 by (subst x; lia).
  assert (x mod 64 = n2 mod 64)%N as Hq2 by (subst x; lia).
  assert (x < 0x10000)%N as Hmax by (subst x; lia).
  assert (is_high x = false /\ is_low x = false) as [Hh Hl].
  { unfold is_high, is_low.
    apply orb_true_iff in Hsur as [Hs%N.ltb_lt|Hs%N.ltb_lt];
      split; apply andb_false_iff; rewrite !N.leb_gt; lia. }
  split; [|split; [lia|split; assumption]].
  clearbody x. unfold encode_code_point.
  destruct (x <? 0x80)%N eqn:E1; [apply N.ltb_lt in E1; lia|].
  destruct (x <? 0x800)%N eqn:E2; [apply N.ltb_lt in E2; lia|].
  destruct (x <? 0x10000)%N eqn:E3; [|apply N.ltb_ge in E3; lia].
  arith_bits. rewrite Hq0, Hq1, Hq2.
  rewrite (lor_high 5 0xE0) by (try reflexivity; change (2 ^ 5)%N with 32%N; lia).
  rewrite !(lor_high 7 0x80) by (try reflexivity; change (2 ^ 7)%N with 128%N; lia).
  replace (0xE0 + n0 mod 16)%N with n0 by lia.
  replace (0x80 + n1 mod 64)%N with n1 by lia.
  replace (0x80 + n2 mod 64)%N with n2 by lia.
  subst n0 n1 n2. rewrite !byte_of_N_to_N. reflexivity.
Qed.

Lemma encode_decode4 b0 b1 b2 b3 cp :
  bytesPerSequence (Byte.to_N b0) = 4 -> decode4 b0 b1 b2 b3 = Some cp ->
  encode_code_point cp = [b0; b1; b2; b3] /\ (0x10000 <= cp < 0x110000)%N.
Proof.
  intros Hseq Hdec.
  rewrite bytesPerSequence_cases in Hseq.
  pose proof (to_N_lt b0) as Hb0.
  assert (0xEF < Byte.to_N b0)%N as Hr0.
  { revert Hseq. ltb_cases; try discriminate. }
  unfold decode4 in Hdec.
  destruct (continuation b1) eqn:Hc1; [|discriminate].
  destruct (continuation b2) eqn:Hc2; [|discriminate].
  destruct (continuation b3) eqn:Hc3; [|discriminate].
  apply continuation_range in Hc1, Hc2, Hc3. cbn [andb] in Hdec.
  set (n0 := Byte.to_N b0) in *. set (n1 := Byte.to_N b1) in *.
  set (n2 := Byte.to_N b2) in *. set (n3 := Byte.to_N b3) in *.
  arith_bits.
  rewrite (lor_add_disjoint 18 (_ * 262144) (_ * 4096)) in Hdec
    by (change (2 ^ 18)%N with 262144%N; lia).
  rewrite (lor_add_disjoint 12 (_ + _) (_ * 64)) in Hdec
    by (change (2 ^ 12)%N with 4096%N; lia).
  rewrite (lor_add_disjoint 6 (_ + _)) in Hdec
    by (change (2 ^ 6)%N with 64%N; lia).
  set (x := (n0 mod 16 * 262144 + n1 mod 64 * 4096 + n2 mod 64 * 64
             + n3 mod 64)%N) in *.
  destruct (0xFFFF <? x)%N eqn:Hmin; [|discriminate].
  destruct (x <? 0x110000)%N eqn:Hmax; [|discriminate].
  apply N.ltb_lt in Hmin, Hmax. cbn [andb] in Hdec. injection Hdec as <-.
  assert (x / 262144 = n0 mod 16)%N as Hq0 by (subst x; lia).
  assert ((x / 4096) mod 64 = n1 mod 64)%N as Hq1 by (subst x; lia).
  assert ((x / 64) mod 64 = n2 mod 64)%N as Hq2 by (subst x; lia).
  assert (x mod 64 = n3 mod 64)%N as Hq3 by (subst x; lia).
  split; [|lia].
  clearbody x. unfold encode_code_point.
  destruct (x <? 0x80)%N eqn:E1; [apply N.ltb_lt in E1; lia|].
  destruct (x <? 0x800)%N eqn:E2; [apply N.ltb_lt in E2; lia|].
  destruct (x <? 0x10000)%N eqn:E3; [apply N.ltb_lt in E3; lia|].
  arith_bits. rewrite Hq0, Hq1, Hq2, Hq3.
  rewrite (lor_high 4 0xF0) by (try reflexivity; change (2 ^ 4)%N with 16%N; lia).
  rewrite !(lor_high 7 0x80) by (try reflexivity; change (2 ^ 7)%N with 128%N; lia).
  replace (0xF0 + n0 mod 16)%N with n0 by lia.
  replace (0x80 + n1 mod 64)%N with n1 by lia.
  replace (0x80 + n2 mod 64)%N with n2 by lia.
  replace (0x80 + n3 mod 64)%N with n3 by lia.
  subst n0 n1 n2 n3. rewrite !byte_of_N_to_N. reflexivity.
Qed.

(** The two code units of a code point above the basic plane pair up to
    it again. *)
Lemma code_units_supplementary cp :
  (0x10000 <= cp < 0x110000)%N ->
  exists hi lo,
    code_units cp = [hi; lo] /\ is_high hi = true /\ is_low lo = true /\
    pair_code_point hi lo = cp.
Proof.
  intros Hcp. unfold code_units.
  destruct (0xFFFF <? cp)%N eqn:E; [|apply N.ltb_ge in E; lia]. clear E.
  set (c := (cp - 0x10000)%N).
  assert (c < 1048576)%N as Hc by (subst c; lia).
  arith_bits.
  rewrite (lor_high 10 0xD800)
    by (try reflexivity; change (2 ^ 10)%N with 1024%N; lia).
  rewrite (N.lor_comm 0xDC00), (lor_high 10 0xDC00)
    by (try reflexivity; change (2 ^ 10)%N with 1024%N; lia).
  assert ((c / 1024) mod 1024 = c / 1024)%N as -> by lia.
  assert (is_high (0xD800 + c / 1024) = true) as Hh.
  { unfold is_high. apply andb_true_iff. rewrite !N.leb_le. lia. }
  assert (is_low (0xDC00 + c mod 1024) = true) as Hl.
  { unfold is_low. apply andb_true_iff. rewrite !N.leb_le. lia. }
  eexists _, _. split; [reflexivity|]. split; [exact Hh|]. split; [exact Hl|].
  rewrite pair_code_point_value by assumption. subst c. lia.
Qed.

Lemma utf8ToBytes_step c rest :
  utf8ToBytes (c :: rest) =
    if is_high c then
      match rest with
      | d :: rest' =>
          if is_low d
          then encode_code_point (pair_code_point c d) ++ utf8ToBytes rest'
          else replacement ++ utf8ToBytes rest
      | [] => replacement
      end
    else if is_low c then replacement ++ utf8ToBytes rest
    else encode_code_point c ++ utf8ToBytes rest.
Proof. reflexivity. Qed.

Lemma utf8Slice_step b0 tl :
  utf8Slice (b0 :: tl) =
    let bad := (0xFFFD)%N :: utf8Slice tl in
    match bytesPerSequence (Byte.to_N b0), tl with
    | 1, _ =>
        if (Byte.to_N b0 <? 0x80)%N
        then Byte.to_N b0 :: utf8Slice tl else bad
    | 2, b1 :: tl1 =>
        match decode2 b0 b1 with
        | Some cp => code_units cp ++ utf8Slice tl1
        | None => bad
        end
    | 3, b1 :: b2 :: tl2 =>
        match decode3 b0 b1 b2 with
        | Some cp => code_units cp ++ utf8Slice tl2
        | None => bad
        end
    | 4, b1 :: b2 :: b3 :: tl3 =>
        match decode4 b0 b1 b2 b3 with
        | Some cp => code_units cp ++ utf8Slice tl3
        | None => bad
        end
    | _, _ => bad
    end.
Proof. reflexivity. Qed.

Lemma utf8ToBytes_basic c rest :
  is_high c = false -> is_low c = false ->
  utf8ToBytes (c :: rest) = encode_code_point c ++ utf8ToBytes rest.
Proof. intros Hh Hl. rewrite utf8ToBytes_step, Hh, Hl. reflexivity. Qed.

Lemma small_not_surrogate c :
  (c < 0xD800)%N -> is_high c = false /\ is_low c = false.
Proof.
  intros Hc. unfold is_high, is_low.
  split; apply andb_false_iff; left; apply N.leb_gt; lia.
Qed.

(** Bytes that were read without a replacement are the UTF-8 form of the
    text read from them. *)
Lemma utf8ToBytes_utf8Slice_bounded n : forall data,
  length data <= n -> no_replacement (utf8Slice data) = true ->
  utf8ToBytes (utf8Slice data) = data.
Proof.
  unfold no_replacement.
  induction n as [|n IH]; intros data Hlen Hno.
  { destruct data; [reflexivity|simpl in Hlen; lia]. }
  destruct data as [|b0 tl]; [reflexivity|].
  rewrite utf8Slice_step in Hno |- *. cbv zeta in Hno |- *.
  cbn [length] in Hlen.
  destruct (bytesPerSequence (Byte.to_N b0)) as [|[|[|[|[|k]]]]] eqn:Hseq;
    try (cbn in Hno; discriminate Hno).
  - destruct (Byte.to_N b0 <? 0x80)%N eqn:E; [|cbn in Hno; discriminate Hno].
    apply N.ltb_lt in E. cbn [forallb] in Hno.
    apply andb_true_iff in Hno as [_ Hno].
    destruct (small_not_surrogate (Byte.to_N b0)) as [Hh Hl]; [lia|].
    rewrite utf8ToBytes_basic by assumption.
    unfold encode_code_point.
    destruct (Byte.to_N b0 <? 0x80)%N eqn:E1; [|apply N.ltb_ge in E1; lia].
    rewrite byte_of_N_to_N. cbn [app]. f_equal. apply IH; [lia|assumption].
  - destruct tl as [|b1 tl1]; [cbn in Hno; discriminate Hno|].
    destruct (decode2 b0 b1) as [cp|] eqn:Hdec; [|cbn in Hno; discriminate Hno].
    destruct (encode_decode2 _ _ _ Hseq Hdec) as [Henc Hcp].
    unfold code_units in Hno |- *.
    destruct (0xFFFF <? cp)%N eqn:E; [apply N.ltb_lt in E; lia|].
    cbn [app forallb] in Hno |- *. apply andb_true_iff in Hno as [_ Hno].
    destruct (small_not_surrogate cp) as [Hh Hl]; [lia|].
    rewrite utf8ToBytes_basic, Henc by assumption. cbn [app]. do 2 f_equal.
    cbn [length] in Hlen. apply IH; [lia|assumption].
  - destruct tl as [|b1 [|b2 tl2]]; try (cbn in Hno; discriminate Hno).
    destruct (decode3 b0 b1 b2) as [cp|] eqn:Hdec;
      [|cbn in Hno; discriminate Hno].
    destruct (encode_decode3 _ _ _ _ Hseq Hdec) as (Henc & Hcp & Hh & Hl).
    unfold code_units in Hno |- *.
    destruct (0xFFFF <? cp)%N eqn:E; [apply N.ltb_lt in E; lia|].
    cbn [app forallb] in Hno |- *. apply andb_true_iff in Hno as [_ Hno].
    rewrite utf8ToBytes_basic, Henc by assumption. cbn [app]. do 3 f_equal.
    cbn [length] in Hlen. apply IH; [lia|assumption].
  - destruct tl as [|b1 [|b2 [|b3 tl3]]]; try (cbn in Hno; discriminate Hno).
    destruct (decode4 b0 b1 b2 b3) as [cp|] eqn:Hdec;
      [|cbn in Hno; discriminate Hno].
    destruct (encode_decode4 _ _ _ _ _ Hseq Hdec) as [Henc Hcp].
    destruct (code_units_supplementary cp Hcp) as (hi & lo & Hunits & Hh & Hl & Hpair).
    rewrite Hunits in Hno |- *.
    cbn [app forallb] in Hno |- *.
    apply andb_true_iff in Hno as [_ Hno].
    apply andb_true_iff in Hno as [_ Hno].
    rewrite utf8ToBytes_step, Hh, Hl, Hpair, Henc. cbn [app]. do 4 f_equal.
    cbn [length] in Hlen. apply IH; [lia|assumption].
Qed.

Lemma utf8ToBytes_utf8Slice data :
  no_replacement (utf8Slice data) = true ->
  utf8ToBytes (utf8Slice data) = data.
Proof. apply (utf8ToBytes_utf8Slice_bounded (length data)). lia. Qed.

End Utf8Inverse.

(** ** Hexadecimal text *)

Module HexFacts.
Import Hex BitFacts.

(** The helper's own conversion agrees with the buffer library's. *)
Lemma convertByteArrayToHex_toString_hex bytes :
  convertByteArrayToHex bytes = toString_hex bytes.
Proof.
  unfold convertByteArrayToHex, toString_hex.
  induction bytes as [|b bytes IH]; [reflexivity|].
  cbn [flat_map]. rewrite IH. f_equal.
  destruct b; vm_compute; reflexivity.
Qed.

Lemma from_hex_digits b rest :
  from_hex (hex_digit (Byte.to_N b / 16) :: hex_digit (Byte.to_N b mod 16) :: rest)
  = b :: from_hex rest.
Proof.
  cbn [from_hex].
  assert (parseInt16 [hex_digit (Byte.to_N b / 16);
                      hex_digit (Byte.to_N b mod 16)]
          = Some (Z.of_N (Byte.to_N b))) as ->
    by (destruct b; vm_compute; reflexivity).
  f_equal. rewrite <- (byte_of_N_to_N b) at 2. f_equal.
  pose proof (to_N_lt b) as Hb.
  rewrite Z.mod_small by lia. apply N2Z.id.
Qed.

(** Reading back the hexadecimal form of a buffer gives the buffer. *)
Lemma from_hex_toString_hex buf : from_hex (toString_hex buf) = buf.
Proof.
  induction buf as [|b buf IH]; [reflexivity|].
  unfold toString_hex in *. cbn [flat_map app].
  rewrite from_hex_digits, IH. reflexivity.
Qed.

Lemma length_toString_hex buf : length (toString_hex buf) = 2 * length buf.
Proof.
  induction buf as [|b buf IH]; [reflexivity|].
  unfold toString_hex in *. cbn [flat_map app length]. rewrite IH. lia.
Qed.

(** No colon occurs in hexadecimal text. *)
Lemma toString_hex_no_colon buf : Forall (fun c => c <> 58%N) (toString_hex buf).
Proof.
  induction buf as [|b buf IH]; [constructor|].
  unfold toString_hex in *. cbn [flat_map app].
  repeat constructor; try assumption; destruct b; vm_compute; discriminate.
Qed.

End HexFacts.

(** ** The crypto helper *)

Module CryptoFacts.
Import Hex Utf8 Crypto BitFacts HexFacts Utf8Facts.

Ltac split_ands := repeat match goal with |- _ /\ _ => split end.

(** *** Splitting at the colon *)

Lemma split_no_sep sep s :
  Forall (fun c => c <> sep) s -> split sep s = [s].
Proof.
  induction 1 as [|c s Hc _ IH]; [reflexivity|].
  cbn [split]. apply N.eqb_neq in Hc. rewrite Hc, IH. reflexivity.
Qed.

Lemma split_app_sep sep a b :
  Forall (fun c => c <> sep) a -> split sep (a ++ sep :: b) = a :: split sep b.
Proof.
  induction 1 as [|c a Hc _ IH]; cbn [split app].
  - rewrite N.eqb_refl. reflexivity.
  - apply N.eqb_neq in Hc. rewrite Hc, IH. reflexivity.
Qed.

(** *** Exclusive or of buffers *)

Lemma lxor_byte_bound a b : (N.lxor (Byte.to_N a) (Byte.to_N b) < 256)%N.
Proof.
  pose proof (to_N_lt a) as Ha. pose proof (to_N_lt b) as Hb.
  destruct (N.eq_dec (N.lxor (Byte.to_N a) (Byte.to_N b)) 0%N) as [->|Hne]; [lia|].
  apply (N.log2_lt_pow2 _ 8); [lia|].
  eapply N.le_lt_trans; [apply N.log2_lxor|].
  apply N.max_lub_lt.
  - destruct (N.eq_dec (Byte.to_N a) 0%N) as [->|?]; [reflexivity|].
    apply N.log2_lt_pow2; lia.
  - destruct (N.eq_dec (Byte.to_N b) 0%N) as [->|?]; [reflexivity|].
    apply N.log2_lt_pow2; lia.
Qed.

Lemma bxor_involutive a b : bxor (bxor a b) b = a.
Proof.
  unfold bxor. rewrite to_N_byte_of_N by apply lxor_byte_bound.
  rewrite N.lxor_assoc, N.lxor_nilpotent, N.lxor_0_r. apply byte_of_N_to_N.
Qed.

Lemma bxor_comm a b : bxor a b = bxor b a.
Proof. unfold bxor. rewrite N.lxor_comm. reflexivity. Qed.

Lemma length_xor a b : length a = length b -> length (xor a b) = length a.
Proof.
  revert b. induction a as [|x a IH]; intros [|y b] Hlen; simpl in *; try lia.
  rewrite IH; lia.
Qed.

Lemma xor_involutive a b : length a = length b -> xor (xor a b) b = a.
Proof.
  revert b. induction a as [|x a IH]; intros [|y b] Hlen; simpl in *; try lia.
  - reflexivity.
  - rewrite bxor_involutive. unfold xor in IH. rewrite IH; [reflexivity|lia].
Qed.

Lemma xor_comm a b : xor a b = xor b a.
Proof.
  revert b. induction a as [|x a IH]; intros [|y b]; simpl; try reflexivity.
  rewrite bxor_comm. unfold xor in IH. rewrite IH. reflexivity.
Qed.

(** *** Blocks *)

Lemma blocks_nil : blocks [] = [].
Proof. reflexivity. Qed.

Lemma blocks_app b data :
  length b = 16 -> blocks (b ++ data) = b :: blocks data.
Proof.
  intros Hb. unfold blocks. rewrite length_app, Hb.
  replace ((16 + length data) / 16) with (S (length data / 16)).
  2:{ change (16 + length data) with (1 * 16 + length data) at 1.
      rewrite Nat.add_comm, Nat.div_add by lia. lia. }
  cbn [replicate reshape].
  rewrite take_app_length' by (symmetry; assumption).
  rewrite drop_app_length' by (symmetry; assumption). reflexivity.
Qed.

Lemma blocks_concat bs :
  Forall (fun b => length b = 16) bs -> blocks (concat bs) = bs.
Proof.
  induction 1 as [|b bs Hb _ IH]; [reflexivity|].
  cbn [concat]. rewrite blocks_app, IH by assumption. reflexivity.
Qed.

Lemma length_concat_blocks (bs : list (list byte)) :
  Forall (fun b => length b = 16) bs -> length (concat bs) = 16 * length bs.
Proof.
  induction 1 as [|b bs Hb _ IH]; [reflexivity|].
  cbn [concat length]. rewrite length_app, IH, Hb. lia.
Qed.

Lemma blocks_short data : length data < 16 -> blocks data = [].
Proof.
  intros Hlen. unfold blocks. rewrite Nat.div_small by assumption. reflexivity.
Qed.

(** *** Padding *)

Lemma pad_short data :
  length data < 16 ->
  pad data = data ++ replicate (16 - length data)
                               (byte_of_N (N.of_nat (16 - length data))).
Proof. intros Hlen. unfold pad. rewrite Nat.mod_small by assumption. reflexivity. Qed.

Lemma pad_app b data : length b = 16 -> pad (b ++ data) = b ++ pad data.
Proof.
  intros Hb. unfold pad. rewrite length_app, Hb.
  replace ((16 + length data) mod 16) with (length data mod 16).
  2:{ change (16 + length data) with (1 * 16 + length data).
      rewrite Nat.add_comm, Nat.Div0.mod_add. reflexivity. }
  rewrite <- app_assoc. reflexivity.
Qed.

Lemma length_pad_short data :
  length data < 16 -> length (pad data) = 16.
Proof.
  intros Hlen. rewrite pad_short by assumption.
  rewrite length_app, length_replicate. lia.
Qed.

(** The padded data, cut into blocks: the whole blocks of the data, then the
    block that holds the rest of the data and the padding. *)
Lemma blocks_pad_bounded n : forall data,
  length data <= n ->
  exists front,
    blocks (pad data) = front ++ [pad (drop (length (concat front)) data)] /\
    Forall (fun b => length b = 16) front /\
    concat front = take (length (concat front)) data /\
    length data - length (concat front) < 16 /\
    length (concat front) <= length data.
Proof.
  induction n as [|n IH]; intros data Hlen.
  - destruct data; [|simpl in Hlen; lia].
    exists []. split_ands; [reflexivity|constructor|reflexivity|simpl; lia..].
  - destruct (Nat.lt_ge_cases (length data) 16) as [Hshort|Hlong].
    + exists []. cbn [concat length app drop take].
      split_ands; [|constructor|reflexivity|lia..].
      rewrite <- (app_nil_r (pad data)) at 1.
      rewrite blocks_app by (apply length_pad_short; assumption). reflexivity.
    + assert (length (take 16 data) = 16) as Hb by (rewrite length_take; lia).
      assert (pad data = take 16 data ++ pad (drop 16 data)) as Hpad.
      { rewrite <- pad_app, take_drop by assumption. reflexivity. }
      destruct (IH (drop 16 data)) as (front & Hbl & Hall & Hcat & Hrest & Hle).
      { rewrite length_drop. lia. }
      rewrite length_drop in Hrest, Hle.
      exists (take 16 data :: front). cbn [concat app].
      rewrite length_app, Hb.
      split_ands.
      * rewrite Hpad, blocks_app, Hbl by assumption.
        rewrite drop_drop. reflexivity.
      * constructor; assumption.
      * rewrite Hcat at 1. rewrite <- (take_drop 16 data) at 3.
        rewrite take_app_add' by (symmetry; assumption). reflexivity.
      * lia.
      * lia.
Qed.

Lemma unpad_pad_short rest :
  length rest < 16 -> unpad (pad rest) = Ok rest.
Proof.
  intros Hlen. rewrite pad_short by assumption.
  set (n := 16 - length rest).
  assert (1 <= n <= 16) as Hn by (unfold n; lia).
  assert (N.to_nat (Byte.to_N (byte_of_N (N.of_nat n))) = n) as Hp.
  { rewrite to_N_byte_of_N by lia. lia. }
  unfold unpad.
  assert (forall i, 16 - n <= i < 16 ->
            nth i (rest ++ replicate n (byte_of_N (N.of_nat n))) x00
            = byte_of_N (N.of_nat n)) as Hnth.
  { intros i Hi. rewrite app_nth2 by (unfold n in *; lia).
    rewrite nth_lookup, lookup_replicate_2 by (unfold n in *; lia). reflexivity. }
  rewrite Hnth by lia. rewrite Hp.
  destruct (n <? 1) eqn:E1; [apply Nat.ltb_lt in E1; lia|].
  destruct (16 <? n) eqn:E2; [apply Nat.ltb_lt in E2; lia|].
  cbn [orb].
  rewrite (proj2 (forallb_forall _ _)).
  - rewrite take_app_length' by (unfold n; lia). reflexivity.
  - intros i Hi%in_seq. rewrite Hnth by lia. rewrite Hp. apply Nat.eqb_refl.
Qed.

(** *** Cipher block chaining *)

Section WithCipher.
Context `{BlockCipher}.

Lemma cbc_encrypt_lengths key bs : forall prev,
  length key = 32 -> length prev = 16 ->
  Forall (fun b => length b = 16) bs ->
  Forall (fun c => length c = 16) (cbc_encrypt key prev bs).
Proof.
  induction bs as [|b bs IH]; intros prev Hk Hp Hbs; [constructor|].
  inversion Hbs as [|? ? Hb Hbs']; subst. cbn [cbc_encrypt].
  assert (length (encryptBlock key (xor b prev)) = 16) as Hc.
  { apply encryptBlock_length; [assumption|]. rewrite length_xor; congruence. }
  constructor; [assumption|]. apply IH; assumption.
Qed.

Lemma length_cbc_encrypt key bs : forall prev,
  length (cbc_encrypt key prev bs) = length bs.
Proof. induction bs as [|b bs IH]; intros prev; simpl; [|rewrite IH]; reflexivity. Qed.

(** Decryption undoes encryption, block by block. *)
Lemma cbc_decrypt_encrypt key bs : forall prev,
  length key = 32 -> length prev = 16 ->
  Forall (fun b => length b = 16) bs ->
  cbc_decrypt key prev (cbc_encrypt key prev bs) = bs.
Proof.
  induction bs as [|b bs IH]; intros prev Hk Hp Hbs; [reflexivity|].
  inversion Hbs as [|? ? Hb Hbs']; subst. cbn [cbc_encrypt cbc_decrypt].
  assert (length (xor b prev) = 16) as Hx by (rewrite length_xor; congruence).
  rewrite decrypt_encrypt_block by assumption.
  rewrite xor_involutive by congruence.
  rewrite IH; [reflexivity|assumption| |assumption].
  apply encryptBlock_length; assumption.
Qed.

Lemma blocks_pad_lengths data :
  Forall (fun b => length b = 16) (blocks (pad data)).
Proof.
  destruct (blocks_pad_bounded (length data) data) as (front & -> & Hall & _ & Hrest & Hle);
    [lia|].
  apply Forall_app. split; [assumption|]. constructor; [|constructor].
  apply length_pad_short. rewrite length_drop. lia.
Qed.

(** What a cipher object produced, a decipher object with the same key and
    vector turns back into the data. *)
Lemma cbc_decrypt_snoc key cs c : forall prev,
  cbc_decrypt key prev (cs ++ [c])
  = cbc_decrypt key prev cs ++ [xor (decryptBlock key c) (default prev (last cs))].
Proof.
  induction cs as [|c0 cs IH]; intros prev; [reflexivity|].
  cbn [app cbc_decrypt]. rewrite IH. do 3 f_equal.
  rewrite last_cons. destruct (last cs); reflexivity.
Qed.

Lemma final_block_whole chunk : length chunk = 16 -> final_block chunk = chunk.
Proof.
  intros Hlen. unfold final_block. rewrite Hlen.
  change (4 * (16 / 4)) with 16. rewrite take_ge by lia. apply app_nil_r.
Qed.

(** On whole blocks, what a decipher object returns is read off the
    decrypted chain: its last block without the padding, after the others. *)
Lemma decipher_update_final_snoc c cs last_c :
  Forall (fun b => length b = 16) (cs ++ [last_c]) ->
  decipher_update_final c (concat (cs ++ [last_c]))
  = (let* tail :=
       unpad (xor (decryptBlock (cipher_key c) last_c)
                  (default (cipher_iv c) (last cs))) in
     Ok (concat (cbc_decrypt (cipher_key c) (cipher_iv c) cs) ++ tail)).
Proof.
  intros Hall. apply Forall_app in Hall as [Hcs Hlast].
  inversion Hlast as [|? ? Hlen _]; subst.
  unfold decipher_update_final.
  rewrite concat_app, length_app, (length_concat_blocks cs Hcs).
  cbn [concat]. rewrite app_nil_r, Hlen.
  replace (16 * length cs + 16) with (S (length cs * 16 + 15)) by lia.
  rewrite Nat.div_add_l by discriminate.
  change (15 / 16) with 0. rewrite Nat.add_0_r.
  assert (length (concat cs) = 16 * length cs) as Hfront
    by (apply length_concat_blocks; assumption).
  rewrite <- Hfront, take_app_length, drop_app_length.
  rewrite blocks_concat by assumption.
  rewrite final_block_whole by assumption. reflexivity.
Qed.

Lemma decipher_update_final_chain c cs :
  Forall (fun b => length b = 16) cs ->
  decipher_update_final c (concat cs)
  = match rev (cbc_decrypt (cipher_key c) (cipher_iv c) cs) with
    | [] => Throw NoFinalBlock
    | last_b :: front =>
        let* tail := unpad last_b in Ok (concat (rev front) ++ tail)
    end.
Proof.
  intros Hcs. destruct (rev cs) as [|last_c front] eqn:E.
  { apply (f_equal (@rev _)) in E. rewrite rev_involutive in E. subst cs.
    reflexivity. }
  apply (f_equal (@rev _)) in E. rewrite rev_involutive in E. cbn [rev] in E.
  subst cs. rewrite decipher_update_final_snoc by assumption.
  rewrite cbc_decrypt_snoc, rev_app_distr. cbn [rev app].
  rewrite rev_involutive. reflexivity.
Qed.

Lemma decipher_cipher c data :
  length (cipher_key c) = 32 -> length (cipher_iv c) = 16 ->
  decipher_update_final c (cipher_update_final c data) = Ok data.
Proof.
  intros Hk Hiv. unfold cipher_update_final.
  pose proof (blocks_pad_lengths data) as Hall.
  pose proof (cbc_encrypt_lengths _ _ _ Hk Hiv Hall) as Hcs.
  rewrite decipher_update_final_chain by assumption.
  destruct (blocks_pad_bounded (length data) data)
    as (front & Hbl & Hfront & Hcat & Hrest & Hle); [lia|].
  rewrite cbc_decrypt_encrypt by assumption.
  rewrite Hbl, rev_app_distr. cbn [rev app].
  rewrite unpad_pad_short by (rewrite length_drop; lia).
  unfold Crypto.bind. rewrite rev_involutive. f_equal.
  etransitivity; [|apply (take_drop (length (concat front)))].
  f_equal. exact Hcat.
Qed.

Lemma length_getRandomValues n rnd : length (fst (getRandomValues n rnd)) = n.
Proof. unfold getRandomValues. cbn [fst]. rewrite length_map, length_seq. reflexivity. Qed.

(** The text [encrypt] returns, read by [decrypt]: the vector and the
    encrypted bytes come back out of their hexadecimal forms. *)
Lemma decrypt_bytes_hex key iv encrypted :
  decrypt_bytes key (convertByteArrayToHex iv ++ js ":" ++ toString_hex encrypted)
  = (let* decipher := createDecipheriv (utf8ToBytes key) iv in
     decipher_update_final decipher encrypted).
Proof.
  unfold decrypt_bytes. rewrite convertByteArrayToHex_toString_hex.
  change (js ":" ++ toString_hex encrypted) with (58%N :: toString_hex encrypted).
  rewrite split_app_sep by apply toString_hex_no_colon.
  rewrite split_no_sep by apply toString_hex_no_colon.
  cbn [hd tl join]. rewrite !from_hex_toString_hex. reflexivity.
Qed.

Lemma createCipheriv_ok key iv :
  length key = 32 -> length iv = 16 ->
  createCipheriv key iv = Ok {| cipher_key := key; cipher_iv := iv |}.
Proof.
  intros Hk Hiv. unfold createCipheriv. rewrite Hk, Hiv. reflexivity.
Qed.

Lemma createDecipheriv_ok key iv :
  length key = 32 -> length iv = 16 ->
  createDecipheriv key iv = Ok {| cipher_key := key; cipher_iv := iv |}.
Proof.
  intros Hk Hiv. unfold createDecipheriv. rewrite Hk, Hiv. reflexivity.
Qed.

Lemma createCipheriv_bad_key key iv :
  length key <> 32 -> createCipheriv key iv = Throw (InvalidKeyLength (length key)).
Proof.
  intros Hk. unfold createCipheriv. apply Nat.eqb_neq in Hk. rewrite Hk. reflexivity.
Qed.

End WithCipher.

End CryptoFacts.

(** ** AES: decryption inverts encryption *)

Module AESFacts.
Import AES BitFacts CryptoFacts Utf8Facts.

(** *** Exclusive or of bytes *)

Lemma to_N_bxor a b : Byte.to_N (bxor a b) = N.lxor (Byte.to_N a) (Byte.to_N b).
Proof. unfold bxor. apply to_N_byte_of_N, lxor_byte_bound. Qed.

Lemma to_N_inj a b : Byte.to_N a = Byte.to_N b -> a = b.
Proof.
  intros Heq. rewrite <- (byte_of_N_to_N a), <- (byte_of_N_to_N b), Heq.
  reflexivity.
Qed.

Lemma bxor_assoc a b c : bxor a (bxor b c) = bxor (bxor a b) c.
Proof. apply to_N_inj. rewrite !to_N_bxor. apply eq_sym, N.lxor_assoc. Qed.

Lemma bxor_0_l a : bxor x00 a = a.
Proof. apply to_N_inj. rewrite to_N_bxor. apply N.lxor_0_l. Qed.

Lemma bxor_0_r a : bxor a x00 = a.
Proof. apply to_N_inj. rewrite to_N_bxor. apply N.lxor_0_r. Qed.

(** Equations between exclusive ors of bytes, bit by bit. *)
Ltac bxor_bits :=
  apply to_N_inj; rewrite ?to_N_bxor;
  change (Byte.to_N x00) with 0%N;
  apply N.bits_inj; intros ?n; rewrite ?N.lxor_spec, ?N.bits_0; btauto.

(** A property of all pairs of bytes, checked on each pair. *)
Lemma for_all_pairs (P : byte -> byte -> bool) :
  all_from 256 0 (fun m => all_from 256 0
                    (fun n => P (byte_of_N m) (byte_of_N n))) = true ->
  forall a b, P a b = true.
Proof.
  intros Hall a b.
  pose proof (all_from_spec _ _ _ Hall (Byte.to_N a)) as Ha.
  cbv beta in Ha. specialize (Ha ltac:(pose proof (to_N_lt a); lia)).
  pose proof (all_from_spec _ _ _ Ha (Byte.to_N b)) as Hb.
  cbv beta in Hb. specialize (Hb ltac:(pose proof (to_N_lt b); lia)).
  rewrite !byte_of_N_to_N in Hb. exact Hb.
Qed.

(** *** Multiplication distributes *)

Lemma xtime_add a b : xtime (bxor a b) = bxor (xtime a) (xtime b).
Proof.
  apply Byte.byte_dec_bl.
  apply (for_all_pairs
           (fun a b => Byte.eqb (xtime (bxor a b)) (bxor (xtime a) (xtime b)))).
  vm_compute. reflexivity.
Qed.

Lemma mul2_add a b : mul2 (bxor a b) = bxor (mul2 a) (mul2 b).
Proof. apply xtime_add. Qed.

Lemma mul4_add a b : mul4 (bxor a b) = bxor (mul4 a) (mul4 b).
Proof. unfold mul4. rewrite !xtime_add. reflexivity. Qed.

Lemma mul8_add a b : mul8 (bxor a b) = bxor (mul8 a) (mul8 b).
Proof. unfold mul8. rewrite mul4_add, xtime_add. reflexivity. Qed.

Lemma mul3_add a b : mul3 (bxor a b) = bxor (mul3 a) (mul3 b).
Proof. unfold mul3. rewrite xtime_add. bxor_bits. Qed.

Lemma mul9_add a b : mul9 (bxor a b) = bxor (mul9 a) (mul9 b).
Proof. unfold mul9. rewrite mul8_add. bxor_bits. Qed.

Lemma mul11_add a b : mul11 (bxor a b) = bxor (mul11 a) (mul11 b).
Proof. unfold mul11. rewrite mul8_add, mul2_add. bxor_bits. Qed.

Lemma mul13_add a b : mul13 (bxor a b) = bxor (mul13 a) (mul13 b).
Proof. unfold mul13. rewrite mul8_add, mul4_add. bxor_bits. Qed.

Lemma mul14_add a b : mul14 (bxor a b) = bxor (mul14 a) (mul14 b).
Proof. unfold mul14. rewrite mul8_add, mul4_add, mul2_add. bxor_bits. Qed.

(** *** The column step and its inverse *)

(** The entry of the product of two matrices, applied to a byte. *)
Definition entry (outer inner : list (list nat)) (i j : nat) (x : byte) : byte :=
  bxor (bxor (bxor
    (times (coefficient outer i 0) (times (coefficient inner 0 j) x))
    (times (coefficient outer i 1) (times (coefficient inner 1 j) x)))
    (times (coefficient outer i 2) (times (coefficient inner 2 j) x)))
    (times (coefficient outer i 3) (times (coefficient inner 3 j) x)).

Definition product_is_identity (outer inner : list (list nat)) : bool :=
  forallb (fun i => forallb (fun j => forallb (fun x =>
    Byte.eqb (entry outer inner i j x) (if (i =? j)%nat then x else x00))
    bytes) (seq 0 4)) (seq 0 4).

Lemma In_bytes b : In b bytes.
Proof.
  unfold bytes. apply in_map_iff. exists (N.to_nat (Byte.to_N b)). split.
  - rewrite N2Nat.id. apply byte_of_N_to_N.
  - apply in_seq. pose proof (to_N_lt b). lia.
Qed.

Lemma entry_identity outer inner i j x :
  product_is_identity outer inner = true -> i < 4 -> j < 4 ->
  entry outer inner i j x = if (i =? j)%nat then x else x00.
Proof.
  intros Hall Hi Hj. unfold product_is_identity in Hall.
  rewrite forallb_forall in Hall. specialize (Hall i ltac:(apply in_seq; lia)).
  rewrite forallb_forall in Hall. specialize (Hall j ltac:(apply in_seq; lia)).
  rewrite forallb_forall in Hall. specialize (Hall x (In_bytes x)).
  apply Byte.byte_dec_bl. exact Hall.
Qed.

Lemma inv_mix_times_mix : product_is_identity inv_mix_matrix mix_matrix = true.
Proof. vm_compute. reflexivity. Qed.

Lemma mix_times_inv_mix : product_is_identity mix_matrix inv_mix_matrix = true.
Proof. vm_compute. reflexivity. Qed.

(** A sum of four rows of four terms, summed by columns. *)
Lemma sum_by_columns t00 t01 t02 t03 t10 t11 t12 t13 t20 t21 t22 t23
    t30 t31 t32 t33 :
  bxor (bxor (bxor (bxor (bxor (bxor t00 t01) t02) t03)
                   (bxor (bxor (bxor t10 t11) t12) t13))
             (bxor (bxor (bxor t20 t21) t22) t23))
       (bxor (bxor (bxor t30 t31) t32) t33)
  = bxor (bxor (bxor (bxor (bxor (bxor t00 t10) t20) t30)
                     (bxor (bxor (bxor t01 t11) t21) t31))
               (bxor (bxor (bxor t02 t12) t22) t32))
         (bxor (bxor (bxor t03 t13) t23) t33).
Proof. bxor_bits. Qed.

Lemma times_add k a b : times k (bxor a b) = bxor (times k a) (times k b).
Proof.
  destruct k as [|[|[|[|[|[|[|[|[|[|[|[|[|[|[|k]]]]]]]]]]]]]]];
    cbn [times];
    lazymatch goal with
    | |- x00 = _ => reflexivity
    | |- bxor a b = bxor a b => reflexivity
    | |- mul2 _ = _ => apply mul2_add
    | |- mul3 _ = _ => apply mul3_add
    | |- mul9 _ = _ => apply mul9_add
    | |- mul11 _ = _ => apply mul11_add
    | |- mul13 _ = _ => apply mul13_add
    | |- mul14 _ = _ => apply mul14_add
    end.
Qed.

(** A column times a matrix, then times another whose product with the
    first is the identity, is the column. *)
Lemma times_column_inverse outer inner a b c d rest :
  product_is_identity outer inner = true ->
  columns (times_column outer) (times_column inner a b c d ++ rest)
  = a :: b :: c :: d :: columns (times_column outer) rest.
Proof.
  intros Hproduct. unfold times_column at 2. cbn [app columns].
  unfold times_column at 1. cbn [app].
  assert (forall i, i < 4 ->
            row outer i (row inner 0 a b c d) (row inner 1 a b c d)
                        (row inner 2 a b c d) (row inner 3 a b c d)
            = nth i [a; b; c; d] x00) as Hrow.
  { intros i Hi. unfold row. rewrite !times_add, sum_by_columns.
    fold (entry outer inner i 0 a). fold (entry outer inner i 1 b).
    fold (entry outer inner i 2 c). fold (entry outer inner i 3 d).
    rewrite !(entry_identity outer inner) by (assumption || lia).
    destruct i as [|[|[|[|i]]]]; [| | | |lia]; cbn [Nat.eqb nth];
      rewrite ?bxor_0_l, ?bxor_0_r; reflexivity. }
  rewrite !Hrow by lia. reflexivity.
Qed.

Lemma inv_mix_mix_columns st :
  length st = 16 -> inv_mix_columns (mix_columns st) = st.
Proof.
  intros Hlen. do 17 (destruct st as [|? st]; try discriminate).
  unfold mix_columns, inv_mix_columns, mix_column, inv_mix_column.
  cbn [columns].
  rewrite !(times_column_inverse _ _ _ _ _ _ _ inv_mix_times_mix).
  reflexivity.
Qed.

Lemma mix_inv_mix_columns st :
  length st = 16 -> mix_columns (inv_mix_columns st) = st.
Proof.
  intros Hlen. do 17 (destruct st as [|? st]; try discriminate).
  unfold mix_columns, inv_mix_columns, mix_column, inv_mix_column.
  cbn [columns].
  rewrite !(times_column_inverse _ _ _ _ _ _ _ mix_times_inv_mix).
  reflexivity.
Qed.

Lemma length_columns m st :
  length st = 16 -> length (columns (times_column m) st) = 16.
Proof.
  intros Hlen. do 17 (destruct st as [|? st]; try discriminate). reflexivity.
Qed.

(** *** The other steps *)

Lemma inv_sbox_sbox b : inv_sbox (sbox b) = b.
Proof. destruct b; reflexivity. Qed.

Lemma sbox_inv_sbox b : sbox (inv_sbox b) = b.
Proof. destruct b; reflexivity. Qed.

Lemma inv_sub_sub_bytes st : inv_sub_bytes (sub_bytes st) = st.
Proof.
  unfold inv_sub_bytes, sub_bytes. induction st as [|b st IH]; [reflexivity|].
  cbn [map]. rewrite inv_sbox_sbox, IH. reflexivity.
Qed.

Lemma sub_inv_sub_bytes st : sub_bytes (inv_sub_bytes st) = st.
Proof.
  unfold inv_sub_bytes, sub_bytes. induction st as [|b st IH]; [reflexivity|].
  cbn [map]. rewrite sbox_inv_sbox, IH. reflexivity.
Qed.

Lemma inv_shift_shift_rows st :
  length st = 16 -> inv_shift_rows (shift_rows st) = st.
Proof.
  intros Hlen. do 17 (destruct st as [|? st]; try discriminate). reflexivity.
Qed.

Lemma shift_inv_shift_rows st :
  length st = 16 -> shift_rows (inv_shift_rows st) = st.
Proof.
  intros Hlen. do 17 (destruct st as [|? st]; try discriminate). reflexivity.
Qed.

(** Every step keeps a state of sixteen bytes. *)
Lemma length_sub_bytes st : length (sub_bytes st) = length st.
Proof. apply length_map. Qed.

Lemma length_inv_sub_bytes st : length (inv_sub_bytes st) = length st.
Proof. apply length_map. Qed.

Lemma length_shift_rows st : length (shift_rows st) = 16.
Proof. reflexivity. Qed.

Lemma length_inv_shift_rows st : length (inv_shift_rows st) = 16.
Proof. reflexivity. Qed.

Lemma length_mix_columns st : length st = 16 -> length (mix_columns st) = 16.
Proof. apply length_columns. Qed.

Lemma length_inv_mix_columns st :
  length st = 16 -> length (inv_mix_columns st) = 16.
Proof. apply length_columns. Qed.

(** *** The round keys *)

Lemma length_expand n : forall w, length (expand n w) = n + length w.
Proof.
  induction n as [|n IH]; intros w; [reflexivity|].
  cbn [expand]. rewrite IH, length_app. cbn [length]. lia.
Qed.

Lemma length_word_bytes (ws : list word) :
  length (flat_map word_bytes ws) = 4 * length ws.
Proof.
  induction ws as [|[[[a b] c] d] ws IH]; [reflexivity|].
  cbn [flat_map word_bytes app length]. rewrite IH. lia.
Qed.

Lemma round_keys_lengths key :
  Forall (fun rk => length rk = 16) (round_keys key).
Proof.
  unfold round_keys. apply List.Forall_forall. intros rk Hin.
  apply in_map_iff in Hin as (r & <- & Hr%in_seq).
  rewrite length_word_bytes, length_take, length_drop, length_expand.
  unfold key_words. rewrite length_map, length_seq. lia.
Qed.

(** *** The rounds *)

Lemma inv_rounds_rounds rks :
  Forall (fun rk => length rk = 16) rks ->
  forall st, length st = 16 ->
    length (rounds rks st) = 16 /\ inv_rounds rks (rounds rks st) = st.
Proof.
  induction 1 as [|rk rks Hrk Hrks IH]; intros st Hst; [split; trivial|].
  destruct rks as [|rk' rks'].
  - cbn [rounds inv_rounds].
    assert (length (shift_rows (sub_bytes st)) = length rk) as Hlen
      by (rewrite length_shift_rows; congruence).
    split; [rewrite length_xor; [apply length_shift_rows|assumption]|].
    rewrite xor_involutive by assumption.
    rewrite inv_shift_shift_rows by (rewrite length_sub_bytes; assumption).
    apply inv_sub_sub_bytes.
  - set (next := xor (mix_columns (shift_rows (sub_bytes st))) rk).
    assert (length (mix_columns (shift_rows (sub_bytes st))) = length rk) as Hlen.
    { rewrite length_mix_columns by apply length_shift_rows. congruence. }
    assert (length next = 16) as Hnext.
    { unfold next. rewrite length_xor by assumption. congruence. }
    change (rounds (rk :: rk' :: rks') st) with (rounds (rk' :: rks') next).
    destruct (IH next Hnext) as [Hlength Hinverse].
    split; [assumption|].
    change (inv_rounds (rk :: rk' :: rks') (rounds (rk' :: rks') next))
      with (inv_sub_bytes
              (inv_shift_rows
                 (inv_mix_columns
                    (xor (inv_rounds (rk' :: rks') (rounds (rk' :: rks') next))
                         rk)))).
    rewrite Hinverse. unfold next. rewrite xor_involutive by assumption.
    rewrite inv_mix_mix_columns by apply length_shift_rows.
    rewrite inv_shift_shift_rows by (rewrite length_sub_bytes; assumption).
    apply inv_sub_sub_bytes.
Qed.

Lemma rounds_inv_rounds rks :
  Forall (fun rk => length rk = 16) rks ->
  forall st, length st = 16 ->
    length (inv_rounds rks st) = 16 /\ rounds rks (inv_rounds rks st) = st.
Proof.
  induction 1 as [|rk rks Hrk Hrks IH]; intros st Hst; [split; trivial|].
  destruct rks as [|rk' rks'].
  - cbn [rounds inv_rounds].
    assert (length (xor st rk) = 16) as Hlen
      by (rewrite length_xor; congruence).
    split; [rewrite length_inv_sub_bytes; apply length_inv_shift_rows|].
    rewrite sub_inv_sub_bytes, shift_inv_shift_rows by assumption.
    apply xor_involutive. congruence.
  - destruct (IH st Hst) as [Hlength Hinverse].
    set (prev := inv_rounds (rk' :: rks') st) in *.
    change (inv_rounds (rk :: rk' :: rks') st)
      with (inv_sub_bytes (inv_shift_rows (inv_mix_columns (xor prev rk)))).
    assert (length (xor prev rk) = 16) as Hlen
      by (rewrite length_xor; congruence).
    split.
    { rewrite length_inv_sub_bytes. apply length_inv_shift_rows. }
    set (state := inv_sub_bytes (inv_shift_rows (inv_mix_columns (xor prev rk)))).
    change (rounds (rk :: rk' :: rks') state)
      with (rounds (rk' :: rks')
              (xor (mix_columns (shift_rows (sub_bytes state))) rk)).
    unfold state. rewrite sub_inv_sub_bytes.
    rewrite shift_inv_shift_rows
      by (apply length_inv_mix_columns; assumption).
    rewrite mix_inv_mix_columns by assumption.
    rewrite xor_involutive by congruence. exact Hinverse.
Qed.

(** *** The block cipher *)

Lemma length_encrypt_block key block :
  length key = 32 -> length block = 16 -> length (encrypt_block key block) = 16.
Proof.
  intros _ Hblock. unfold encrypt_block.
  pose proof (round_keys_lengths key) as Hkeys.
  destruct (round_keys key) as [|rk0 rks]; [assumption|].
  inversion Hkeys as [|? ? Hrk0 Hrks]; subst.
  apply (inv_rounds_rounds rks Hrks). rewrite length_xor; congruence.
Qed.

Lemma length_decrypt_block key block :
  length key = 32 -> length block = 16 -> length (decrypt_block key block) = 16.
Proof.
  intros _ Hblock. unfold decrypt_block.
  pose proof (round_keys_lengths key) as Hkeys.
  destruct (round_keys key) as [|rk0 rks]; [assumption|].
  inversion Hkeys as [|? ? Hrk0 Hrks]; subst.
  destruct (rounds_inv_rounds rks Hrks block Hblock) as [Hlen _].
  rewrite length_xor; congruence.
Qed.

Lemma decrypt_encrypt key block :
  length key = 32 -> length block = 16 ->
  decrypt_block key (encrypt_block key block) = block.
Proof.
  intros _ Hblock. unfold decrypt_block, encrypt_block.
  pose proof (round_keys_lengths key) as Hkeys.
  destruct (round_keys key) as [|rk0 rks]; [reflexivity|].
  inversion Hkeys as [|? ? Hrk0 Hrks]; subst.
  assert (length (xor block rk0) = 16) as Hlen by (rewrite length_xor; congruence).
  destruct (inv_rounds_rounds rks Hrks _ Hlen) as [_ ->].
  apply xor_involutive. congruence.
Qed.

Lemma encrypt_decrypt key block :
  length key = 32 -> length block = 16 ->
  encrypt_block key (decrypt_block key block) = block.
Proof.
  intros _ Hblock. unfold decrypt_block, encrypt_block.
  pose proof (round_keys_lengths key) as Hkeys.
  destruct (round_keys key) as [|rk0 rks]; [reflexivity|].
  inversion Hkeys as [|? ? Hrk0 Hrks]; subst.
  destruct (rounds_inv_rounds rks Hrks block Hblock) as [Hlen Hinverse].
  rewrite xor_involutive by congruence. exact Hinverse.
Qed.

(** AES with a 256-bit key is a block cipher. *)
#[export] Instance aes256 : Crypto.BlockCipher := {|
  Crypto.encryptBlock := encrypt_block;
  Crypto.decryptBlock := decrypt_block;
  Crypto.encryptBlock_length := length_encrypt_block;
  Crypto.decryptBlock_length := length_decrypt_block;
  Crypto.decrypt_encrypt_block := decrypt_encrypt;
  Crypto.encrypt_decrypt_block := encrypt_decrypt
|}.

(** The example of the standard: the key 00 01 .. 1f, one block. *)
Lemma aes256_example :
  Hex.toString_hex
    (encrypt_block (map (fun n => byte_of_N (N.of_nat n)) (seq 0 32))
       (Hex.from_hex (js "00112233445566778899aabbccddeeff")))
  = js "8ea2b7ca516745bfeafc49904b496089".
Proof. vm_compute. reflexivity. Qed.

End AESFacts.

(** *** Encrypting and decrypting with one key *)

Module RoundTrip.
Import Hex Utf8 Crypto BitFacts HexFacts Utf8Facts CryptoFacts AESFacts.

Definition sample_key : jsstring := js "0123456789abcdef0123456789abcdef".

Definition sample_entropy : entropy := fun i => byte_of_N (N.of_nat (7 * i + 3)).

(** One run of [encrypt]: the vector drawn from the random source, a colon
    and one block of ciphertext. *)
Lemma encrypt_sample :
  fst (encrypt sample_key (js "hello") sample_entropy)
  = Ok (js "030a11181f262d343b424950575e656c:34713908002bb8a56dc28d407ac8bf69").
Proof. vm_compute. reflexivity. Qed.

(** With a key that is not 32 bytes long no cipher object is made. *)
Lemma encrypt_invalid_key `{BlockCipher} key payload rnd :
  length (utf8ToBytes key) <> 32 ->
  fst (encrypt key payload rnd)
  = Throw (InvalidKeyLength (length (utf8ToBytes key))).
Proof.
  intros Hk. unfold encrypt.
  destruct (getRandomValues 16 rnd) as [iv rnd'] eqn:E. cbn [fst].
  rewrite createCipheriv_bad_key by assumption. reflexivity.
Qed.

(** C1, as stated, fails: [encrypt] throws on the key ["abc"], so there is
    nothing for [decrypt] to return the payload from. *)
Lemma encrypt_short_key_throws :
  fst (encrypt (js "abc") (js "hello") sample_entropy)
  = Throw (InvalidKeyLength 3).
Proof. reflexivity. Qed.

(** An unpaired surrogate in the payload comes back as U+FFFD. *)
Lemma roundtrip_lone_surrogate :
  (let* text := fst (encrypt sample_key [0xD83D%N] sample_entropy) in
   decrypt sample_key text) = Ok [0xFFFD%N].
Proof. vm_compute. reflexivity. Qed.

(** C1 (amended): for a key whose UTF-8 form is 32 bytes and a well-formed
    payload, whatever the random source yields, [encrypt] returns the
    hexadecimal form of a 16-byte vector, a colon and the hexadecimal form of
    the encrypted bytes, and [decrypt] with the same key returns the
    payload from it. *)
Theorem encrypt_decrypt_roundtrip `{BlockCipher} key payload rnd :
  length (utf8ToBytes key) = 32 ->
  well_formed payload = true ->
  let iv := fst (getRandomValues 16 rnd) in
  length iv = 16 /\
  exists ciphertext,
    fst (encrypt key payload rnd)
    = Ok (convertByteArrayToHex iv ++ js ":" ++ toString_hex ciphertext) /\
    decrypt key (convertByteArrayToHex iv ++ js ":" ++ toString_hex ciphertext)
    = Ok payload.
Proof.
  intros Hk Hwf iv.
  assert (length iv = 16) as Hiv by apply length_getRandomValues.
  split; [assumption|].
  set (c := {| cipher_key := utf8ToBytes key; cipher_iv := iv |}).
  exists (cipher_update_final c (utf8ToBytes payload)). split.
  - unfold encrypt. subst iv.
    destruct (getRandomValues 16 rnd) as [iv rnd'] eqn:E. cbn [fst] in *.
    rewrite createCipheriv_ok by assumption. reflexivity.
  - unfold decrypt. rewrite decrypt_bytes_hex.
    rewrite createDecipheriv_ok by assumption.
    unfold Crypto.bind at 2. fold c.
    rewrite decipher_cipher by assumption.
    unfold Crypto.bind. rewrite utf8_roundtrip by assumption. reflexivity.
Qed.

Lemma encrypt_decrypt_roundtrip_witness :
  length (utf8ToBytes sample_key) = 32 /\
  well_formed (js "hello") = true /\
  let iv := fst (getRandomValues 16 sample_entropy) in
  length iv = 16 /\
  exists ciphertext,
    fst (encrypt sample_key (js "hello") sample_entropy)
    = Ok (convertByteArrayToHex iv ++ js ":" ++ toString_hex ciphertext) /\
    decrypt sample_key
      (convertByteArrayToHex iv ++ js ":" ++ toString_hex ciphertext)
    = Ok (js "hello").
Proof.
  split; [reflexivity|]. split; [reflexivity|].
  apply (encrypt_decrypt_roundtrip sample_key (js "hello") sample_entropy);
    reflexivity.
Defined.

End RoundTrip.

(** *** Decrypting with another key *)

Module WrongKey.
Import Hex Utf8 Text Crypto BitFacts HexFacts Utf8Facts Utf8Inverse CryptoFacts.

(** The words of a given length over an alphabet. *)
Fixpoint words {A} (alphabet : list A) (n : nat) : list (list A) :=
  match n with
  | O => [[]]
  | S n' => alphabet ≫= (fun a => cons a <$> words alphabet n')
  end.

Lemma length_bind_const {A B} (f : A -> list B) (l : list A) m :
  (forall x, length (f x) = m) -> length (l ≫= f) = length l * m.
Proof.
  intros Hf. induction l as [|x l IH]; [reflexivity|].
  rewrite bind_cons, length_app, Hf, IH. reflexivity.
Qed.

Lemma length_words {A} (alphabet : list A) n :
  length (words alphabet n) = length alphabet ^ n.
Proof.
  induction n as [|n IH]; [reflexivity|].
  cbn [words]. rewrite (length_bind_const _ _ (length alphabet ^ n)).
  - rewrite Nat.pow_succ_r'. reflexivity.
  - intros a. rewrite length_fmap. exact IH.
Qed.

Lemma elem_of_words {A} (alphabet : list A) n w :
  w ∈ words alphabet n <-> length w = n /\ Forall (fun a => a ∈ alphabet) w.
Proof.
  revert w. induction n as [|n IH]; intros w; cbn [words].
  - rewrite list_elem_of_singleton. split.
    + intros ->. split; [reflexivity|constructor].
    + intros [Hlen _]. destruct w; [reflexivity|discriminate].
  - rewrite list_elem_of_bind. split.
    + intros (a & Hw & Ha). apply list_elem_of_fmap in Hw as (w' & -> & Hw').
      apply IH in Hw' as [Hlen Hall]. split; [simpl; congruence|].
      constructor; assumption.
    + intros [Hlen Hall]. destruct w as [|a w']; [discriminate|].
      inversion Hall as [|? ? Ha Hall']; subst.
      exists a. split; [|assumption].
      apply list_elem_of_fmap. exists w'. split; [reflexivity|].
      apply IH. split; [simpl in Hlen; congruence|assumption].
Qed.

Lemma NoDup_words {A} (alphabet : list A) n :
  NoDup alphabet -> NoDup (words alphabet n).
Proof.
  intros Hal. induction n as [|n IH]; cbn [words].
  - apply NoDup_singleton.
  - apply NoDup_bind; [| |assumption].
    + intros a1 a2 w _ _ H1 H2.
      apply list_elem_of_fmap in H1 as (w1 & -> & _).
      apply list_elem_of_fmap in H2 as (w2 & [= -> _] & _). reflexivity.
    + intros a _. apply NoDup_fmap_2; [|assumption].
      intros w1 w2 [= ->]. reflexivity.
Qed.

(** More keys than values: two keys share a value. *)
Lemma collision {K B} (f : K -> B) (keys : list K) (range : list B) :
  NoDup keys -> (forall k, k ∈ keys -> f k ∈ range) ->
  length range < length keys ->
  exists k1 k2, k1 ∈ keys /\ k2 ∈ keys /\ k1 <> k2 /\ f k1 = f k2.
Proof.
  intros Hnodup Hrange Hlen.
  destruct (finite.list_pigeonhole (f <$> keys) range) as (i1 & i2 & x & Hlt & H1 & H2).
  - intros y (k & -> & Hk)%list_elem_of_fmap. apply Hrange, Hk.
  - rewrite length_fmap. assumption.
  - rewrite list_lookup_fmap in H1, H2.
    apply fmap_Some in H1 as (k1 & Hk1 & ->).
    apply fmap_Some in H2 as (k2 & Hk2 & Heq).
    exists k1, k2. split; [eapply list_elem_of_lookup_2; eassumption|].
    split; [eapply list_elem_of_lookup_2; eassumption|].
    split; [|assumption].
    intros ->. pose proof (NoDup_lookup _ _ _ _ Hnodup Hk1 Hk2). lia.
Qed.

(** The ASCII code units and all the bytes. *)
Definition ascii_units : list N := N.of_nat <$> seq 0 128.
Definition all_bytes : list byte := (fun n => byte_of_N (N.of_nat n)) <$> seq 0 256.

Lemma NoDup_ascii_units : NoDup ascii_units.
Proof.
  apply NoDup_fmap_2; [|apply NoDup_seq].
  intros a b Hab. apply Nat2N.inj. assumption.
Qed.

Lemma elem_of_ascii_units c : c ∈ ascii_units -> (c < 128)%N.
Proof.
  intros (n & -> & Hn%elem_of_seq)%list_elem_of_fmap. lia.
Qed.

Lemma elem_of_all_bytes b : b ∈ all_bytes.
Proof.
  apply list_elem_of_fmap. exists (N.to_nat (Byte.to_N b)). split.
  - rewrite N2Nat.id, byte_of_N_to_N. reflexivity.
  - apply elem_of_seq. pose proof (to_N_lt b). lia.
Qed.

Lemma utf8ToBytes_ascii w :
  Forall (fun c => c ∈ ascii_units) w -> utf8ToBytes w = byte_of_N <$> w.
Proof.
  induction 1 as [|c w Hc%elem_of_ascii_units _ IH]; [reflexivity|].
  cbn [utf8ToBytes fmap list_fmap].
  assert (is_high c = false) as ->.
  { unfold is_high. apply andb_false_iff. left. apply N.leb_gt. lia. }
  assert (is_low c = false) as ->.
  { unfold is_low. apply andb_false_iff. left. apply N.leb_gt. lia. }
  unfold encode_code_point.
  assert ((c <? 0x80)%N = true) as -> by (apply N.ltb_lt; lia).
  rewrite IH. reflexivity.
Qed.

Section WithCipher.
Context `{BlockCipher}.

Lemma cbc_decrypt_lengths key cs : forall prev,
  length key = 32 -> length prev = 16 ->
  Forall (fun c => length c = 16) cs ->
  Forall (fun b => length b = 16) (cbc_decrypt key prev cs).
Proof.
  induction cs as [|c cs IH]; intros prev Hk Hp Hcs; [constructor|].
  inversion Hcs as [|? ? Hc Hcs']; subst. cbn [cbc_decrypt].
  constructor; [|apply IH; assumption].
  rewrite length_xor; rewrite decryptBlock_length by assumption; congruence.
Qed.

Lemma xor_cancel a b p :
  length a = length p -> length b = length p -> xor a p = xor b p -> a = b.
Proof.
  intros Ha Hb Heq.
  rewrite <- (xor_involutive a p), <- (xor_involutive b p) by assumption.
  rewrite Heq. reflexivity.
Qed.

(** Two keys decrypt a chain alike exactly when they decrypt each of its
    blocks alike. *)
Lemma cbc_decrypt_agree key1 key2 cs : forall prev,
  length key1 = 32 -> length key2 = 32 -> length prev = 16 ->
  Forall (fun c => length c = 16) cs ->
  cbc_decrypt key2 prev cs = cbc_decrypt key1 prev cs <->
  Forall (fun c => decryptBlock key2 c = decryptBlock key1 c) cs.
Proof.
  induction cs as [|c cs IH]; intros prev Hk1 Hk2 Hp Hcs.
  - split; [constructor|reflexivity].
  - inversion Hcs as [|? ? Hc Hcs']; subst. cbn [cbc_decrypt]. split.
    + intros [= Hhead Htail]. constructor.
      * apply (xor_cancel _ _ prev);
          rewrite ?decryptBlock_length by assumption; congruence.
      * apply (IH c); assumption.
    + intros Hall. inversion Hall as [|? ? Hhead Htail]; subst.
      rewrite Hhead. f_equal. apply (IH c); assumption.
Qed.

Lemma blocks_pad_concat front tail :
  Forall (fun b => length b = 16) front -> length tail < 16 ->
  blocks (pad (concat front ++ tail)) = front ++ [pad tail].
Proof.
  intros Hfront Htail. induction Hfront as [|b front Hb _ IH].
  - cbn [concat app]. rewrite <- (app_nil_r (pad tail)) at 1.
    rewrite blocks_app by (apply length_pad_short; assumption). reflexivity.
  - cbn [concat]. rewrite <- app_assoc, pad_app, blocks_app by assumption.
    rewrite IH. reflexivity.
Qed.

(** A block that unpads is the padded form of what it unpads to. *)
Lemma unpad_inv last tail :
  length last = 16 -> unpad last = Ok tail ->
  last = pad tail /\ length tail < 16.
Proof.
  intros Hlen. unfold unpad.
  set (padded := N.to_nat (Byte.to_N (nth 15 last x00))).
  destruct ((padded <? 1)%nat || (16 <? padded)%nat) eqn:Hrange; [discriminate|].
  apply orb_false_iff in Hrange as [H1%Nat.ltb_ge H16%Nat.ltb_ge].
  destruct (forallb _ _) eqn:Hall; [|discriminate].
  intros [= <-].
  assert (length (take (16 - padded) last) = 16 - padded) as Htake
    by (rewrite length_take; lia).
  split; [|lia].
  rewrite pad_short by lia. rewrite Htake.
  replace (16 - (16 - padded))%nat with padded by lia.
  rewrite <- (take_drop (16 - padded) last) at 1. f_equal.
  apply list_eq. intros i.
  destruct (Nat.lt_ge_cases i padded) as [Hi|Hi].
  - rewrite lookup_replicate_2 by assumption. rewrite lookup_drop.
    rewrite forallb_forall in Hall.
    specialize (Hall i ltac:(apply in_seq; lia)). apply Nat.eqb_eq in Hall.
    rewrite nth_lookup in Hall.
    destruct (last !! (16 - padded + i)%nat) as [b|] eqn:E.
    + f_equal. rewrite <- (byte_of_N_to_N b). f_equal.
      replace (i + (16 - padded))%nat with (16 - padded + i)%nat in Hall by lia.
      rewrite E in Hall. cbn [default] in Hall.
      rewrite <- Hall, N2Nat.id. reflexivity.
    + apply lookup_ge_None in E. lia.
  - transitivity (@None byte).
    + apply lookup_ge_None. rewrite length_drop. lia.
    + symmetry. apply lookup_replicate_None. assumption.
Qed.

(** What a decipher object returns is what pads to the chain it decrypted. *)
Lemma decipher_inv c cs data :
  length (cipher_key c) = 32 -> length (cipher_iv c) = 16 ->
  Forall (fun b => length b = 16) cs ->
  decipher_update_final c (concat cs) = Ok data ->
  blocks (pad data) = cbc_decrypt (cipher_key c) (cipher_iv c) cs.
Proof.
  intros Hk Hiv Hcs. rewrite decipher_update_final_chain by assumption.
  pose proof (cbc_decrypt_lengths _ _ _ Hk Hiv Hcs) as Hbs.
  set (bs := cbc_decrypt (cipher_key c) (cipher_iv c) cs) in *.
  rewrite <- (rev_involutive bs) in Hbs |- *.
  destruct (rev bs) as [|last front]; [discriminate|].
  cbn [rev] in *. apply Forall_app in Hbs as [Hfront Hlast].
  inversion Hlast as [|? ? Hlen _]; subst.
  rewrite rev_app_distr, rev_involutive. cbn [rev app].
  destruct (unpad last) as [tail|e] eqn:Hunpad; [|discriminate].
  unfold Crypto.bind. intros [= <-].
  apply unpad_inv in Hunpad as [-> Htail]; [|assumption].
  apply blocks_pad_concat; assumption.
Qed.

Lemma decipher_of_chain key1 key2 iv cs :
  Forall (fun b => length b = 16) cs ->
  cbc_decrypt key2 iv cs = cbc_decrypt key1 iv cs ->
  decipher_update_final {| cipher_key := key2; cipher_iv := iv |} (concat cs)
  = decipher_update_final {| cipher_key := key1; cipher_iv := iv |} (concat cs).
Proof.
  intros Hcs Hchain. rewrite !decipher_update_final_chain by assumption.
  cbn [cipher_key cipher_iv]. rewrite Hchain. reflexivity.
Qed.

(** The blocks [encrypt] writes for a payload under a key and a vector. *)
Definition ciphertext_blocks (key payload : jsstring) (iv : list byte)
  : list (list byte) :=
  cbc_encrypt (utf8ToBytes key) iv (blocks (pad (utf8ToBytes payload))).

Lemma ciphertext_blocks_lengths key payload iv :
  length (utf8ToBytes key) = 32 -> length iv = 16 ->
  Forall (fun c => length c = 16) (ciphertext_blocks key payload iv).
Proof.
  intros Hk Hiv. apply cbc_encrypt_lengths; [assumption..|].
  apply blocks_pad_lengths.
Qed.

Lemma encrypt_text key payload rnd :
  length (utf8ToBytes key) = 32 ->
  let iv := fst (getRandomValues 16 rnd) in
  fst (encrypt key payload rnd)
  = Ok (convertByteArrayToHex iv ++ js ":" ++
        toString_hex (concat (ciphertext_blocks key payload iv))).
Proof.
  intros Hk iv. unfold encrypt. subst iv.
  pose proof (length_getRandomValues 16 rnd) as Hiv.
  destruct (getRandomValues 16 rnd) as [iv rnd']. cbn [fst] in *.
  rewrite createCipheriv_ok by assumption. reflexivity.
Qed.

(** With the blocks of the ciphertext decrypted alike, the other key
    recovers the bytes. *)
Lemma decrypt_bytes_agree key1 key2 payload iv :
  length (utf8ToBytes key1) = 32 -> length (utf8ToBytes key2) = 32 ->
  length iv = 16 ->
  Forall (fun c => decryptBlock (utf8ToBytes key2) c
                   = decryptBlock (utf8ToBytes key1) c)
         (ciphertext_blocks key1 payload iv) ->
  decrypt_bytes key2
    (convertByteArrayToHex iv ++ js ":" ++
     toString_hex (concat (ciphertext_blocks key1 payload iv)))
  = Ok (utf8ToBytes payload).
Proof.
  intros Hk1 Hk2 Hiv Hagree.
  pose proof (ciphertext_blocks_lengths key1 payload iv Hk1 Hiv) as Hcs.
  rewrite decrypt_bytes_hex.
  rewrite createDecipheriv_ok by assumption. unfold Crypto.bind.
  rewrite (decipher_of_chain (utf8ToBytes key1)).
  - apply (decipher_cipher {| cipher_key := utf8ToBytes key1; cipher_iv := iv |});
      assumption.
  - assumption.
  - apply cbc_decrypt_agree; assumption.
Qed.

(** Whatever the cipher, two distinct keys decrypt some text to the payload
    it was made from: there are more keys than blocks, so two keys decrypt
    one block alike, and a message of that one block is read by both. *)
Lemma wrong_key_collision :
  exists key1 key2 payload rnd text,
    key1 <> key2 /\
    length (utf8ToBytes key1) = 32 /\ length (utf8ToBytes key2) = 32 /\
    fst (encrypt key1 payload rnd) = Ok text /\
    decrypt key2 text = Ok payload.
Proof.
  set (c0 := replicate 16 x00 : list byte).
  destruct (collision (fun key => decryptBlock (utf8ToBytes key) c0)
              (words ascii_units 32) (words all_bytes 16))
    as (key1 & key2 & Hin1 & Hin2 & Hne & Hsame).
  - apply NoDup_words, NoDup_ascii_units.
  - intros key [Hlen Hall]%elem_of_words. apply elem_of_words. split.
    + apply decryptBlock_length; [|reflexivity].
      rewrite utf8ToBytes_ascii, length_fmap by assumption. assumption.
    + apply Forall_forall. intros b _. apply elem_of_all_bytes.
  - rewrite !length_words. unfold ascii_units, all_bytes.
    rewrite !length_fmap, !length_seq.
    change 32 with (2 * 16). rewrite Nat.pow_mul_r.
    apply Nat.pow_lt_mono_l; [discriminate|].
    apply Nat.ltb_lt. vm_compute. reflexivity.
  - apply elem_of_words in Hin1 as [Hlen1 Hall1].
    apply elem_of_words in Hin2 as [Hlen2 Hall2].
    assert (length (utf8ToBytes key1) = 32) as Hk1
      by (rewrite utf8ToBytes_ascii, length_fmap by assumption; assumption).
    assert (length (utf8ToBytes key2) = 32) as Hk2
      by (rewrite utf8ToBytes_ascii, length_fmap by assumption; assumption).
    set (x := decryptBlock (utf8ToBytes key1) c0) in *.
    assert (length x = 16) as Hx by (apply decryptBlock_length; [assumption|reflexivity]).
    set (iv := xor (pad []) x).
    assert (length iv = 16) as Hiv by (unfold iv; rewrite length_xor; [reflexivity|rewrite Hx; reflexivity]).
    set (rnd := (fun i => nth i iv x00) : entropy).
    assert (fst (getRandomValues 16 rnd) = iv) as Hrnd.
    { unfold getRandomValues, rnd. cbn [fst]. apply list_eq. intros i.
      change (map (fun i0 => nth i0 iv x00) (seq 0 16))
        with ((fun i0 => nth i0 iv x00) <$> seq 0 16).
      rewrite list_lookup_fmap.
      destruct (Nat.lt_ge_cases i 16) as [Hi|Hi].
      - rewrite lookup_seq_lt by assumption. cbn [fmap option_fmap option_map].
        rewrite nth_lookup. cbn [Nat.add].
        destruct (iv !! i) eqn:E; [reflexivity|].
        apply lookup_ge_None in E. lia.
      - rewrite lookup_seq_ge by assumption. symmetry.
        apply lookup_ge_None. lia. }
    assert (ciphertext_blocks key1 [] iv = [c0]) as Hcs.
    { unfold ciphertext_blocks. cbn [utf8ToBytes].
      rewrite <- (app_nil_r (pad [])), blocks_app by reflexivity.
      rewrite blocks_nil. cbn [cbc_encrypt]. f_equal.
      assert (xor (pad []) iv = x) as ->.
      { unfold iv. rewrite (xor_comm (pad []) x), xor_comm.
        apply xor_involutive. rewrite Hx. reflexivity. }
      apply encrypt_decrypt_block; [assumption|reflexivity]. }
    exists key1, key2, [], rnd. eexists.
    split; [assumption|]. split; [assumption|]. split; [assumption|]. split.
    + rewrite encrypt_text by assumption. rewrite Hrnd. reflexivity.
    + unfold decrypt. rewrite decrypt_bytes_agree; try assumption.
      * reflexivity.
      * rewrite Hcs. constructor; [|constructor]. symmetry. exact Hsame.
Qed.

Lemma decrypt_inv key text s :
  decrypt key text = Ok s ->
  exists data, decrypt_bytes key text = Ok data /\ utf8Slice data = s.
Proof.
  unfold decrypt. destruct (decrypt_bytes key text) as [data|e]; [|discriminate].
  unfold Crypto.bind. intros [= <-]. exists data. split; reflexivity.
Qed.

(** C8 (amended): for keys of 32 bytes, [decrypt] under the second key
    recovers the bytes of the payload from what [encrypt] made under the
    first exactly when the cipher decrypts every block of the ciphertext
    under the second key as it does under the first, and then it returns a
    well-formed payload itself; this is so whenever the two key strings have
    the same bytes. For a payload without U+FFFD, [decrypt] returns the
    payload only then. When the keys decrypt some block differently,
    [decrypt] throws, or returns a string that is not the payload, or
    returns the payload from bytes that are not the payload's, which takes a
    U+FFFD in the payload. *)
Theorem wrong_key_recovers_iff_blocks_agree key1 key2 payload rnd :
  length (utf8ToBytes key1) = 32 -> length (utf8ToBytes key2) = 32 ->
  let iv := fst (getRandomValues 16 rnd) in
  let cs := ciphertext_blocks key1 payload iv in
  let agree := Forall (fun c => decryptBlock (utf8ToBytes key2) c
                                = decryptBlock (utf8ToBytes key1) c) cs in
  exists text,
    fst (encrypt key1 payload rnd) = Ok text /\
    (decrypt_bytes key2 text = Ok (utf8ToBytes payload) <-> agree) /\
    (agree -> well_formed payload = true -> decrypt key2 text = Ok payload) /\
    (utf8ToBytes key2 = utf8ToBytes key1 -> agree) /\
    (no_replacement payload = true ->
     decrypt key2 text = Ok payload -> agree) /\
    (~ agree ->
     (exists e, decrypt key2 text = Throw e) \/
     (exists s, decrypt key2 text = Ok s /\ s <> payload) \/
     (exists data,
        decrypt_bytes key2 text = Ok data /\
        data <> utf8ToBytes payload /\
        utf8Slice data = payload /\
        no_replacement payload = false)).
Proof.
  intros Hk1 Hk2 iv cs agree.
  assert (length iv = 16) as Hiv by apply length_getRandomValues.
  pose proof (ciphertext_blocks_lengths key1 payload iv Hk1 Hiv) as Hcs.
  set (text := convertByteArrayToHex iv ++ js ":" ++
               toString_hex (concat (ciphertext_blocks key1 payload iv))).
  assert (decrypt_bytes key2 text = Ok (utf8ToBytes payload) <-> agree) as Hiff.
  { subst agree cs text. split.
    - intros Hdec. rewrite decrypt_bytes_hex in Hdec.
      rewrite createDecipheriv_ok in Hdec by assumption. unfold Crypto.bind in Hdec.
      apply decipher_inv in Hdec; [|assumption..]. cbn [cipher_key cipher_iv] in Hdec.
      apply (cbc_decrypt_agree _ _ _ iv); [assumption..|].
      rewrite <- Hdec. symmetry.
      apply cbc_decrypt_encrypt; [assumption..|]. apply blocks_pad_lengths.
    - intros Hagree. apply decrypt_bytes_agree; assumption. }
  assert (no_replacement payload = true ->
          decrypt key2 text = Ok payload -> agree) as Honly.
  { intros Hno Hdec. apply Hiff.
    apply decrypt_inv in Hdec as (data & Hdata & Hslice).
    rewrite Hdata. f_equal. subst payload. symmetry.
    apply utf8ToBytes_utf8Slice. assumption. }
  exists text.
  split; [apply encrypt_text; assumption|].
  split; [exact Hiff|]. split; [|split; [|split; [exact Honly|]]].
  - intros Hagree Hwf. unfold decrypt.
    rewrite (proj2 Hiff Hagree).
    unfold Crypto.bind. rewrite utf8_roundtrip by assumption. reflexivity.
  - intros Hsame. subst agree. apply Forall_forall. intros c _.
    rewrite Hsame. reflexivity.
  - intros Hnot.
    destruct (decrypt key2 text) as [s|e] eqn:Hdec; [|left; exists e; reflexivity].
    right. destruct (List.list_eq_dec N.eq_dec s payload) as [->|Hne];
      [|left; exists s; split; [reflexivity|assumption]].
    right. apply decrypt_inv in Hdec as (data & Hdata & Hslice).
    exists data. split; [assumption|].
    assert (data <> utf8ToBytes payload) as Hdiff.
    { intros ->. apply Hnot, Hiff, Hdata. }
    split; [assumption|]. split; [assumption|].
    destruct (no_replacement payload) eqn:Hno; [|reflexivity].
    exfalso. apply Hdiff. subst payload. symmetry.
    apply utf8ToBytes_utf8Slice. assumption.
Qed.

End WithCipher.

Import AESFacts RoundTrip.

Definition other_key : jsstring := js "fedcba9876543210fedcba9876543210".

(** Two keys that differ in their last character, an unpaired surrogate:
    both are written as U+FFFD, so the two strings have the same 32 bytes. *)
Definition surrogate_key1 : jsstring :=
  js "0123456789abcdef0123456789abc" ++ [0xD800%N].
Definition surrogate_key2 : jsstring :=
  js "0123456789abcdef0123456789abc" ++ [0xDBFF%N].

(** C8, as stated, fails: the two keys above are distinct strings, and
    [decrypt] under the second returns the payload that [encrypt] was given
    under the first. *)
Lemma wrong_key_returns_payload :
  surrogate_key1 <> surrogate_key2 /\
  fst (encrypt surrogate_key1 (js "hello") sample_entropy)
  = Ok (js "030a11181f262d343b424950575e656c:6fc34e754f2c6ea09abc7ddee0f74e1b") /\
  decrypt surrogate_key2
    (js "030a11181f262d343b424950575e656c:6fc34e754f2c6ea09abc7ddee0f74e1b")
  = Ok (js "hello").
Proof.
  split; [intros E; vm_compute in E; discriminate E|].
  split; vm_compute; reflexivity.
Qed.

(** Keys with different bytes collide as well, by counting: there are more
    keys than blocks. *)
Lemma wrong_key_collision_aes :
  exists key1 key2 payload rnd text,
    key1 <> key2 /\
    length (utf8ToBytes key1) = 32 /\ length (utf8ToBytes key2) = 32 /\
    fst (encrypt key1 payload rnd) = Ok text /\
    decrypt key2 text = Ok payload.
Proof. exact wrong_key_collision. Qed.

Lemma wrong_key_recovers_iff_blocks_agree_witness :
  length (utf8ToBytes sample_key) = 32 /\
  length (utf8ToBytes other_key) = 32 /\
  let iv := fst (getRandomValues 16 sample_entropy) in
  let cs := ciphertext_blocks sample_key (js "hello") iv in
  let agree := Forall (fun c => decryptBlock (utf8ToBytes other_key) c
                                = decryptBlock (utf8ToBytes sample_key) c) cs in
  exists text,
    fst (encrypt sample_key (js "hello") sample_entropy) = Ok text /\
    (decrypt_bytes other_key text = Ok (utf8ToBytes (js "hello")) <-> agree) /\
    (agree -> well_formed (js "hello") = true ->
     decrypt other_key text = Ok (js "hello")) /\
    (utf8ToBytes other_key = utf8ToBytes sample_key -> agree) /\
    (no_replacement (js "hello") = true ->
     decrypt other_key text = Ok (js "hello") -> agree) /\
    (~ agree ->
     (exists e, decrypt other_key text = Throw e) \/
     (exists s, decrypt other_key text = Ok s /\ s <> js "hello") \/
     (exists data,
        decrypt_bytes other_key text = Ok data /\
        data <> utf8ToBytes (js "hello") /\
        utf8Slice data = js "hello" /\
        no_replacement (js "hello") = false)).
Proof.
  split; [reflexivity|]. split; [reflexivity|].
  apply (wrong_key_recovers_iff_blocks_agree sample_key other_key (js "hello")
           sample_entropy); reflexivity.
Defined.

(** With these two keys the blocks are decrypted differently, and
    [decrypt] under the other key throws. *)
Lemma decrypt_other_key_throws :
  (let* text := fst (encrypt sample_key (js "hello") sample_entropy) in
   decrypt other_key text) = Throw UnableToDecryptData.
Proof. vm_compute. reflexivity. Qed.

End WrongKey.

(** ** Persistent cells *)

Module PersistentFacts.
Import Svelte Persistent.

Lemma string_eqb_eq s t : string_eqb s t = true <-> s = t.
Proof.
  revert t. induction s as [|c s IH]; intros [|d t]; simpl; split;
    try congruence; try discriminate.
  - intros [->%N.eqb_eq ->%IH]%andb_true_iff. reflexivity.
  - intros [= -> ->]. rewrite N.eqb_refl. apply IH. reflexivity.
Qed.

Lemma string_eqb_neq s t : string_eqb s t = false <-> s <> t.
Proof.
  rewrite <- string_eqb_eq. destruct (string_eqb s t); split; congruence.
Qed.

Section WithJSON.
Context `{JSON}.

Lemma persistent_value key initialValue ls log :
  persistent key initialValue ls log
  = (fst (rehydrate key initialValue ls log),
     mirror key (fst (rehydrate key initialValue ls log)) ls,
     snd (rehydrate key initialValue ls log)).
Proof.
  unfold persistent. destruct (rehydrate key initialValue ls log) as [v log'].
  reflexivity.
Qed.

Lemma in_sync_mirror key v ls : in_sync key (v, mirror key v ls).
Proof. unfold in_sync, mirror. cbn [fst snd]. apply lookup_insert_eq. Qed.

Lemma in_sync_set key v st : in_sync key st -> in_sync key (persistent_set key v st).
Proof.
  intros Hsync. destruct st as [current ls].
  unfold persistent_set, writable_set.
  destruct (safe_not_equal current v); [apply in_sync_mirror|assumption].
Qed.

Lemma in_sync_step key st e :
  foreign key e = true -> in_sync key st -> in_sync key (step key st e).
Proof.
  intros Hf Hsync. destruct e as [v|key' v]; cbn [step].
  - apply in_sync_set. assumption.
  - unfold in_sync, mirror in *. cbn [fst snd foreign] in *.
    apply negb_true_iff, string_eqb_neq in Hf.
    rewrite lookup_insert_ne by assumption. assumption.
Qed.

Lemma in_sync_fold key events : forall st,
  forallb (foreign key) events = true ->
  in_sync key st -> in_sync key (fold_left (step key) events st).
Proof.
  induction events as [|e events IH]; intros st Hall Hsync; [assumption|].
  cbn [forallb fold_left] in *. apply andb_true_iff in Hall as [He Hall].
  apply IH; [assumption|]. apply in_sync_step; assumption.
Qed.

(** C10 (amended): constructing a persistent cell writes the cell's value,
    whether rehydrated or initial, to the storage at once; and after the
    construction, whatever is set afterwards and whatever other cells, of
    other keys, write, the slot of the cell's key holds the text
    [JSON.stringify] gives for the cell's current value when it gives one,
    and the text [undefined], which is no JSON, when it gives none. *)
Theorem persistent_storage_in_sync key initialValue ls log events :
  forallb (foreign key) events = true ->
  let holds (st : value * storage) :=
    match JSON_stringify (fst st) with
    | Some text => snd st !! key = Some text
    | None => snd st !! key = Some (js "undefined")
    end in
  (let '(v, ls', _) := persistent key initialValue ls log in holds (v, ls')) /\
  holds (run key initialValue ls events).
Proof.
  intros Hall holds.
  assert (forall st, in_sync key st -> holds st) as Hholds.
  { intros st Hsync. unfold in_sync, to_item in Hsync. subst holds. cbv beta.
    destruct (JSON_stringify (fst st)); exact Hsync. }
  split.
  - rewrite persistent_value. apply Hholds, in_sync_mirror.
  - apply Hholds. unfold run. rewrite persistent_value.
    apply in_sync_fold; [assumption|]. apply in_sync_mirror.
Qed.

(** The value a new cell starts from. *)
Lemma rehydrate_absent (key : jsstring) (initialValue : value) (ls : storage) (log : console) :
  ls !! key = None -> rehydrate key initialValue ls log = (initialValue, log).
Proof. intros Hnone. unfold rehydrate. rewrite Hnone. reflexivity. Qed.

Lemma rehydrate_empty (key : jsstring) (initialValue : value) (ls : storage) (log : console) :
  ls !! key = Some [] -> rehydrate key initialValue ls log = (initialValue, log).
Proof. intros Hsome. unfold rehydrate. rewrite Hsome. reflexivity. Qed.

Lemma rehydrate_unparsable (key : jsstring) (initialValue : value) (ls : storage) (log : console) json :
  ls !! key = Some json -> json <> [] -> JSON_parse json = None ->
  rehydrate key initialValue ls log = (initialValue, log ++ [json]).
Proof.
  intros Hsome Hne Hparse. unfold rehydrate. rewrite Hsome.
  apply string_eqb_neq in Hne. rewrite Hne, Hparse. reflexivity.
Qed.

Lemma rehydrate_parsed (key : jsstring) (initialValue : value) (ls : storage) (log : console) json v :
  ls !! key = Some json -> json <> [] -> JSON_parse json = Some v ->
  rehydrate key initialValue ls log = (v, log).
Proof.
  intros Hsome Hne Hparse. unfold rehydrate. rewrite Hsome.
  apply string_eqb_neq in Hne. rewrite Hne, Hparse. reflexivity.
Qed.

(** C5 (amended): let a cell of key [key] hold [v] when the program stops, so
    that the storage holds the text of [v] (C10), and let a new cell be made
    for [key] from that storage. If [v] has a JSON text that parses back to
    [v], the new cell holds [v] and nothing is logged. If [v] has no JSON text
    ([undefined]), the new cell holds the initial value it was given. And
    whatever the storage: with no entry for [key], or an empty one, the new
    cell holds the initial value and nothing is logged; with an entry that
    does not parse, the new cell holds the initial value and the failure is
    logged, not thrown. *)
Theorem persistent_rehydrates key v ls initialValue log :
  in_sync key (v, ls) ->
  (forall json, JSON_stringify v = Some json -> json <> [] ->
     JSON_parse json = Some v ->
     persistent key initialValue ls log = (v, ls, log)) /\
  (JSON_stringify v = None ->
     fst (fst (persistent key initialValue ls log)) = initialValue /\
     snd (persistent key initialValue ls log) = log ++ [js "undefined"]) /\
  (forall ls' : storage,
     (ls' !! key = None \/ ls' !! key = Some []) ->
     fst (fst (persistent key initialValue ls' log)) = initialValue /\
     snd (persistent key initialValue ls' log) = log) /\
  (forall (ls' : storage) json,
     ls' !! key = Some json -> json <> [] -> JSON_parse json = None ->
     fst (fst (persistent key initialValue ls' log)) = initialValue /\
     snd (persistent key initialValue ls' log) = log ++ [json]).
Proof.
  intros Hsync. unfold in_sync in Hsync. cbn [fst snd] in Hsync.
  split; [|split; [|split]].
  - intros json Htext Hne Hparse. rewrite Htext in Hsync. cbn [to_item] in Hsync.
    rewrite persistent_value.
    rewrite (rehydrate_parsed _ _ _ _ _ _ Hsync Hne Hparse). cbn [fst snd].
    unfold mirror. rewrite Htext. cbn [to_item].
    rewrite insert_id by assumption. reflexivity.
  - intros Hnone. rewrite Hnone in Hsync. cbn [to_item] in Hsync.
    rewrite persistent_value.
    rewrite (rehydrate_unparsable _ _ _ _ _ Hsync); cbn [fst snd];
      [split; reflexivity|discriminate|apply JSON_parse_undefined].
  - intros ls' [Hnone|Hempty]; rewrite persistent_value.
    + rewrite rehydrate_absent by assumption. split; reflexivity.
    + rewrite rehydrate_empty by assumption. split; reflexivity.
  - intros ls' json Hsome Hne Hparse. rewrite persistent_value.
    rewrite (rehydrate_unparsable _ _ _ _ _ Hsome Hne Hparse).
    split; reflexivity.
Qed.

(** A value that was written and does not come back: [undefined] written
    to a cell whose initial value is another one. *)
Lemma undefined_is_not_rehydrated key initialValue v0 ls0 :
  in_sync key (v0, ls0) ->
  let st := persistent_set key VUndefined (v0, ls0) in
  fst st = VUndefined /\
  fst (fst (persistent key initialValue (snd st) [])) = initialValue.
Proof.
  intros Hsync st.
  assert (fst st = VUndefined) as Hv.
  { subst st. unfold persistent_set, writable_set.
    destruct (safe_not_equal v0 VUndefined) eqn:E; [reflexivity|].
    cbn [fst]. destruct v0; try discriminate; try reflexivity.
    cbn in E. destruct (is_nan x); discriminate. }
  split; [assumption|].
  assert (in_sync key st) as Hsync' by (apply in_sync_set; assumption).
  destruct st as [v ls]. cbn [fst snd] in *. subst v.
  unfold in_sync in Hsync'. cbn [fst snd] in Hsync'.
  rewrite JSON_stringify_undefined in Hsync'. cbn [to_item] in Hsync'.
  rewrite persistent_value.
  rewrite (rehydrate_unparsable _ _ _ _ _ Hsync');
    [reflexivity|discriminate|apply JSON_parse_undefined].
Qed.

Lemma in_sync_run key initialValue ls events :
  forallb (foreign key) events = true ->
  in_sync key (run key initialValue ls events).
Proof.
  intros Hall. unfold run. rewrite persistent_value.
  apply in_sync_fold; [assumption|]. apply in_sync_mirror.
Qed.

End WithJSON.

(** *** The cells of the store, run on the literal JSON *)

Import LiteralJSON.

Definition sample_events : list event :=
  [Set_ (VBool true); Other (js "dataVersion") (VStr (js "1.0"));
   Set_ VUndefined].

Lemma persistent_storage_in_sync_witness :
  forallb (foreign (js "hasSetupAccount")) sample_events = true /\
  let holds (st : value * storage) :=
    match JSON_stringify (fst st) with
    | Some text => snd st !! js "hasSetupAccount" = Some text
    | None => snd st !! js "hasSetupAccount" = Some (js "undefined")
    end in
  (let '(v, ls', _) := persistent (js "hasSetupAccount") (VBool false) ∅ [] in
   holds (v, ls')) /\
  holds (run (js "hasSetupAccount") (VBool false) ∅ sample_events).
Proof.
  split; [reflexivity|].
  apply (persistent_storage_in_sync (js "hasSetupAccount") (VBool false) ∅ []
           sample_events).
  reflexivity.
Defined.

(** C10, as stated, fails: the cell [dataVersion] starts from [undefined],
    which has no JSON serialization; what its slot holds after the
    construction is the text [undefined], which is not JSON. *)
Lemma undefined_slot_is_no_json :
  let '(v, ls, _) := persistent (js "dataVersion") VUndefined ∅ [] in
  v = VUndefined /\
  JSON_stringify v = None /\
  ls !! js "dataVersion" = Some (js "undefined") /\
  JSON_parse (js "undefined") = None.
Proof. repeat split; reflexivity. Qed.

(** C5, as stated, fails: [undefined], written through a cell whose initial
    value is the string 1, is not what a new cell for the key holds after a
    restart; the new cell holds the string. *)
Lemma undefined_written_initial_value_read :
  let st := persistent_set (js "dataVersion") VUndefined
              (run (js "dataVersion") (VStr (js "1")) ∅ []) in
  fst st = VUndefined /\
  fst (fst (persistent (js "dataVersion") (VStr (js "1")) (snd st) []))
  = VStr (js "1").
Proof.
  pose proof (in_sync_run (js "dataVersion") (VStr (js "1")) ∅ [] eq_refl)
    as Hsync.
  destruct (run (js "dataVersion") (VStr (js "1")) ∅ []) as [v0 ls0].
  exact (undefined_is_not_rehydrated _ _ v0 ls0 Hsync).
Qed.

Definition sample_storage : storage := {[ js "hasSetupAccount" := js "true" ]}.

Lemma persistent_rehydrates_witness :
  in_sync (js "hasSetupAccount") (VBool true, sample_storage) /\
  persistent (js "hasSetupAccount") (VBool false) sample_storage []
  = (VBool true, sample_storage, []).
Proof.
  assert (in_sync (js "hasSetupAccount") (VBool true, sample_storage)) as Hsync.
  { unfold in_sync, sample_storage. cbn [fst snd]. apply lookup_singleton_eq. }
  split; [exact Hsync|].
  apply (proj1 (persistent_rehydrates (js "hasSetupAccount") (VBool true)
                  sample_storage (VBool false) [] Hsync) (js "true"));
    [reflexivity|discriminate|reflexivity].
Defined.

End PersistentFacts.

(** ** The error cell *)

Module ErrorCellFacts.
Import Svelte ErrorCell PersistentFacts.

Open Scope Z_scope.

(** At most one timer is pending; it is the one [errorTimeout] names, and
    while it is pending the cell holds a message. *)
Definition inv (st : state) : Prop :=
  is_message (fst st) = true /\
  match timers (snd st) with
  | [] => True
  | [t] =>
      errorTimeout (snd st) = Some (timer_id t) /\
      truthy (fst st) = true /\
      now (snd st) <= timer_due t
  | _ => False
  end.

Lemma message_change a b :
  is_message a = true -> is_message b = true ->
  safe_not_equal a b = false -> a = b.
Proof.
  destruct a, b; try discriminate; try reflexivity; intros _ _;
    cbn [safe_not_equal strict_equal].
  intros Heq%negb_false_iff%string_eqb_eq. congruence.
Qed.

Lemma truthy_not_null a :
  is_message a = true -> truthy a = true -> safe_not_equal a VNull = true.
Proof. destruct a; try discriminate; reflexivity. Qed.

Lemma filter_self (t : timer) :
  filter (fun t' => timer_id t' <> timer_id t) [t] = [].
Proof.
  rewrite filter_cons. destruct (decide (timer_id t <> timer_id t)) as [Hne|_];
    [contradiction|reflexivity].
Qed.

(** The subscriber, from a state that satisfies the invariant. *)
Lemma on_error_pending cell w v :
  inv (cell, w) ->
  on_error v w =
    if truthy v then
      {| errorTimeout := Some (next_timer w);
         timers := [{| timer_id := next_timer w; timer_due := now w + 3500 |}];
         next_timer := S (next_timer w);
         now := now w;
         cleared := cleared w |}
    else
      {| errorTimeout := errorTimeout w;
         timers := [];
         next_timer := next_timer w;
         now := now w;
         cleared := cleared w |}.
Proof.
  intros [_ Hinv]. cbn [fst snd] in Hinv. unfold on_error.
  destruct w as [handle ts next time log]. cbn [timers errorTimeout] in *.
  destruct ts as [|t [|t' ts]]; [| |contradiction].
  - assert (clearTimeout handle
              {| errorTimeout := handle; timers := []; next_timer := next;
                 now := time; cleared := log |}
            = {| errorTimeout := handle; timers := []; next_timer := next;
                 now := time; cleared := log |}) as ->
      by (destruct handle; reflexivity).
    destruct (truthy v); reflexivity.
  - destruct Hinv as (-> & _ & _). cbn [clearTimeout timers].
    rewrite filter_self. destruct (truthy v); reflexivity.
Qed.

Lemma inv_init start : inv (init start).
Proof. split; [reflexivity|exact I]. Qed.

Lemma inv_set v st : inv st -> is_message v = true -> inv (error_set v st).
Proof.
  intros Hinv Hv. destruct st as [cell w].
  unfold error_set, writable_set.
  destruct (safe_not_equal cell v); [|assumption].
  rewrite (on_error_pending cell w v Hinv).
  destruct (truthy v) eqn:Ht; (split; [assumption|]); cbn; [|exact I].
  split; [reflexivity|]. split; [assumption|lia].
Qed.

(** Time passing, from a state that satisfies the invariant. *)
Lemma advance_idle until cell w :
  timers w = [] ->
  advance until (cell, w) =
    (cell, {| errorTimeout := errorTimeout w; timers := [];
              next_timer := next_timer w; now := Z.max (now w) until;
              cleared := cleared w |}).
Proof.
  intros Hts. unfold advance. cbn [snd]. rewrite Hts. cbn [length run_timers].
  rewrite Hts. reflexivity.
Qed.

Lemma advance_early until cell w t :
  timers w = [t] -> until < timer_due t ->
  advance until (cell, w) =
    (cell, {| errorTimeout := errorTimeout w; timers := [t];
              next_timer := next_timer w; now := Z.max (now w) until;
              cleared := cleared w |}).
Proof.
  intros Hts Hdue. unfold advance. cbn [snd]. rewrite Hts.
  cbn [length run_timers snd]. rewrite Hts. cbn [earliest].
  apply Z.leb_gt in Hdue. rewrite Hdue, Hts. reflexivity.
Qed.

Lemma advance_due until cell w t :
  inv (cell, w) -> timers w = [t] -> timer_due t <= until ->
  advance until (cell, w) =
    (VNull, {| errorTimeout := errorTimeout w; timers := [];
               next_timer := next_timer w; now := until;
               cleared := cleared w ++ [timer_due t] |}).
Proof.
  intros [Hmsg Hinv] Hts Hdue. cbn [fst snd] in *. rewrite Hts in Hinv.
  destruct Hinv as (Hhandle & Htruthy & Hnow).
  unfold advance. cbn [snd]. rewrite Hts.
  cbn [length run_timers snd]. rewrite Hts. cbn [earliest].
  apply Z.leb_le in Hdue. rewrite Hdue.
  unfold fire, error_set, writable_set. rewrite Hts, filter_self.
  rewrite truthy_not_null by assumption.
  unfold on_error. cbn [errorTimeout]. rewrite Hhandle.
  cbn [clearTimeout timers truthy errorTimeout next_timer now cleared].
  rewrite filter_nil. apply Z.leb_le in Hdue.
  f_equal. f_equal. lia.
Qed.

Lemma inv_advance until st : inv st -> inv (advance until st).
Proof.
  intros Hinv. destruct st as [cell w]. pose proof Hinv as [Hmsg Hts].
  cbn [fst snd] in Hmsg, Hts.
  destruct (timers w) as [|t [|t' ts]] eqn:E; [| |contradiction].
  - rewrite advance_idle by assumption. split; [assumption|exact I].
  - destruct (Z.lt_ge_cases until (timer_due t)) as [Hearly|Hdue].
    + rewrite (advance_early _ _ _ t) by assumption.
      split; [assumption|]. cbn. destruct Hts as (? & ? & ?).
      split; [assumption|]. split; [assumption|lia].
    + rewrite (advance_due _ _ _ t) by assumption.
      split; [reflexivity|exact I].
Qed.

Lemma reachable_inv st : reachable st -> inv st.
Proof.
  induction 1 as [start|v st _ IH Hv|until st _ IH].
  - apply inv_init.
  - apply inv_set; assumption.
  - apply inv_advance; assumption.
Qed.

(** A set that changes the cell to a truthy value: the timer that was
    pending is gone and one timer is pending, due 3500 ms from now. *)
Lemma set_truthy v cell w :
  inv (cell, w) -> truthy v = true -> safe_not_equal cell v = true ->
  error_set v (cell, w) =
    (v, {| errorTimeout := Some (next_timer w);
           timers := [{| timer_id := next_timer w; timer_due := now w + 3500 |}];
           next_timer := S (next_timer w);
           now := now w;
           cleared := cleared w |}).
Proof.
  intros Hinv Ht Hne. unfold error_set, writable_set. rewrite Hne.
  rewrite (on_error_pending cell w v Hinv), Ht. reflexivity.
Qed.

(** A set to a falsy value leaves no timer pending and schedules none. *)
Lemma set_falsy v cell w :
  inv (cell, w) -> is_message v = true -> truthy v = false ->
  timers (snd (error_set v (cell, w))) = [] /\
  next_timer (snd (error_set v (cell, w))) = next_timer w /\
  cleared (snd (error_set v (cell, w))) = cleared w.
Proof.
  intros Hinv Hmsg Hf. unfold error_set, writable_set.
  destruct (safe_not_equal cell v) eqn:Hne.
  - rewrite (on_error_pending cell w v Hinv), Hf. cbn. auto.
  - cbn [snd]. destruct Hinv as [Hcell Hts]. cbn [fst snd] in *.
    apply message_change in Hne; [|assumption..]. subst v.
    destruct (timers w) as [|t [|t' ts]]; [auto| |contradiction].
    destruct Hts as (_ & Htruthy & _). congruence.
Qed.

(** Setting the value the cell already holds is no change: the subscriber
    does not run and the pending timer keeps its due time. *)
Lemma set_same_value s cell w :
  cell = VStr s -> error_set (VStr s) (cell, w) = (cell, w).
Proof.
  intros ->. unfold error_set, writable_set. cbn [safe_not_equal strict_equal].
  rewrite (proj2 (string_eqb_eq s s) eq_refl). reflexivity.
Qed.

(** C4 (amended): setting the error cell to a new truthy value (a non-empty
    string that is not the one it holds) leaves exactly one timer pending, due
    3500 ms later, whatever was pending before; until then the cell keeps the
    value, and at that time the callback runs once and the cell is cleared.
    Hence an error set at [t0] and a different one set at [t1], less than
    3500 ms later, give exactly one auto-clear, at [t1 + 3500]. Setting the
    message the cell already holds changes nothing: no timer is cancelled and
    none is started. *)
Theorem error_auto_clear :
  (forall st v,
     reachable st -> is_message v = true -> truthy v = true ->
     safe_not_equal (fst st) v = true ->
     let st' := error_set v st in
     let due := now (snd st) + 3500 in
     fst st' = v /\
     timers (snd st')
     = [{| timer_id := next_timer (snd st); timer_due := due |}] /\
     cleared (snd st') = cleared (snd st) /\
     (forall until, until < due ->
        fst (advance until st') = v /\
        cleared (snd (advance until st')) = cleared (snd st)) /\
     (forall until, due <= until ->
        fst (advance until st') = VNull /\
        cleared (snd (advance until st')) = cleared (snd st) ++ [due] /\
        timers (snd (advance until st')) = [])) /\
  (forall start t0 t1 until a b,
     a <> [] -> b <> [] -> a <> b ->
     start <= t0 -> t0 <= t1 < t0 + 3500 -> t1 <= until ->
     let st := advance until
                 (error_set (VStr b)
                    (advance t1
                       (error_set (VStr a) (advance t0 (init start))))) in
     cleared (snd st) = (if t1 + 3500 <=? until then [t1 + 3500] else []) /\
     fst st = (if t1 + 3500 <=? until then VNull else VStr b)) /\
  (forall s w, error_set (VStr s) (VStr s, w) = (VStr s, w)).
Proof.
  assert (forall st v,
     inv st -> is_message v = true -> truthy v = true ->
     safe_not_equal (fst st) v = true ->
     let st' := error_set v st in
     let due := now (snd st) + 3500 in
     fst st' = v /\
     timers (snd st')
     = [{| timer_id := next_timer (snd st); timer_due := due |}] /\
     cleared (snd st') = cleared (snd st) /\
     (forall until, until < due ->
        fst (advance until st') = v /\
        cleared (snd (advance until st')) = cleared (snd st)) /\
     (forall until, due <= until ->
        fst (advance until st') = VNull /\
        cleared (snd (advance until st')) = cleared (snd st) ++ [due] /\
        timers (snd (advance until st')) = [])) as Hgeneral.
  { intros [cell w] v Hinv Hmsg Ht Hne st' due.
    assert (inv st') as Hinv' by (apply inv_set; assumption).
    subst st'. cbn [fst snd] in *. rewrite set_truthy in * by assumption.
    cbn [fst snd timers cleared].
    split; [reflexivity|]. split; [reflexivity|]. split; [reflexivity|]. split.
    - intros time Hu.
      rewrite (advance_early _ _ _ {| timer_id := next_timer w; timer_due := due |})
        by (try reflexivity; assumption).
      split; reflexivity.
    - intros time Hu.
      rewrite (advance_due _ _ _ {| timer_id := next_timer w; timer_due := due |})
        by (try reflexivity; assumption).
      split; [reflexivity|]. split; reflexivity. }
  split.
  { intros st v Hreach. apply Hgeneral, reachable_inv, Hreach. }
  split; [|intros s w; apply set_same_value; reflexivity].
  intros start t0 t1 time a b Ha Hb Hab Hstart Ht1 Huntil.
  assert (truthy (VStr a) = true) as Hta.
  { cbn. apply negb_true_iff, string_eqb_neq. assumption. }
  assert (truthy (VStr b) = true) as Htb.
  { cbn. apply negb_true_iff, string_eqb_neq. assumption. }
  set (s0 := advance t0 (init start)).
  assert (s0 = (VNull, {| errorTimeout := None; timers := []; next_timer := 0%nat;
                          now := t0; cleared := [] |})) as Hs0.
  { subst s0. unfold init, writable_subscribe. rewrite advance_idle by reflexivity.
    cbn. f_equal. f_equal. lia. }
  assert (inv s0) as Hinv0 by (apply inv_advance, inv_init).
  destruct (Hgeneral s0 (VStr a) Hinv0 eq_refl Hta) as (Hv1 & Hts1 & Hc1 & Hearly1 & _).
  { rewrite Hs0. reflexivity. }
  set (s1 := error_set (VStr a) s0) in *.
  assert (inv s1) as Hinv1 by (apply inv_set; [assumption|reflexivity]).
  rewrite Hs0 in Hearly1, Hc1. cbn [snd now cleared] in Hearly1, Hc1.
  destruct (Hearly1 t1 ltac:(lia)) as [Hv2 Hc2].
  set (s2 := advance t1 s1) in *.
  assert (inv s2) as Hinv2 by (apply inv_advance; assumption).
  assert (now (snd s2) = t1) as Hnow2.
  { subst s2 s1. rewrite Hs0. rewrite set_truthy; [|rewrite <- Hs0; assumption|assumption|reflexivity].
    rewrite (advance_early _ _ _ {| timer_id := 0%nat; timer_due := t0 + 3500 |})
      by (try reflexivity; cbn; lia).
    cbn. lia. }
  destruct (Hgeneral s2 (VStr b) Hinv2 eq_refl Htb) as (_ & _ & _ & Hearly3 & Hdue3).
  { rewrite Hv2. cbn. apply negb_true_iff, string_eqb_neq. assumption. }
  rewrite Hnow2, Hc2 in Hearly3, Hdue3. cbn zeta.
  destruct (t1 + 3500 <=? time) eqn:E.
  - apply Z.leb_le in E. destruct (Hdue3 time E) as (-> & -> & _).
    split; reflexivity.
  - apply Z.leb_gt in E. destruct (Hearly3 time E) as (-> & ->).
    split; reflexivity.
Qed.

Lemma error_auto_clear_witness :
  let st := advance 10000
              (error_set (VStr (js "second"))
                 (advance 1000
                    (error_set (VStr (js "first")) (advance 0 (init 0))))) in
  cleared (snd st) = [4500] /\ fst st = VNull.
Proof.
  apply (proj1 (proj2 error_auto_clear) 0 0 1000 10000 (js "first")
           (js "second"));
    (discriminate || lia).
Defined.

(** C4, as stated, fails: the message ["oops"] is set at 0 and, while it is
    still shown, set again at 1000. The second set restarts nothing: the
    timer of the first stays, due at 3500, and the cell is cleared then, not
    at 4500. *)
Lemma repeated_message_keeps_first_timer :
  let st1 := advance 1000 (error_set (VStr (js "oops")) (advance 0 (init 0))) in
  let st2 := error_set (VStr (js "oops")) st1 in
  fst st1 = VStr (js "oops") /\
  timers (snd st2) = [{| timer_id := 0%nat; timer_due := 3500 |}] /\
  fst (advance 3500 st2) = VNull /\
  cleared (snd (advance 4500 st2)) = [3500].
Proof. vm_compute. repeat split; reflexivity. Qed.

(** C9: setting the error cell to [null] or to the empty string leaves no
    timer pending and schedules none; and when the pending timer runs, the
    cell is [null]. *)
Theorem falsy_error_cancels_timer st v :
  reachable st -> v = VNull \/ v = VStr [] ->
  (timers (snd (error_set v st)) = [] /\
   next_timer (snd (error_set v st)) = next_timer (snd st) /\
   cleared (snd (error_set v st)) = cleared (snd st)) /\
  (forall t until,
     timers (snd st) = [t] -> timer_due t <= until ->
     fst (advance until st) = VNull /\
     cleared (snd (advance until st)) = cleared (snd st) ++ [timer_due t]).
Proof.
  intros Hreach%reachable_inv Hv. destruct st as [cell w]. split.
  - apply set_falsy; [assumption|destruct Hv as [->| ->]; reflexivity..].
  - intros t time Hts Hdue. cbn [snd] in Hts.
    rewrite (advance_due _ _ _ t) by assumption. split; reflexivity.
Qed.

Definition sample_state : state := error_set (VStr (js "oops")) (init 0).

Lemma falsy_error_cancels_timer_witness :
  reachable sample_state /\
  (timers (snd sample_state)
   = [{| timer_id := 0%nat; timer_due := 3500 |}]) /\
  (timers (snd (error_set VNull sample_state)) = [] /\
   next_timer (snd (error_set VNull sample_state))
   = next_timer (snd sample_state) /\
   cleared (snd (error_set VNull sample_state)) = cleared (snd sample_state)).
Proof.
  assert (reachable sample_state) as Hreach.
  { apply reachable_set; [apply reachable_init|reflexivity]. }
  split; [exact Hreach|]. split; [reflexivity|].
  apply (proj1 (falsy_error_cancels_timer sample_state VNull Hreach
                  (or_introl eq_refl))).
Defined.

End ErrorCellFacts.

(** ** The data mapping layer *)

Module MappingFacts.
Import IdentityTypes StoreTypes Mapping.

(** C6: the bank mapping on the example of the specification; in general
    each field of the result is the field of the same name of the data, and
    the IBAN has no part in the result. *)
Theorem prepareBankInformation_example :
  prepareBankInformation
    {| BankName := js "Acme"; AccountType := js "Checking";
       AccountNumber := js "123"; AccountIBAN := js "X" |}
  = {| bankName := js "Acme"; accountType := js "Checking";
       accountNumber := js "123" |} /\
  (forall bankData,
     bankName (prepareBankInformation bankData) = BankName bankData /\
     accountType (prepareBankInformation bankData) = AccountType bankData /\
     accountNumber (prepareBankInformation bankData) = AccountNumber bankData) /\
  (forall name type number iban iban',
     prepareBankInformation
       {| BankName := name; AccountType := type; AccountNumber := number;
          AccountIBAN := iban |}
     = prepareBankInformation
         {| BankName := name; AccountType := type; AccountNumber := number;
            AccountIBAN := iban' |}).
Proof.
  split; [reflexivity|]. split; [|reflexivity].
  intros bankData. repeat split.
Qed.

Lemma prepareCommitment_fields c :
  commitmentId (prepareCommitment c) = CommitmentId c /\
  commitmentTitle (prepareCommitment c) = CommitmentTitle c /\
  commitmentPercentage (prepareCommitment c) = CommitmentPercentage c /\
  commitmentSupport (prepareCommitment c) = CommitmentSupport c /\
  commitmentWalletPercentage (prepareCommitment c) = CommitmentWalletPercentage c.
Proof. repeat split. Qed.

Lemma map_prepareCommitment (cs : list IdentityTypes.Commitment) :
  length (map prepareCommitment cs) = length cs /\
  forall i,
    map prepareCommitment cs !! i
    = match cs !! i with
      | Some c =>
          Some {| commitmentId := CommitmentId c;
                  commitmentTitle := CommitmentTitle c;
                  commitmentPercentage := CommitmentPercentage c;
                  commitmentSupport := CommitmentSupport c;
                  commitmentWalletPercentage := CommitmentWalletPercentage c |}
      | None => None
      end.
Proof.
  split; [apply length_map|]. intros i.
  change (map prepareCommitment cs) with (prepareCommitment <$> cs).
  rewrite list_lookup_fmap. destruct (cs !! i); reflexivity.
Qed.

(** C7: both commitment mappings return as many commitments as they were
    given, and the commitment at each position carries, under the
    lower-case names, the five values of the given commitment at that
    position. *)
Theorem commitments_mapped_elementwise :
  (forall data : FutureCommitmentData.t,
     let out := FutureCommitmentInfo.commitments
                  (prepareFutureCommitmentInformation data) in
     length out = length (FutureCommitmentData.Commitments data) /\
     forall i,
       out !! i
       = match FutureCommitmentData.Commitments data !! i with
         | Some c =>
             Some {| commitmentId := CommitmentId c;
                     commitmentTitle := CommitmentTitle c;
                     commitmentPercentage := CommitmentPercentage c;
                     commitmentSupport := CommitmentSupport c;
                     commitmentWalletPercentage :=
                       CommitmentWalletPercentage c |}
         | None => None
         end) /\
  (forall data : PresentCommitmentData.t,
     let out := PresentCommitmentInfo.commitments
                  (preparePresentCommitmentInformation data) in
     length out = length (PresentCommitmentData.Commitments data) /\
     forall i,
       out !! i
       = match PresentCommitmentData.Commitments data !! i with
         | Some c =>
             Some {| commitmentId := CommitmentId c;
                     commitmentTitle := CommitmentTitle c;
                     commitmentPercentage := CommitmentPercentage c;
                     commitmentSupport := CommitmentSupport c;
                     commitmentWalletPercentage :=
                       CommitmentWalletPercentage c |}
         | None => None
         end).
Proof.
  split; intros data; apply map_prepareCommitment.
Qed.

End MappingFacts.

(** ** Deep copies *)

Module HeapFacts.
Import Heap.

Lemma snapshot_props_mono (read read' : hvalue -> option value) props ps :
  (forall v t, read v = Some t -> read' v = Some t) ->
  snapshot_props read props = Some ps ->
  snapshot_props read' props = Some ps.
Proof.
  intros Hmono. revert ps.
  induction props as [|[k v] rest IH]; intros ps Hps; [assumption|].
  cbn [snapshot_props] in *.
  destruct (read v) as [x|] eqn:Hx; [|discriminate].
  destruct (snapshot_props read rest) as [rest'|] eqn:Hrest; [|discriminate].
  rewrite (Hmono _ _ Hx), (IH _ eq_refl). assumption.
Qed.

(** Objects made later do not change what is read from the earlier ones. *)
Lemma snapshot_extend fuel : forall (h h2 : heap) v t,
  snapshot fuel h v = Some t -> snapshot fuel (h ++ h2) v = Some t.
Proof.
  induction fuel as [|fuel IH]; intros h h2 [d|l] t Hsnap;
    cbn [snapshot] in *; try assumption; try discriminate.
  destruct (h !! l) as [props|] eqn:Hl; [|discriminate].
  rewrite (lookup_app_l_Some _ _ _ _ Hl).
  destruct (snapshot_props (snapshot fuel h) props) as [ps|] eqn:Hps;
    [|discriminate].
  rewrite (snapshot_props_mono _ (snapshot fuel (h ++ h2)) _ _
             (fun v t => IH h h2 v t) Hps).
  assumption.
Qed.

Definition fresh_for (h : heap) (v v' : hvalue) : Prop :=
  match v, v' with
  | HData d, HData d' => d = d'
  | HRef _, HRef l' => length h <= l'
  | _, _ => False
  end.

Lemma clone_props_spec fuel
  (IH : forall v (h : heap) t,
      snapshot fuel h v = Some t ->
      exists v' h2,
        cloneDeep fuel v h = Some (v', h ++ h2) /\
        snapshot fuel (h ++ h2) v' = Some t /\
        fresh_for h v v') :
  forall props (h : heap) ps,
    snapshot_props (snapshot fuel h) props = Some ps ->
    exists props' h2,
      clone_props (cloneDeep fuel) props h = Some (props', h ++ h2) /\
      snapshot_props (snapshot fuel (h ++ h2)) props' = Some ps.
Proof.
  induction props as [|[k v] rest IHprops]; intros h ps Hps.
  - exists [], []. rewrite app_nil_r. split; [reflexivity|assumption].
  - cbn [snapshot_props] in Hps.
    destruct (snapshot fuel h v) as [x|] eqn:Hx; [|discriminate].
    destruct (snapshot_props (snapshot fuel h) rest) as [rest_ps|] eqn:Hrest;
      [|discriminate].
    injection Hps as <-.
    destruct (IH v h x Hx) as (v' & h1 & Hclone & Hsnap & _).
    destruct (IHprops (h ++ h1) rest_ps) as (rest' & h2 & Hclones & Hsnaps).
    { eapply snapshot_props_mono; [|exact Hrest].
      intros; apply snapshot_extend; assumption. }
    exists ((k, v') :: rest'), (h1 ++ h2). rewrite app_assoc.
    cbn [clone_props snapshot_props]. rewrite Hclone, Hclones.
    split; [reflexivity|].
    rewrite (snapshot_extend _ _ h2 _ _ Hsnap), Hsnaps. reflexivity.
Qed.

(** [cloneDeep] of what reads as [t]: the heap grows, the earlier objects
    stay, and the copy reads as [t] from objects that are all new. *)
Lemma cloneDeep_spec fuel : forall v (h : heap) t,
  snapshot fuel h v = Some t ->
  exists v' h2,
    cloneDeep fuel v h = Some (v', h ++ h2) /\
    snapshot fuel (h ++ h2) v' = Some t /\
    fresh_for h v v'.
Proof.
  induction fuel as [|fuel IH]; intros [d|l] h t Hsnap;
    cbn [snapshot cloneDeep] in *; try discriminate.
  - exists (HData d), []. rewrite app_nil_r. repeat split; assumption.
  - exists (HData d), []. rewrite app_nil_r. repeat split; assumption.
  - destruct (h !! l) as [props|] eqn:Hl; [|discriminate].
    destruct (snapshot_props (snapshot fuel h) props) as [ps|] eqn:Hps;
      [|discriminate].
    injection Hsnap as <-.
    destruct (clone_props_spec fuel IH props h ps Hps)
      as (props' & h2 & Hclone & Hsnaps).
    rewrite Hclone.
    exists (HRef (length (h ++ h2))), (h2 ++ [props']).
    rewrite app_assoc. split; [reflexivity|]. split.
    + cbn [snapshot]. rewrite list_lookup_middle by reflexivity.
      rewrite (snapshot_props_mono _ (snapshot fuel ((h ++ h2) ++ [props']))
                 _ _ (fun v t => snapshot_extend fuel (h ++ h2) [props'] v t)
                 Hsnaps).
      reflexivity.
    + cbn [fresh_for]. rewrite length_app. lia.
Qed.

Lemma snapshot_more_fuel fuel : forall (h : heap) v t,
  snapshot fuel h v = Some t -> snapshot (S fuel) h v = Some t.
Proof.
  induction fuel as [|fuel IH]; intros h [d|l] t Hsnap;
    try assumption; try discriminate.
  cbn [snapshot] in Hsnap. change (snapshot (S (S fuel)) h (HRef l))
    with (match h !! l with
          | Some props =>
              match snapshot_props (snapshot (S fuel) h) props with
              | Some props' => Some (VObj props')
              | None => None
              end
          | None => None
          end).
  destruct (h !! l) as [props|]; [|discriminate].
  destruct (snapshot_props (snapshot fuel h) props) as [ps|] eqn:Hps;
    [|discriminate].
  rewrite (snapshot_props_mono _ (snapshot (S fuel) h) _ _
             (fun v t => IH h v t) Hps).
  assumption.
Qed.

Lemma snapshot_fuel_le fuel fuel' (h : heap) v t :
  fuel <= fuel' -> snapshot fuel h v = Some t -> snapshot fuel' h v = Some t.
Proof.
  induction 1 as [|fuel' _ IH]; [trivial|].
  intros Hsnap. apply snapshot_more_fuel, IH, Hsnap.
Qed.

End HeapFacts.

(** ** The identity service *)

Module IdentityFacts.
Import Svelte Persistent Heap Credentials Promise Identity HeapFacts.

Section WithJSON.
Context `{JSON}.

(** C3: [retrieveIdentity] and [retrieveCredential] never reject; they
    resolve to [null] when the keychain has nothing under the identifier and
    when what it has does not parse; so [retrieveIdentity('missing-key')]
    on an empty keychain resolves to [null]. *)
Theorem retrieval_resolves :
  (forall identifier (kc : Keychain.keychain),
     (exists v, retrieveIdentity identifier kc = Resolved v) /\
     (kc !! default (js "did") identifier = None ->
      retrieveIdentity identifier kc = Resolved VNull) /\
     (forall text,
        kc !! default (js "did") identifier = Some text ->
        JSON_parse text = None ->
        retrieveIdentity identifier kc = Resolved VNull)) /\
  (forall credentialId (kc : Keychain.keychain),
     (exists v, retrieveCredential credentialId kc = Resolved v) /\
     (kc !! credentialId = None ->
      retrieveCredential credentialId kc = Resolved VNull) /\
     (forall text,
        kc !! credentialId = Some text -> JSON_parse text = None ->
        retrieveCredential credentialId kc = Resolved VNull)) /\
  retrieveIdentity (Some (js "missing-key")) ∅ = Resolved VNull.
Proof.
  split; [|split; [|reflexivity]].
  - intros identifier kc. unfold retrieveIdentity, Keychain.get.
    destruct (kc !! default (js "did") identifier) as [text|];
      cbn [then_ catch_ Keychain.value].
    + split; [eexists; reflexivity|]. split; [discriminate|].
      intros ? [= <-] Hparse. unfold parse. rewrite Hparse. reflexivity.
    + split; [eexists; reflexivity|]. split; [reflexivity|discriminate].
  - intros credentialId kc. unfold retrieveCredential, Keychain.get.
    destruct (kc !! credentialId) as [text|];
      cbn [then_ catch_ Keychain.value].
    + split; [eexists; reflexivity|]. split; [discriminate|].
      intros ? [= <-] Hparse. unfold parse. rewrite Hparse. reflexivity.
    + split; [eexists; reflexivity|]. split; [reflexivity|discriminate].
Qed.

Lemma set_false (current : Value.value) ls :
  fst (persistent_set (js "hasSetupAccount") (VBool false) (current, ls))
  = VBool false.
Proof.
  unfold persistent_set, writable_set.
  destruct (safe_not_equal current (VBool false)) eqn:E; [reflexivity|].
  cbn [fst]. destruct current as [| |[|]|x| | |]; try discriminate; try reflexivity.
  cbn in E. destruct (is_nan x); discriminate.
Qed.

Lemma set_undefined (current : Value.value) ls :
  fst (persistent_set (js "dataVersion") VUndefined (current, ls)) = VUndefined.
Proof.
  unfold persistent_set, writable_set.
  destruct (safe_not_equal current VUndefined) eqn:E; [reflexivity|].
  cbn [fst]. destruct current; try discriminate; try reflexivity.
  cbn in E. destruct (is_nan x); discriminate.
Qed.

(** C2: after [clearIdentity()] the onboarding flag is [false], the data
    version is [undefined], the credential table reads as the literal of
    [defaultCredentials] (the eight keys, each with [data] null) and is an
    object that did not exist before (so neither the default object nor a
    table held earlier), every earlier object is as it was, and the keychain
    is empty. *)
Theorem clearIdentity_resets w :
  default_intact w ->
  exists w',
    clearIdentity w = Some (Resolved true, w') /\
    hasSetupAccount w' = VBool false /\
    dataVersion w' = VUndefined /\
    snapshot (depth (heap_ w')) (heap_ w') (HRef (credentials w'))
    = Some defaultCredentials_literal /\
    length (heap_ w) <= credentials w' /\
    credentials w' <> defaultCredentials w /\
    (forall l, l < length (heap_ w) ->
       credentials w' <> l /\ heap_ w' !! l = heap_ w !! l) /\
    keychain_ w' = ∅.
Proof.
  intros Hdefault. unfold default_intact in Hdefault.
  destruct (cloneDeep_spec _ _ _ _ Hdefault) as (v' & h2 & Hclone & Hsnap & Hfresh).
  destruct v' as [d|copy]; [contradiction|]. cbn [fresh_for] in Hfresh.
  unfold clearIdentity.
  pose proof (set_false (hasSetupAccount w) (localStorage w)) as Hsetup.
  destruct (persistent_set (js "hasSetupAccount") (VBool false)
              (hasSetupAccount w, localStorage w)) as [setup ls1].
  pose proof (set_undefined (dataVersion w) ls1) as Hversion.
  destruct (persistent_set (js "dataVersion") VUndefined (dataVersion w, ls1))
    as [version ls2].
  cbn [fst] in *. rewrite Hclone. cbn [Keychain.clear].
  eexists. split; [reflexivity|].
  cbn [hasSetupAccount dataVersion credentials heap_ keychain_].
  split; [assumption|]. split; [assumption|]. split.
  { eapply snapshot_fuel_le; [|exact Hsnap].
    unfold depth. rewrite length_app. lia. }
  split; [assumption|]. split.
  { assert (defaultCredentials w < length (heap_ w)) as Hlt; [|lia].
    unfold depth in Hdefault. cbn [snapshot] in Hdefault.
    destruct (heap_ w !! defaultCredentials w) eqn:E; [|discriminate].
    eapply lookup_lt_Some. exact E. }
  split; [|reflexivity].
  intros l Hl. split; [lia|]. apply lookup_app_l. assumption.
Qed.

End WithJSON.

Import LiteralJSON.

(** The store as the module leaves it on a fresh device. *)
Definition fresh_world : world :=
  match init_store ∅ ∅ with
  | Some w => w
  | None =>
      {| localStorage := ∅; hasSetupAccount := VUndefined;
         dataVersion := VUndefined; defaultCredentials := 0; credentials := 0;
         heap_ := []; keychain_ := ∅ |}
  end.

(** A credential table in which the personal entry has been filled in. *)
Definition filled_table : Value.value :=
  VObj [(js "personal",
         VObj [(js "heading", VStr (js "Home Office"));
               (js "subheading", VStr (js "My Identity"));
               (js "data",
                VObj [(js "firstName", VStr (js "Alice"));
                      (js "lastName", VStr (js "Liddell"))])]);
        (js "immunity", entry "Public Health Authority" "Health Certificate");
        (js "visa", entry "Foreign Border Agency" "Travel Visa");
        (js "company", entry "Company House" "Business Details");
        (js "bank", entry "SNS Bank" "Bank details");
        (js "insurance", entry "Insurance" "Insurance details");
        (js "futureCommitment",
           entry "The Far Future Foundation" "Future Commitment");
        (js "presentCommitment",
           entry "The Now Foundation" "Present Commitment")].

(** The store of an account that has been set up: the onboarding flag is
    set, a data version is recorded, the credential table holds data, the
    storage has the two cells' texts and a key of its own, and the keychain
    holds an identity. *)
Definition setup_world : world :=
  match alloc filled_table (heap_ fresh_world) with
  | (HRef table, h) =>
      {| localStorage :=
           {[ js "hasSetupAccount" := js "true";
              js "dataVersion" := 34%N :: js "1.0" ++ [34%N];
              js "theme" := js "dark" ]};
         hasSetupAccount := VBool true;
         dataVersion := VStr (js "1.0");
         defaultCredentials := defaultCredentials fresh_world;
         credentials := table;
         heap_ := h;
         keychain_ := {[ js "did" := 34%N :: js "did:iota:main:1234" ++ [34%N] ]} |}
  | _ => fresh_world
  end.

Lemma clearIdentity_resets_witness :
  default_intact setup_world /\
  (hasSetupAccount setup_world = VBool true /\
   dataVersion setup_world = VStr (js "1.0") /\
   snapshot (depth (heap_ setup_world)) (heap_ setup_world)
     (HRef (credentials setup_world)) = Some filled_table /\
   keychain_ setup_world !! js "did"
   = Some (34%N :: js "did:iota:main:1234" ++ [34%N])) /\
  exists w',
    clearIdentity setup_world = Some (Resolved true, w') /\
    hasSetupAccount w' = VBool false /\
    dataVersion w' = VUndefined /\
    snapshot (depth (heap_ w')) (heap_ w') (HRef (credentials w'))
    = Some defaultCredentials_literal /\
    length (heap_ setup_world) <= credentials w' /\
    credentials w' <> defaultCredentials setup_world /\
    (forall l, l < length (heap_ setup_world) ->
       credentials w' <> l /\ heap_ w' !! l = heap_ setup_world !! l) /\
    keychain_ w' = ∅.
Proof.
  assert (default_intact setup_world) as Hdefault by (vm_compute; reflexivity).
  split; [exact Hdefault|].
  split; [repeat split; vm_compute; reflexivity|].
  exact (clearIdentity_resets setup_world Hdefault).
Defined.

End IdentityFacts.

(** ** More of the helpers *)

(** *** Hexadecimal text and UTF-8 *)

Module TextFacts.
Import Hex Utf8 Text BitFacts HexFacts Utf8Facts.

Lemma hex_digit_is_hex_digit d :
  (d < 16)%N -> is_hex_digit (hex_digit d) = true.
Proof.
  intros Hd. unfold is_hex_digit, hex_digit.
  destruct (d <? 10)%N eqn:E; [apply N.ltb_lt in E|apply N.ltb_ge in E];
    apply orb_true_iff; [left|right]; apply andb_true_iff;
    rewrite !N.leb_le; lia.
Qed.

Lemma toString_hex_digits buf :
  Forall (fun c => is_hex_digit c = true) (toString_hex buf).
Proof.
  unfold toString_hex. induction buf as [|b buf IH]; [constructor|].
  cbn [flat_map app].
  pose proof (to_N_lt b) as Hb.
  constructor; [apply hex_digit_is_hex_digit; apply N.Div0.div_lt_upper_bound; lia|].
  constructor; [apply hex_digit_is_hex_digit; apply N.mod_lt; discriminate|].
  exact IH.
Qed.

(** X1: the text [convertByteArrayToHex] returns, read as hexadecimal (as
    [decrypt] reads the vector with [Buffer.from(text, 'hex')]), gives back
    the bytes. *)
Theorem convertByteArrayToHex_roundtrip bytes :
  from_hex (convertByteArrayToHex bytes) = bytes.
Proof.
  rewrite convertByteArrayToHex_toString_hex. apply from_hex_toString_hex.
Qed.

(** X2: [convertByteArrayToHex] writes two digits of [0-9a-f] for every
    byte, and the same text as the buffer's own [toString('hex')]. *)
Theorem convertByteArrayToHex_shape bytes :
  length (convertByteArrayToHex bytes) = 2 * length bytes /\
  Forall (fun c => is_hex_digit c = true) (convertByteArrayToHex bytes) /\
  convertByteArrayToHex bytes = toString_hex bytes.
Proof.
  rewrite convertByteArrayToHex_toString_hex.
  split; [apply length_toString_hex|].
  split; [apply toString_hex_digits|reflexivity].
Qed.

Lemma utf8ToBytes_cons c rest :
  utf8ToBytes (c :: rest) =
    if is_high c then
      match rest with
      | d :: rest' =>
          if is_low d
          then encode_code_point (pair_code_point c d) ++ utf8ToBytes rest'
          else replacement ++ utf8ToBytes rest
      | [] => replacement
      end
    else if is_low c then replacement ++ utf8ToBytes rest
    else encode_code_point c ++ utf8ToBytes rest.
Proof. reflexivity. Qed.

Lemma toWellFormed_cons c rest :
  toWellFormed (c :: rest) =
    if is_high c then
      match rest with
      | d :: rest' =>
          if is_low d then c :: d :: toWellFormed rest'
          else 0xFFFD%N :: toWellFormed rest
      | [] => [0xFFFD%N]
      end
    else if is_low c then 0xFFFD%N :: toWellFormed rest
    else c :: toWellFormed rest.
Proof. reflexivity. Qed.

Lemma utf8Slice_replacement tl :
  utf8Slice (replacement ++ tl) = 0xFFFD%N :: utf8Slice tl.
Proof. apply (decode_encode_bmp 0xFFFD tl); reflexivity. Qed.

Lemma utf8_decode_encode_bounded n : forall s,
  length s <= n -> code_units_16 s ->
  utf8Slice (utf8ToBytes s) = toWellFormed s.
Proof.
  unfold code_units_16.
  induction n as [|n IH]; intros s Hlen Hall.
  { destruct s; [reflexivity|simpl in Hlen; lia]. }
  destruct s as [|c rest]; [reflexivity|].
  rewrite utf8ToBytes_cons, toWellFormed_cons.
  inversion Hall as [|? ? Hc Hrest]; subst.
  cbn [length] in Hlen.
  destruct (is_high c) eqn:Hh.
  - destruct rest as [|d rest'].
    + rewrite <- (app_nil_r replacement). apply utf8Slice_replacement.
    + destruct (is_low d) eqn:Hd.
      * rewrite decode_encode_pair by assumption.
        inversion Hrest; subst. cbn [length] in Hlen.
        rewrite IH; [reflexivity|lia|assumption].
      * rewrite utf8Slice_replacement.
        rewrite IH; [reflexivity|lia|assumption].
  - destruct (is_low c) eqn:Hl.
    + rewrite utf8Slice_replacement.
      rewrite IH; [reflexivity|lia|assumption].
    + rewrite decode_encode_bmp by assumption.
      rewrite IH; [reflexivity|lia|assumption].
Qed.

(** What comes back of a string written as UTF-8 and read again. *)
Lemma utf8_decode_encode s :
  code_units_16 s -> utf8Slice (utf8ToBytes s) = toWellFormed s.
Proof. apply (utf8_decode_encode_bounded (length s)). lia. Qed.

Lemma toWellFormed_well_formed_bounded n : forall s,
  length s <= n -> well_formed s = true -> toWellFormed s = s.
Proof.
  induction n as [|n IH]; intros s Hlen Hwf.
  { destruct s; [reflexivity|simpl in Hlen; lia]. }
  destruct s as [|c rest]; [reflexivity|].
  rewrite toWellFormed_cons. cbn [well_formed length] in *.
  destruct (is_high c) eqn:Hh.
  - destruct rest as [|d rest']; [discriminate|].
    apply andb_true_iff in Hwf as [Hd Hwf]. rewrite Hd.
    cbn [length] in Hlen. rewrite IH; [reflexivity|lia|assumption].
  - apply andb_true_iff in Hwf as [Hc Hwf].
    apply andb_true_iff in Hc as [Hl%negb_true_iff Hc].
    rewrite Hl, IH; [reflexivity|lia|assumption].
Qed.

Lemma toWellFormed_well_formed s :
  well_formed s = true -> toWellFormed s = s.
Proof. apply (toWellFormed_well_formed_bounded (length s)). lia. Qed.

Lemma length_encode_code_point cp :
  length (encode_code_point cp)
  = if (cp <? 0x80)%N then 1 else if (cp <? 0x800)%N then 2
    else if (cp <? 0x10000)%N then 3 else 4.
Proof.
  unfold encode_code_point.
  destruct (cp <? 0x80)%N; [reflexivity|].
  destruct (cp <? 0x800)%N; [reflexivity|].
  destruct (cp <? 0x10000)%N; reflexivity.
Qed.

Lemma high_not_ascii c : is_high c = true -> (0x80 <= c)%N.
Proof.
  unfold is_high. intros [H1 _]%andb_true_iff. apply N.leb_le in H1. lia.
Qed.

Lemma low_not_ascii c : is_low c = true -> (0x80 <= c)%N.
Proof.
  unfold is_low. intros [H1 _]%andb_true_iff. apply N.leb_le in H1. lia.
Qed.

(** A string has at least as many UTF-8 bytes as code units, and as many
    only when every unit is ASCII. *)
Lemma length_utf8ToBytes_bounded n : forall s,
  length s <= n ->
  length s <= length (utf8ToBytes s) /\
  (length (utf8ToBytes s) = length s <-> Forall (fun c => (c < 0x80)%N) s).
Proof.
  induction n as [|n IH]; intros s Hlen.
  { destruct s; [|simpl in Hlen; lia].
    split; [reflexivity|]. split; [constructor|reflexivity]. }
  destruct s as [|c rest].
  { split; [reflexivity|]. split; [constructor|reflexivity]. }
  cbn [length] in Hlen.
  destruct (IH rest ltac:(lia)) as [Hle Hiff].
  rewrite utf8ToBytes_cons. cbn [length].
  destruct (is_high c) eqn:Hh.
  - pose proof (high_not_ascii c Hh) as Hc.
    assert (~ Forall (fun c => (c < 0x80)%N) (c :: rest)) as Hnot
      by (intros Hall; inversion Hall; subst; lia).
    destruct rest as [|d rest'].
    + cbn. split; [lia|]. split; [intros; lia|intros; contradiction].
    + destruct (is_low d) eqn:Hd.
      * cbn [length] in *.
        destruct (IH rest' ltac:(lia)) as [Hle' _].
        assert (length (encode_code_point (pair_code_point c d)) = 4) as Hpair.
        { rewrite length_encode_code_point, pair_code_point_value by assumption.
          ltb_cases; reflexivity. }
        rewrite length_app, Hpair.
        split; [lia|]. split; [intros; lia|intros; contradiction].
      * rewrite length_app. cbn [replacement length] in *.
        split; [lia|]. split; [intros; lia|intros; contradiction].
  - destruct (is_low c) eqn:Hl.
    + pose proof (low_not_ascii c Hl) as Hc.
      rewrite length_app. cbn [replacement length].
      split; [lia|]. split; [intros; lia|].
      intros Hall; inversion Hall; subst; lia.
    + rewrite length_app, length_encode_code_point.
      destruct (c <? 0x80)%N eqn:E1;
        [apply N.ltb_lt in E1|apply N.ltb_ge in E1].
      * split; [lia|]. split.
        -- intros Heq. constructor; [assumption|]. apply Hiff. lia.
        -- intros Hall. inversion Hall; subst. f_equal.
           apply (proj2 Hiff). assumption.
      * assert (2 <= (if (c <? 0x800)%N then 2
                      else if (c <? 0x10000)%N then 3 else 4)) as Hlen2
          by (destruct (c <? 0x800)%N; [lia|]; destruct (c <? 0x10000)%N; lia).
        split; [lia|]. split; [intros; lia|].
        intros Hall; inversion Hall; subst; lia.
Qed.

Lemma length_utf8ToBytes s :
  length s <= length (utf8ToBytes s) /\
  (length (utf8ToBytes s) = length s <-> Forall (fun c => (c < 0x80)%N) s).
Proof. apply (length_utf8ToBytes_bounded (length s)). lia. Qed.

End TextFacts.

(** *** The crypto helper *)

Module CryptoMore.
Import Hex Utf8 Text Crypto BitFacts HexFacts Utf8Facts CryptoFacts TextFacts.

Lemma length_pad data : length (pad data) = 16 * (length data / 16 + 1).
Proof.
  unfold pad. rewrite length_app, length_replicate.
  pose proof (Nat.div_mod_eq (length data) 16) as Hdm.
  pose proof (Nat.mod_upper_bound (length data) 16) as Hlt. lia.
Qed.

Lemma length_blocks data : length (blocks data) = length data / 16.
Proof. unfold blocks. rewrite length_reshape, length_replicate. reflexivity. Qed.

Lemma xor_nil_inv (a b : list byte) : xor a b = [] -> a = [] \/ b = [].
Proof. destruct a, b; try discriminate; auto. Qed.

Lemma bxor_cancel_mask a i m : bxor (bxor a m) (bxor i m) = bxor a i.
Proof. AESFacts.bxor_bits. Qed.

Lemma xor_cancel_mask a : forall i m,
  length a = length i -> length i = length m ->
  xor (xor a m) (xor i m) = xor a i.
Proof.
  unfold xor. induction a as [|x a IH]; intros [|y i] [|z m] Hi Hm;
    try discriminate; [reflexivity|].
  cbn [zip_with]. rewrite bxor_cancel_mask. f_equal.
  apply IH; simpl in *; lia.
Qed.

Lemma split_nonempty sep s : split sep s <> [].
Proof.
  destruct s as [|c rest]; cbn [split]; [discriminate|].
  destruct (c =? sep)%N; [discriminate|].
  destruct (split sep rest); discriminate.
Qed.

Lemma join_split sep s : join sep (split sep s) = s.
Proof.
  induction s as [|c rest IH]; [reflexivity|].
  cbn [split]. destruct (c =? sep)%N eqn:E.
  - apply N.eqb_eq in E. subst c.
    pose proof (split_nonempty sep rest) as Hne.
    destruct (split sep rest) as [|part parts]; [contradiction|].
    cbn [join app] in *. rewrite IH. reflexivity.
  - destruct (split sep rest) as [|part parts].
    + cbn [join] in *. subst rest. reflexivity.
    + destruct parts as [|part' parts']; cbn [join app] in *;
        rewrite <- IH; reflexivity.
Qed.

(** What [shift()] and [join(':')] make of the parts of a text with a
    colon: what is before the first colon, and what is after it. *)
Lemma split_at_first_colon before after :
  Forall (fun c => c <> 58%N) before ->
  hd [] (split 58 (before ++ 58%N :: after)) = before /\
  join 58 (tl (split 58 (before ++ 58%N :: after))) = after.
Proof.
  intros Hbefore. rewrite split_app_sep by assumption. cbn [hd tl].
  split; [reflexivity|apply join_split].
Qed.

Section WithCipher.
Context `{BlockCipher}.

Lemma length_cipher_update_final c data :
  length (cipher_key c) = 32 -> length (cipher_iv c) = 16 ->
  length (cipher_update_final c data) = 16 * (length data / 16 + 1).
Proof.
  intros Hk Hiv. unfold cipher_update_final.
  rewrite length_concat_blocks
    by (apply cbc_encrypt_lengths; [assumption..|apply blocks_pad_lengths]).
  rewrite length_cbc_encrypt, length_blocks, length_pad.
  rewrite (Nat.mul_comm 16 (_ + 1)), Nat.div_mul by discriminate. lia.
Qed.

Lemma encrypt_ok key payload rnd :
  length (utf8ToBytes key) = 32 ->
  let iv := fst (getRandomValues 16 rnd) in
  fst (encrypt key payload rnd)
  = Ok (convertByteArrayToHex iv ++ js ":" ++
        toString_hex
          (cipher_update_final {| cipher_key := utf8ToBytes key; cipher_iv := iv |}
             (utf8ToBytes payload))).
Proof.
  intros Hk iv. subst iv. unfold encrypt.
  pose proof (length_getRandomValues 16 rnd) as Hiv.
  destruct (getRandomValues 16 rnd) as [iv rnd']. cbn [fst] in *.
  rewrite createCipheriv_ok by assumption. reflexivity.
Qed.

Lemma decrypt_bytes_cipher key iv data :
  length (utf8ToBytes key) = 32 -> length iv = 16 ->
  decrypt_bytes key
    (convertByteArrayToHex iv ++ js ":" ++
     toString_hex
       (cipher_update_final {| cipher_key := utf8ToBytes key; cipher_iv := iv |}
          data))
  = Ok data.
Proof.
  intros Hk Hiv. rewrite decrypt_bytes_hex.
  rewrite createDecipheriv_ok by assumption. unfold Crypto.bind.
  apply decipher_cipher; assumption.
Qed.

(** X3: [decrypt] takes the text before the first colon for the vector
    and everything after that colon, further colons included, for the
    encrypted part: it returns what the decipher object made with the key
    and the bytes read from the first part returns for the bytes read from
    the rest, as text. *)
Theorem decrypt_splits_at_first_colon key before after :
  Forall (fun c => c <> 58%N) before ->
  decrypt key (before ++ 58%N :: after)
  = (let* decipher := createDecipheriv (utf8ToBytes key) (from_hex before) in
     let* decrypted := decipher_update_final decipher (from_hex after) in
     Ok (utf8Slice decrypted)).
Proof.
  intros Hbefore. unfold decrypt, decrypt_bytes.
  destruct (split_at_first_colon before after Hbefore) as [-> ->].
  destruct (createDecipheriv (utf8ToBytes key) (from_hex before)); reflexivity.
Qed.

(** X4: for a key of 32 bytes, [decrypt] returns of what [encrypt] made of
    any payload the payload with every unpaired surrogate replaced by
    U+FFFD, whatever the random source yields. *)
Theorem decrypt_encrypt_toWellFormed key payload rnd :
  length (utf8ToBytes key) = 32 -> code_units_16 payload ->
  exists text,
    fst (encrypt key payload rnd) = Ok text /\
    decrypt key text = Ok (toWellFormed payload).
Proof.
  intros Hk H16. eexists. split; [apply encrypt_ok; assumption|].
  unfold decrypt.
  rewrite decrypt_bytes_cipher by (try apply length_getRandomValues; assumption).
  unfold Crypto.bind. rewrite utf8_decode_encode by assumption. reflexivity.
Qed.

(** X5: for a key of 32 bytes, the text [encrypt] returns is 32 digits, a
    colon and 32 digits for each block of the ciphertext, which has one
    block more than the payload has whole blocks of 16 bytes: the text of the
    empty payload has 65 characters. *)
Theorem encrypt_text_length key payload rnd :
  length (utf8ToBytes key) = 32 ->
  exists text,
    fst (encrypt key payload rnd) = Ok text /\
    length text = 33 + 32 * (length (utf8ToBytes payload) / 16 + 1).
Proof.
  intros Hk. eexists. split; [apply encrypt_ok; assumption|].
  rewrite !length_app, convertByteArrayToHex_toString_hex, !length_toString_hex.
  rewrite length_getRandomValues.
  rewrite length_cipher_update_final
    by (try apply length_getRandomValues; assumption).
  cbn [js length map list_ascii_of_string]. lia.
Qed.

(** X6: the text [encrypt] returns carries the random vector in clear
    before the colon, so two calls that draw different vectors return
    different texts, whatever the keys and the payloads. *)
Theorem encrypt_text_shows_vector key1 key2 payload1 payload2 rnd1 rnd2 text1 text2 :
  fst (encrypt key1 payload1 rnd1) = Ok text1 ->
  fst (encrypt key2 payload2 rnd2) = Ok text2 ->
  from_hex (hd [] (split 58 text1)) = fst (getRandomValues 16 rnd1) /\
  (fst (getRandomValues 16 rnd1) <> fst (getRandomValues 16 rnd2) ->
   text1 <> text2).
Proof.
  assert (forall key payload rnd text,
             fst (encrypt key payload rnd) = Ok text ->
             from_hex (hd [] (split 58 text)) = fst (getRandomValues 16 rnd))
    as Hshow.
  { intros key payload rnd text. unfold encrypt.
    destruct (getRandomValues 16 rnd) as [iv rnd']. cbn [fst].
    destruct (createCipheriv (utf8ToBytes key) iv) as [c|e]; [|discriminate].
    unfold Crypto.bind. intros [= <-].
    rewrite convertByteArrayToHex_toString_hex.
    change (js ":" ++ ?x) with (58%N :: x).
    rewrite split_app_sep by apply toString_hex_no_colon.
    cbn [hd]. apply from_hex_toString_hex. }
  intros H1 H2. split; [eapply Hshow; eassumption|].
  intros Hne ->. apply Hne.
  rewrite <- (Hshow _ _ _ _ H1), <- (Hshow _ _ _ _ H2). reflexivity.
Qed.

(** X7: [decrypt] makes its cipher object first: with a vector of 16 bytes
    and a key that is not 32 bytes long it throws on the key's length, and
    with a key of 32 bytes and a vector that is not 16 bytes long it throws
    on the vector's length, whatever the encrypted part is. *)
Theorem decrypt_checks_key_and_vector key iv encrypted :
  (length (utf8ToBytes key) <> 32 -> length iv = 16 ->
   decrypt key (toString_hex iv ++ js ":" ++ toString_hex encrypted)
   = Throw (InvalidKeyLength (length (utf8ToBytes key)))) /\
  (length (utf8ToBytes key) = 32 -> length iv <> 16 ->
   decrypt key (toString_hex iv ++ js ":" ++ toString_hex encrypted)
   = Throw (InvalidIvLength (length iv))).
Proof.
  split; intros Hk Hiv; unfold decrypt;
    rewrite <- convertByteArrayToHex_toString_hex, decrypt_bytes_hex;
    unfold createDecipheriv.
  - apply Nat.eqb_neq in Hk. apply Nat.eqb_eq in Hiv. rewrite Hiv, Hk.
    reflexivity.
  - apply Nat.eqb_neq in Hiv. rewrite Hiv. reflexivity.
Qed.

(** X8: the key counts in bytes, not in characters: with a key of 32
    characters [encrypt] returns a text exactly when every character of the
    key is ASCII, and throws on the key's length otherwise. *)
Theorem encrypt_key_of_32_characters key payload rnd :
  length key = 32 ->
  ((exists text, fst (encrypt key payload rnd) = Ok text) <->
   Forall (fun c => (c < 0x80)%N) key) /\
  (~ Forall (fun c => (c < 0x80)%N) key ->
   fst (encrypt key payload rnd)
   = Throw (InvalidKeyLength (length (utf8ToBytes key))) /\
   32 < length (utf8ToBytes key)).
Proof.
  intros Hlen. destruct (length_utf8ToBytes key) as [Hle Hiff].
  rewrite Hlen in Hle, Hiff.
  assert (~ Forall (fun c => (c < 0x80)%N) key ->
          length (utf8ToBytes key) <> 32) as Hnot
    by (intros Hno Heq; apply Hno, Hiff, Heq).
  split; [split|].
  - intros [text Htext].
    destruct (Nat.eq_dec (length (utf8ToBytes key)) 32) as [Heq|Hne];
      [apply Hiff, Heq|].
    rewrite RoundTrip.encrypt_invalid_key in Htext by assumption.
    discriminate Htext.
  - intros Hall. eexists. apply encrypt_ok. apply Hiff, Hall.
  - intros Hno. split; [|specialize (Hnot Hno); lia].
    apply RoundTrip.encrypt_invalid_key, Hnot, Hno.
Qed.

Lemma cipher_update_final_mask key iv mask data :
  length iv = 16 -> length mask = 16 -> 16 <= length data ->
  cipher_update_final {| cipher_key := key; cipher_iv := xor iv mask |}
    (xor (take 16 data) mask ++ drop 16 data)
  = cipher_update_final {| cipher_key := key; cipher_iv := iv |} data.
Proof.
  intros Hiv Hmask Hdata. unfold cipher_update_final. cbn [cipher_key cipher_iv].
  assert (length (take 16 data) = 16) as Hb0 by (rewrite length_take; lia).
  assert (length (xor (take 16 data) mask) = 16) as Hb0'
    by (rewrite length_xor; congruence).
  rewrite <- (take_drop 16 data) at 3.
  rewrite !pad_app, !blocks_app by assumption.
  cbn [cbc_encrypt].
  rewrite xor_cancel_mask by congruence. reflexivity.
Qed.

(** X9: [decrypt] checks no integrity. Of a text [encrypt] made of a payload
    of at least 16 bytes, with the vector before the colon replaced by the
    vector combined with a mask, [decrypt] recovers without an error the
    payload's bytes with the first 16 combined with the same mask. *)
Theorem decrypt_vector_malleable key payload rnd mask :
  length (utf8ToBytes key) = 32 -> length mask = 16 ->
  16 <= length (utf8ToBytes payload) ->
  let iv := fst (getRandomValues 16 rnd) in
  exists encrypted,
    fst (encrypt key payload rnd)
    = Ok (convertByteArrayToHex iv ++ js ":" ++ toString_hex encrypted) /\
    decrypt key
      (convertByteArrayToHex (xor iv mask) ++ js ":" ++ toString_hex encrypted)
    = Ok (utf8Slice (xor (take 16 (utf8ToBytes payload)) mask
                     ++ drop 16 (utf8ToBytes payload))).
Proof.
  intros Hk Hmask Hdata iv.
  assert (length iv = 16) as Hiv by apply length_getRandomValues.
  eexists. split; [apply encrypt_ok; assumption|].
  fold iv. rewrite <- (cipher_update_final_mask _ iv mask) by assumption.
  unfold decrypt. rewrite decrypt_bytes_cipher; [reflexivity|assumption|].
  rewrite length_xor; congruence.
Qed.

End WithCipher.

Import AESFacts RoundTrip.

Lemma decrypt_splits_at_first_colon_witness :
  Forall (fun c => c <> 58%N) (js "030a11181f262d343b424950575e656c") /\
  decrypt sample_key
    (js "030a11181f262d343b424950575e656c" ++
     58%N :: js "34713908002bb8a56dc28d407ac8bf69:00:ff")
  = (let* decipher :=
       createDecipheriv (utf8ToBytes sample_key)
         (from_hex (js "030a11181f262d343b424950575e656c")) in
     let* decrypted :=
       decipher_update_final decipher
         (from_hex (js "34713908002bb8a56dc28d407ac8bf69:00:ff")) in
     Ok (utf8Slice decrypted)) /\
  decrypt sample_key
    (js "030a11181f262d343b424950575e656c" ++
     58%N :: js "34713908002bb8a56dc28d407ac8bf69:00:ff")
  = Ok (js "hello").
Proof.
  assert (Forall (fun c => c <> 58%N) (js "030a11181f262d343b424950575e656c"))
    as Hbefore by (repeat constructor; discriminate).
  split; [exact Hbefore|].
  split; [|vm_compute; reflexivity].
  exact (decrypt_splits_at_first_colon sample_key
           (js "030a11181f262d343b424950575e656c")
           (js "34713908002bb8a56dc28d407ac8bf69:00:ff") Hbefore).
Defined.

Lemma decrypt_encrypt_toWellFormed_witness :
  length (utf8ToBytes sample_key) = 32 /\
  code_units_16 [0x68; 0xD83D; 0x69; 0xDE00]%N /\
  exists text,
    fst (encrypt sample_key [0x68; 0xD83D; 0x69; 0xDE00]%N sample_entropy)
    = Ok text /\
    decrypt sample_key text = Ok [0x68; 0xFFFD; 0x69; 0xFFFD]%N.
Proof.
  split; [reflexivity|].
  assert (code_units_16 [0x68; 0xD83D; 0x69; 0xDE00]%N) as H16
    by (repeat constructor).
  split; [exact H16|].
  exact (decrypt_encrypt_toWellFormed sample_key [0x68; 0xD83D; 0x69; 0xDE00]%N
           sample_entropy eq_refl H16).
Defined.

Lemma encrypt_text_length_witness :
  length (utf8ToBytes sample_key) = 32 /\
  exists text,
    fst (encrypt sample_key [] sample_entropy) = Ok text /\
    length text = 65.
Proof.
  split; [reflexivity|].
  exact (encrypt_text_length sample_key [] sample_entropy eq_refl).
Defined.

Lemma encrypt_key_of_32_characters_witness :
  length (js "0123456789abcdef0123456789abcde" ++ [0xE9%N]) = 32 /\
  ((exists text,
      fst (encrypt (js "0123456789abcdef0123456789abcde" ++ [0xE9%N])
             (js "hello") sample_entropy) = Ok text) <->
   Forall (fun c => (c < 0x80)%N)
     (js "0123456789abcdef0123456789abcde" ++ [0xE9%N])) /\
  (~ Forall (fun c => (c < 0x80)%N)
       (js "0123456789abcdef0123456789abcde" ++ [0xE9%N]) ->
   fst (encrypt (js "0123456789abcdef0123456789abcde" ++ [0xE9%N])
          (js "hello") sample_entropy)
   = Throw (InvalidKeyLength
              (length (utf8ToBytes
                         (js "0123456789abcdef0123456789abcde" ++ [0xE9%N])))) /\
   32 < length (utf8ToBytes
                  (js "0123456789abcdef0123456789abcde" ++ [0xE9%N]))).
Proof.
  split; [reflexivity|].
  exact (encrypt_key_of_32_characters
           (js "0123456789abcdef0123456789abcde" ++ [0xE9%N]) (js "hello")
           sample_entropy eq_refl).
Defined.

Definition other_entropy : entropy := fun i => byte_of_N (N.of_nat (i + 1)).

Lemma encrypt_text_shows_vector_witness :
  fst (encrypt sample_key (js "hello") sample_entropy)
  = Ok (js "030a11181f262d343b424950575e656c:34713908002bb8a56dc28d407ac8bf69") /\
  fst (encrypt sample_key (js "hello") other_entropy)
  = Ok (js "0102030405060708090a0b0c0d0e0f10:f7c40e43f10574e352b57c7e28117f1d") /\
  from_hex
    (hd [] (split 58
       (js "030a11181f262d343b424950575e656c:34713908002bb8a56dc28d407ac8bf69")))
  = fst (getRandomValues 16 sample_entropy) /\
  (fst (getRandomValues 16 sample_entropy)
   <> fst (getRandomValues 16 other_entropy) ->
   js "030a11181f262d343b424950575e656c:34713908002bb8a56dc28d407ac8bf69"
   <> js "0102030405060708090a0b0c0d0e0f10:f7c40e43f10574e352b57c7e28117f1d").
Proof.
  assert (fst (encrypt sample_key (js "hello") sample_entropy)
          = Ok (js "030a11181f262d343b424950575e656c:34713908002bb8a56dc28d407ac8bf69"))
    as H1 by (vm_compute; reflexivity).
  assert (fst (encrypt sample_key (js "hello") other_entropy)
          = Ok (js "0102030405060708090a0b0c0d0e0f10:f7c40e43f10574e352b57c7e28117f1d"))
    as H2 by (vm_compute; reflexivity).
  split; [exact H1|]. split; [exact H2|].
  exact (encrypt_text_shows_vector _ _ _ _ _ _ _ _ H1 H2).
Defined.

Definition sample_mask : list byte := x01 :: replicate 15 x00.

Lemma decrypt_vector_malleable_witness :
  length (utf8ToBytes sample_key) = 32 /\
  length sample_mask = 16 /\
  16 <= length (utf8ToBytes (js "pay 100 to alice, thanks")) /\
  let iv := fst (getRandomValues 16 sample_entropy) in
  exists encrypted,
    fst (encrypt sample_key (js "pay 100 to alice, thanks") sample_entropy)
    = Ok (convertByteArrayToHex iv ++ js ":" ++ toString_hex encrypted) /\
    decrypt sample_key
      (convertByteArrayToHex (xor iv sample_mask) ++ js ":" ++
       toString_hex encrypted)
    = Ok (js "qay 100 to alice, thanks").
Proof.
  split; [reflexivity|]. split; [reflexivity|].
  assert (16 <= length (utf8ToBytes (js "pay 100 to alice, thanks"))) as Hlen
    by (apply Nat.leb_le; reflexivity).
  split; [exact Hlen|].
  exact (decrypt_vector_malleable sample_key (js "pay 100 to alice, thanks")
           sample_entropy sample_mask eq_refl eq_refl Hlen).
Defined.

End CryptoMore.

(** *** Persistent cells, the store at start and the identity service *)

Module StoreMore.
Import Svelte Persistent Heap Credentials Promise Identity.
Import IdentityStore StoreCells Reach Repeat.
Import PersistentFacts HeapFacts IdentityFacts.

Lemma keys_differ : js "hasSetupAccount" <> js "dataVersion".
Proof. intros E. vm_compute in E. discriminate E. Qed.

Section WithJSON.
Context `{JSON}.

Lemma mirror_other (key k' : jsstring) (v : Value.value) (ls : storage) :
  k' <> key -> mirror key v ls !! k' = ls !! k'.
Proof. intros Hne. unfold mirror. apply lookup_insert_ne. congruence. Qed.

Lemma mirror_same (key : jsstring) (v : Value.value) (ls : storage) :
  mirror key v ls !! key = Some (to_item (JSON_stringify v)).
Proof. unfold mirror. apply lookup_insert_eq. Qed.

Lemma persistent_set_other (key k' : jsstring) (v current : Value.value)
    (ls : storage) :
  k' <> key -> snd (persistent_set key v (current, ls)) !! k' = ls !! k'.
Proof.
  intros Hne. unfold persistent_set, writable_set.
  destruct (safe_not_equal current v); cbn [snd]; [|reflexivity].
  apply mirror_other. assumption.
Qed.

(** X10: a persistent cell reads and writes the slot of its own key only:
    making the cell and setting it leave every other key of the storage as
    it was, and the value the cell starts with depends on the slot of its
    key alone. *)
Theorem persistent_touches_one_key (key k' : jsstring)
    (initialValue v current : Value.value) (ls ls2 : storage) (log : console) :
  k' <> key ->
  snd (fst (persistent key initialValue ls log)) !! k' = ls !! k' /\
  snd (persistent_set key v (current, ls)) !! k' = ls !! k' /\
  (ls2 !! key = ls !! key ->
   fst (fst (persistent key initialValue ls2 log))
   = fst (fst (persistent key initialValue ls log))).
Proof.
  intros Hne. split; [|split].
  - rewrite persistent_value. cbn [fst snd]. apply mirror_other. assumption.
  - apply persistent_set_other. assumption.
  - intros Hsame. rewrite !persistent_value. cbn [fst].
    unfold rehydrate. rewrite Hsame. reflexivity.
Qed.

(** X11: while the data version is unset, every start of the store after
    the first logs an error: the cell [dataVersion] has written the text
    [undefined] to its slot, and at the next start that text does not parse,
    is logged, and the cell starts from [undefined] again. *)
Theorem start_again_logs_undefined (ls : storage) (log : console)
    (setup version : Value.value) (ls1 : storage) (log1 : console) :
  start ls log = (setup, version, ls1, log1) ->
  version = VUndefined ->
  let again := start ls1 [] in
  snd (fst (fst again)) = VUndefined /\
  last (snd again) = Some (js "undefined").
Proof.
  intros Hstart Hversion again. subst again.
  unfold start in Hstart. rewrite !persistent_value in Hstart.
  cbv beta iota in Hstart. injection Hstart as _ Hv Hls _.
  assert (ls1 !! js "dataVersion" = Some (js "undefined")) as Hslot.
  { rewrite <- Hls, mirror_same, Hv, Hversion, JSON_stringify_undefined.
    reflexivity. }
  unfold start. rewrite !persistent_value. cbv beta iota. cbn [fst snd].
  rewrite (rehydrate_unparsable (js "dataVersion") _ _ _ (js "undefined")).
  - cbn [fst snd]. split; [reflexivity|]. apply last_snoc.
  - rewrite mirror_other by (intros E; symmetry in E; exact (keys_differ E)).
    exact Hslot.
  - discriminate.
  - apply JSON_parse_undefined.
Qed.

Lemma clearIdentity_run w :
  default_intact w ->
  exists copy h2,
    clearIdentity w
    = Some (Resolved true,
            {| localStorage :=
                 snd (persistent_set (js "dataVersion") VUndefined
                        (dataVersion w,
                         snd (persistent_set (js "hasSetupAccount") (VBool false)
                                (hasSetupAccount w, localStorage w))));
               hasSetupAccount := VBool false;
               dataVersion := VUndefined;
               defaultCredentials := defaultCredentials w;
               credentials := copy;
               heap_ := heap_ w ++ h2;
               keychain_ := ∅ |}) /\
    snapshot (depth (heap_ w)) (heap_ w ++ h2) (HRef copy)
    = Some defaultCredentials_literal /\
    length (heap_ w) <= copy.
Proof.
  intros Hdefault. unfold default_intact in Hdefault.
  destruct (cloneDeep_spec _ _ _ _ Hdefault) as (v' & h2 & Hclone & Hsnap & Hfresh).
  destruct v' as [d|copy]; [contradiction|]. cbn [fresh_for] in Hfresh.
  exists copy, h2. unfold clearIdentity.
  pose proof (set_false (hasSetupAccount w) (localStorage w)) as Hsetup.
  destruct (persistent_set (js "hasSetupAccount") (VBool false)
              (hasSetupAccount w, localStorage w)) as [setup ls1].
  cbn [fst snd] in *.
  pose proof (set_undefined (dataVersion w) ls1) as Hversion.
  destruct (persistent_set (js "dataVersion") VUndefined (dataVersion w, ls1))
    as [version ls2].
  cbn [fst snd] in *. subst setup version.
  rewrite Hclone. cbn [Keychain.clear].
  split; [reflexivity|]. split; assumption.
Qed.

Lemma default_intact_extend w h2 w' :
  default_intact w ->
  heap_ w' = heap_ w ++ h2 -> defaultCredentials w' = defaultCredentials w ->
  default_intact w'.
Proof.
  unfold default_intact. intros Hdefault -> ->.
  eapply snapshot_fuel_le; [|apply snapshot_extend; exact Hdefault].
  unfold depth. rewrite length_app. lia.
Qed.

(** X12: [clearIdentity] can be repeated. From a store whose
    [defaultCredentials] reads as its literal, any number of calls in a row
    go through; after them [defaultCredentials] still reads as its literal
    and is the same object, and after at least one call the flag is
    [false], the data version [undefined], the credential table reads as the
    literal and the keychain is empty. *)
Theorem clearIdentity_repeats n : forall w,
  default_intact w ->
  exists w',
    clear_times n w = Some w' /\
    default_intact w' /\
    defaultCredentials w' = defaultCredentials w /\
    (0 < n ->
     hasSetupAccount w' = VBool false /\
     dataVersion w' = VUndefined /\
     snapshot (depth (heap_ w')) (heap_ w') (HRef (credentials w'))
     = Some defaultCredentials_literal /\
     keychain_ w' = ∅).
Proof.
  induction n as [|n IH]; intros w Hdefault.
  { exists w. split; [reflexivity|]. split; [assumption|].
    split; [reflexivity|]. intros Hn. inversion Hn. }
  destruct (clearIdentity_run w Hdefault) as (copy & h2 & Hrun & Hsnap & Hfresh).
  cbn [clear_times]. rewrite Hrun.
  set (w1 := {| localStorage := _; credentials := copy |}) in *.
  assert (default_intact w1) as Hdefault1
    by (apply (default_intact_extend w h2); [assumption|reflexivity..]).
  destruct (IH w1 Hdefault1) as (w' & Htimes & Hdefault' & Hsame & Hreset).
  exists w'. split; [assumption|]. split; [assumption|].
  split; [rewrite Hsame; reflexivity|]. intros _.
  destruct n as [|n].
  - cbn [clear_times] in Htimes. injection Htimes as <-.
    cbn [hasSetupAccount dataVersion credentials heap_ keychain_ w1].
    split; [reflexivity|]. split; [reflexivity|]. split; [|reflexivity].
    eapply snapshot_fuel_le; [|exact Hsnap].
    unfold depth. rewrite length_app. lia.
  - apply Hreset. lia.
Qed.

(** X13: a reset survives a restart. When the two persistent cells are in
    step with the storage, [clearIdentity] leaves the text of [false] and
    the text [undefined] in their slots and every other key as it was; and
    if the text of [false] reads back as [false], the store started again on
    that storage has the onboarding flag [false] and the data version
    [undefined]. *)
Theorem clearIdentity_survives_restart w :
  default_intact w ->
  in_sync (js "hasSetupAccount") (hasSetupAccount w, localStorage w) ->
  in_sync (js "dataVersion") (dataVersion w, localStorage w) ->
  (forall text, JSON_stringify (VBool false) = Some text ->
     JSON_parse text = Some (VBool false)) ->
  exists p w',
    clearIdentity w = Some (p, w') /\
    localStorage w' !! js "hasSetupAccount"
    = Some (to_item (JSON_stringify (VBool false))) /\
    localStorage w' !! js "dataVersion" = Some (js "undefined") /\
    (forall k : jsstring,
       k <> js "hasSetupAccount" -> k <> js "dataVersion" ->
       localStorage w' !! k = localStorage w !! k) /\
    fst (fst (fst (start (localStorage w') []))) = VBool false /\
    snd (fst (fst (start (localStorage w') []))) = VUndefined.
Proof.
  intros Hdefault Hsetup Hversion Hfalse.
  destruct (clearIdentity_run w Hdefault) as (copy & h2 & Hrun & _ & _).
  eexists _, _. split; [exact Hrun|]. cbn [localStorage].
  pose proof (in_sync_set _ (VBool false) _ Hsetup) as Hsync1.
  pose proof (set_false (hasSetupAccount w) (localStorage w)) as Hv1.
  pose proof (fun k' => persistent_set_other (js "hasSetupAccount") k'
                          (VBool false) (hasSetupAccount w) (localStorage w))
    as Hframe1.
  destruct (persistent_set (js "hasSetupAccount") (VBool false)
              (hasSetupAccount w, localStorage w)) as [setup ls1].
  cbn [fst snd] in *. subst setup.
  assert (in_sync (js "dataVersion") (dataVersion w, ls1)) as Hversion1.
  { unfold in_sync in *. cbn [fst snd] in *.
    rewrite Hframe1 by (intros E; symmetry in E; exact (keys_differ E)).
    assumption. }
  pose proof (in_sync_set _ VUndefined _ Hversion1) as Hsync2.
  pose proof (set_undefined (dataVersion w) ls1) as Hv2.
  pose proof (fun k' => persistent_set_other (js "dataVersion") k'
                          VUndefined (dataVersion w) ls1) as Hframe2.
  destruct (persistent_set (js "dataVersion") VUndefined (dataVersion w, ls1))
    as [version ls2].
  cbn [fst snd] in *. subst version.
  unfold in_sync in Hsync1, Hsync2. cbn [fst snd] in Hsync1, Hsync2.
  assert (ls2 !! js "hasSetupAccount"
          = Some (to_item (JSON_stringify (VBool false)))) as Hslot1.
  { rewrite Hframe2 by exact keys_differ. assumption. }
  assert (ls2 !! js "dataVersion" = Some (js "undefined")) as Hslot2.
  { rewrite Hsync2, JSON_stringify_undefined. reflexivity. }
  split; [assumption|]. split; [assumption|]. split.
  { intros k Hk1 Hk2. rewrite Hframe2, Hframe1 by assumption. reflexivity. }
  unfold start. rewrite !persistent_value. cbn [fst snd].
  assert (fst (rehydrate (js "hasSetupAccount") (VBool false) ls2 [])
          = VBool false) as Hfirst.
  { unfold rehydrate. rewrite Hslot1.
    destruct (negb (string_eqb (to_item (JSON_stringify (VBool false))) []));
      [|reflexivity].
    destruct (JSON_stringify (VBool false)) as [text|] eqn:E; cbn [to_item].
    - rewrite (Hfalse text eq_refl). reflexivity.
    - rewrite JSON_parse_undefined. reflexivity. }
  split; [exact Hfirst|].
  unfold rehydrate at 1.
  rewrite mirror_other by (intros E; symmetry in E; exact (keys_differ E)).
  rewrite Hslot2. cbn [negb string_eqb js map list_ascii_of_string].
  rewrite JSON_parse_undefined. reflexivity.
Qed.

(** X14: what [storeIdentity] puts in the keychain, [retrieveIdentity]
    gets back when its JSON text reads back as the value; the default
    identifier of [retrieveIdentity] is ['did']; [storeCredential] and
    [retrieveCredential] go through the same keys, so an identity and a
    credential of one identifier replace each other; and a store leaves what
    is under every other identifier as it was. *)
Theorem store_then_retrieve (identifier : jsstring) (v : Value.value)
    (text : jsstring) (kc : Keychain.keychain) :
  JSON_stringify v = Some text -> JSON_parse text = Some v ->
  exists kc',
    storeIdentity identifier v kc = Some (Resolved true, kc') /\
    storeCredential identifier v kc = Some (Resolved true, kc') /\
    retrieveIdentity (Some identifier) kc' = Resolved v /\
    retrieveCredential identifier kc' = Resolved v /\
    (identifier = js "did" -> retrieveIdentity None kc' = Resolved v) /\
    (forall other, other <> identifier ->
       retrieveCredential other kc' = retrieveCredential other kc /\
       retrieveIdentity (Some other) kc' = retrieveIdentity (Some other) kc).
Proof.
  intros Htext Hparse.
  exists (<[identifier := text]> kc).
  unfold storeIdentity, storeCredential, Keychain.set. rewrite Htext.
  split; [reflexivity|]. split; [reflexivity|].
  assert (retrieveCredential identifier (<[identifier := text]> kc) = Resolved v)
    as Hget.
  { unfold retrieveCredential, Keychain.get. rewrite lookup_insert_eq.
    cbn. unfold parse. rewrite Hparse. reflexivity. }
  split; [exact Hget|]. split; [exact Hget|]. split.
  { intros ->. exact Hget. }
  intros other Hother.
  assert (retrieveCredential other (<[identifier := text]> kc)
          = retrieveCredential other kc) as Hother'.
  { unfold retrieveCredential, Keychain.get.
    rewrite lookup_insert_ne by congruence. reflexivity. }
  split; exact Hother'.
Qed.

(** X15: after [clearIdentity] nothing can be retrieved: [retrieveIdentity]
    and [retrieveCredential] resolve to [null] for every identifier. *)
Theorem clear_then_retrieve w :
  default_intact w ->
  exists p w',
    clearIdentity w = Some (p, w') /\
    retrieveIdentity None (keychain_ w') = Resolved VNull /\
    forall identifier,
      retrieveIdentity (Some identifier) (keychain_ w') = Resolved VNull /\
      retrieveCredential identifier (keychain_ w') = Resolved VNull.
Proof.
  intros Hdefault.
  destruct (clearIdentity_run w Hdefault) as (copy & h2 & Hrun & _ & _).
  eexists _, _. split; [exact Hrun|]. cbn [keychain_].
  split; [reflexivity|]. intros identifier. split; reflexivity.
Qed.

End WithJSON.

Import LiteralJSON.

(** The heap the module's top level leaves: the literal's objects, then
    their clones. *)
Definition start_heap : heap :=
  Eval vm_compute in
    match init_store ∅ ∅ with
    | Some w => heap_ w
    | None => []
    end.

(** X16: at the start of the store, whatever the storage holds, the
    credential table is a copy of [defaultCredentials]: both read as the
    literal (the eight keys, each with [data] null), and no object is reached
    from both, so a change to the table or to one of its entries leaves the
    defaults as they are. *)
Theorem init_store_copies_default `{JSON} (ls : storage) (kc : Keychain.keychain) :
  exists w,
    init_store ls kc = Some w /\
    heap_ w = start_heap /\ keychain_ w = kc /\
    default_intact w /\
    snapshot (depth (heap_ w)) (heap_ w) (HRef (credentials w))
    = Some defaultCredentials_literal /\
    disjoint (depth (heap_ w)) (heap_ w)
      (HRef (credentials w)) (HRef (defaultCredentials w)) = true.
Proof.
  unfold init_store.
  destruct (persistent (js "hasSetupAccount") (VBool false) ls [])
    as [[setup ls1] log1].
  destruct (persistent (js "dataVersion") VUndefined ls1 [])
    as [[version ls2] log2].
  let r := eval vm_compute in (alloc defaultCredentials_literal []) in
  change (alloc defaultCredentials_literal []) with r.
  cbv beta iota.
  match goal with
  | |- context [cloneDeep ?d ?v ?h] =>
      let r := eval vm_compute in (cloneDeep d v h) in
      change (cloneDeep d v h) with r
  end.
  cbv beta iota. eexists. split; [reflexivity|].
  cbn [heap_ keychain_ credentials defaultCredentials].
  split; [reflexivity|]. split; [reflexivity|].
  split; [|split]; vm_compute; reflexivity.
Qed.

Lemma persistent_touches_one_key_witness :
  js "dataVersion" <> js "hasSetupAccount" /\
  snd (fst (persistent (js "hasSetupAccount") (VBool false)
              ({[ js "dataVersion" := js "7" ]} : storage) []))
    !! js "dataVersion"
  = ({[ js "dataVersion" := js "7" ]} : storage) !! js "dataVersion" /\
  snd (persistent_set (js "hasSetupAccount") (VBool true)
         (VBool false, ({[ js "dataVersion" := js "7" ]} : storage)))
    !! js "dataVersion"
  = ({[ js "dataVersion" := js "7" ]} : storage) !! js "dataVersion" /\
  ((∅ : storage) !! js "hasSetupAccount"
   = ({[ js "dataVersion" := js "7" ]} : storage) !! js "hasSetupAccount" ->
   fst (fst (persistent (js "hasSetupAccount") (VBool false) ∅ []))
   = fst (fst (persistent (js "hasSetupAccount") (VBool false)
                 ({[ js "dataVersion" := js "7" ]} : storage) []))).
Proof.
  assert (js "dataVersion" <> js "hasSetupAccount") as Hne
    by (intros E; vm_compute in E; discriminate E).
  split; [exact Hne|].
  exact (persistent_touches_one_key (js "hasSetupAccount") (js "dataVersion")
           (VBool false) (VBool true) (VBool false)
           {[ js "dataVersion" := js "7" ]} ∅ [] Hne).
Defined.

Lemma start_again_logs_undefined_witness :
  start ∅ []
  = (VBool false, VUndefined,
     ({[ js "dataVersion" := js "undefined";
         js "hasSetupAccount" := js "false" ]} : storage), []) /\
  let again :=
    start ({[ js "dataVersion" := js "undefined";
              js "hasSetupAccount" := js "false" ]} : storage) [] in
  snd (fst (fst again)) = VUndefined /\
  last (snd again) = Some (js "undefined").
Proof.
  assert (start ∅ []
          = (VBool false, VUndefined,
             ({[ js "dataVersion" := js "undefined";
                 js "hasSetupAccount" := js "false" ]} : storage), []))
    as Hstart by reflexivity.
  split; [exact Hstart|].
  exact (start_again_logs_undefined ∅ [] _ _ _ _ Hstart eq_refl).
Defined.

Lemma clearIdentity_repeats_witness :
  default_intact fresh_world /\
  exists w',
    clear_times 3 fresh_world = Some w' /\
    default_intact w' /\
    defaultCredentials w' = defaultCredentials fresh_world /\
    (0 < 3 ->
     hasSetupAccount w' = VBool false /\
     dataVersion w' = VUndefined /\
     snapshot (depth (heap_ w')) (heap_ w') (HRef (credentials w'))
     = Some defaultCredentials_literal /\
     keychain_ w' = ∅).
Proof.
  assert (default_intact fresh_world) as Hdefault by (vm_compute; reflexivity).
  split; [exact Hdefault|].
  exact (clearIdentity_repeats 3 fresh_world Hdefault).
Defined.

Lemma clearIdentity_survives_restart_witness :
  default_intact setup_world /\
  in_sync (js "hasSetupAccount")
    (hasSetupAccount setup_world, localStorage setup_world) /\
  in_sync (js "dataVersion")
    (dataVersion setup_world, localStorage setup_world) /\
  (forall text, JSON_stringify (VBool false) = Some text ->
     JSON_parse text = Some (VBool false)) /\
  (localStorage setup_world !! js "hasSetupAccount" = Some (js "true") /\
   localStorage setup_world !! js "dataVersion"
   = Some (34%N :: js "1.0" ++ [34%N]) /\
   localStorage setup_world !! js "theme" = Some (js "dark")) /\
  exists p w',
    clearIdentity setup_world = Some (p, w') /\
    localStorage w' !! js "hasSetupAccount"
    = Some (to_item (JSON_stringify (VBool false))) /\
    localStorage w' !! js "dataVersion" = Some (js "undefined") /\
    (forall k : jsstring,
       k <> js "hasSetupAccount" -> k <> js "dataVersion" ->
       localStorage w' !! k = localStorage setup_world !! k) /\
    fst (fst (fst (start (localStorage w') []))) = VBool false /\
    snd (fst (fst (start (localStorage w') []))) = VUndefined.
Proof.
  assert (default_intact setup_world) as Hdefault by (vm_compute; reflexivity).
  assert (in_sync (js "hasSetupAccount")
            (hasSetupAccount setup_world, localStorage setup_world)) as Hsetup
    by (vm_compute; reflexivity).
  assert (in_sync (js "dataVersion")
            (dataVersion setup_world, localStorage setup_world)) as Hversion
    by (vm_compute; reflexivity).
  assert (forall text, JSON_stringify (VBool false) = Some text ->
            JSON_parse text = Some (VBool false)) as Hfalse
    by (intros text [= <-]; reflexivity).
  split; [exact Hdefault|]. split; [exact Hsetup|]. split; [exact Hversion|].
  split; [exact Hfalse|].
  split; [repeat split; vm_compute; reflexivity|].
  exact (clearIdentity_survives_restart setup_world Hdefault Hsetup Hversion
           Hfalse).
Defined.

Definition sample_identity : Value.value := VStr (js "did:iota:main:1234").

Lemma store_then_retrieve_witness :
  JSON_stringify sample_identity
  = Some (34%N :: js "did:iota:main:1234" ++ [34%N]) /\
  JSON_parse (34%N :: js "did:iota:main:1234" ++ [34%N])
  = Some sample_identity /\
  exists kc',
    storeIdentity (js "did") sample_identity ∅ = Some (Resolved true, kc') /\
    storeCredential (js "did") sample_identity ∅ = Some (Resolved true, kc') /\
    retrieveIdentity (Some (js "did")) kc' = Resolved sample_identity /\
    retrieveCredential (js "did") kc' = Resolved sample_identity /\
    (js "did" = js "did" ->
     retrieveIdentity None kc' = Resolved sample_identity) /\
    (forall other, other <> js "did" ->
       retrieveCredential other kc' = retrieveCredential other ∅ /\
       retrieveIdentity (Some other) kc' = retrieveIdentity (Some other) ∅).
Proof.
  split; [reflexivity|]. split; [reflexivity|].
  exact (store_then_retrieve (js "did") sample_identity
           (34%N :: js "did:iota:main:1234" ++ [34%N]) ∅ eq_refl eq_refl).
Defined.

Lemma clear_then_retrieve_witness :
  default_intact setup_world /\
  retrieveIdentity None (keychain_ setup_world)
  = Resolved (VStr (js "did:iota:main:1234")) /\
  exists p w',
    clearIdentity setup_world = Some (p, w') /\
    retrieveIdentity None (keychain_ w') = Resolved VNull /\
    forall identifier,
      retrieveIdentity (Some identifier) (keychain_ w') = Resolved VNull /\
      retrieveCredential identifier (keychain_ w') = Resolved VNull.
Proof.
  assert (default_intact setup_world) as Hdefault by (vm_compute; reflexivity).
  split; [exact Hdefault|]. split; [vm_compute; reflexivity|].
  exact (clear_then_retrieve setup_world Hdefault).
Defined.

End StoreMore.

(** *** The error cell, in every state it can reach *)

Module ErrorCellMore.
Import Svelte ErrorCell PersistentFacts ErrorCellFacts.

Open Scope Z_scope.

(** No timer while the cell is empty; while it holds a message, the one
    timer [errorTimeout] names, due within 3500 ms. *)
Definition pending (st : state) : Prop :=
  match timers (snd st) with
  | [] => truthy (fst st) = false
  | [t] =>
      truthy (fst st) = true /\
      errorTimeout (snd st) = Some (timer_id t) /\
      now (snd st) <= timer_due t <= now (snd st) + 3500
  | _ => False
  end.

Lemma pending_set v st :
  inv st -> pending st -> pending (error_set v st).
Proof.
  intros Hinv Hp. destruct st as [cell w].
  unfold error_set, writable_set.
  destruct (safe_not_equal cell v); [|assumption].
  rewrite (on_error_pending cell w v Hinv).
  destruct (truthy v) eqn:Ht; unfold pending; cbn; [|assumption].
  split; [assumption|]. split; [reflexivity|lia].
Qed.

Lemma pending_advance until st :
  inv st -> pending st -> pending (advance until st).
Proof.
  intros Hinv Hp. destruct st as [cell w]. unfold pending in Hp.
  cbn [fst snd] in Hp.
  destruct (timers w) as [|t [|t' ts]] eqn:E; [| |contradiction].
  - rewrite advance_idle by assumption. unfold pending. cbn. assumption.
  - destruct Hp as (Ht & Hid & Hdue).
    destruct (Z.lt_ge_cases until (timer_due t)) as [Hearly|Hlate].
    + rewrite (advance_early _ _ _ t) by assumption.
      unfold pending. cbn. split; [assumption|]. split; [assumption|lia].
    + rewrite (advance_due _ _ _ t) by assumption.
      unfold pending. cbn. reflexivity.
Qed.

Lemma reachable_pending st : reachable st -> pending st.
Proof.
  induction 1 as [start|v st Hreach IH Hv|until st Hreach IH].
  - unfold pending. cbn. reflexivity.
  - apply pending_set; [apply reachable_inv|]; assumption.
  - apply pending_advance; [apply reachable_inv|]; assumption.
Qed.

(** X17: in every state the error cell can reach, no timer is pending while
    the cell is empty, and while it holds a message exactly one is, the one
    [errorTimeout] names, due no later than 3500 ms from now: timers do not
    pile up. *)
Theorem error_cell_one_timer st :
  reachable st ->
  (truthy (fst st) = false /\ timers (snd st) = []) \/
  (truthy (fst st) = true /\
   exists t,
     timers (snd st) = [t] /\
     errorTimeout (snd st) = Some (timer_id t) /\
     now (snd st) <= timer_due t <= now (snd st) + 3500).
Proof.
  intros Hreach. pose proof (reachable_pending st Hreach) as Hp.
  unfold pending in Hp.
  destruct (timers (snd st)) as [|t [|t' ts]]; [left|right|contradiction].
  - split; [assumption|reflexivity].
  - destruct Hp as (Ht & Hid & Hdue). split; [assumption|].
    exists t. split; [reflexivity|]. split; assumption.
Qed.

(** X18: no message outlives 3500 ms: from every state the cell can reach,
    once 3500 ms have passed with no [set], the cell is empty and no timer
    is pending. *)
Theorem error_message_lifetime st until :
  reachable st -> now (snd st) + 3500 <= until ->
  truthy (fst (advance until st)) = false /\
  timers (snd (advance until st)) = [].
Proof.
  intros Hreach Huntil.
  pose proof (reachable_inv st Hreach) as Hinv.
  pose proof (reachable_pending st Hreach) as Hp.
  destruct st as [cell w]. unfold pending in Hp. cbn [fst snd] in *.
  destruct (timers w) as [|t [|t' ts]] eqn:E; [| |contradiction].
  - rewrite advance_idle by assumption. cbn. split; [assumption|reflexivity].
  - destruct Hp as (Ht & Hid & Hdue).
    rewrite (advance_due _ _ _ t) by (try assumption; lia).
    cbn. split; reflexivity.
Qed.

(** X19: a message set again while the cell already holds it is no change:
    the subscriber does not run and the timer is not restarted, so the
    message is cleared 3500 ms after it was first set. *)
Theorem same_message_keeps_timer start t0 t1 until a :
  a <> [] -> start <= t0 -> t0 <= t1 < t0 + 3500 -> t1 <= until ->
  let st := advance until
              (error_set (VStr a)
                 (advance t1
                    (error_set (VStr a) (advance t0 (init start))))) in
  cleared (snd st) = (if t0 + 3500 <=? until then [t0 + 3500] else []) /\
  fst st = (if t0 + 3500 <=? until then VNull else VStr a).
Proof.
  intros Ha Hstart Ht1 Huntil.
  assert (truthy (VStr a) = true) as Hta.
  { cbn. apply negb_true_iff, string_eqb_neq. assumption. }
  set (s0 := advance t0 (init start)).
  assert (s0 = (VNull, {| errorTimeout := None; timers := []; next_timer := 0%nat;
                          now := t0; cleared := [] |})) as Hs0.
  { subst s0. unfold init, writable_subscribe. rewrite advance_idle by reflexivity.
    cbn. f_equal. f_equal. lia. }
  assert (inv s0) as Hinv0 by (apply inv_advance, inv_init).
  set (t := {| timer_id := 0%nat; timer_due := t0 + 3500 |}).
  set (w1 := {| errorTimeout := Some 0%nat; timers := [t]; next_timer := 1%nat;
                now := t0; cleared := [] |}).
  assert (error_set (VStr a) s0 = (VStr a, w1)) as Hs1.
  { rewrite Hs0. rewrite set_truthy;
      [reflexivity|rewrite <- Hs0; assumption|assumption|reflexivity]. }
  assert (inv (VStr a, w1)) as Hinv1.
  { rewrite <- Hs1. apply inv_set; [assumption|reflexivity]. }
  rewrite Hs1.
  rewrite (advance_early t1 (VStr a) w1 t) by (try reflexivity; cbn; lia).
  set (w2 := {| errorTimeout := errorTimeout w1; timers := [t];
                next_timer := next_timer w1; now := Z.max (now w1) t1;
                cleared := cleared w1 |}).
  assert (inv (VStr a, w2)) as Hinv2.
  { pose proof (inv_advance t1 _ Hinv1) as Hi.
    rewrite (advance_early t1 (VStr a) w1 t) in Hi by (try reflexivity; cbn; lia).
    exact Hi. }
  rewrite (set_same_value a (VStr a) w2) by reflexivity.
  cbn zeta.
  destruct (t0 + 3500 <=? until) eqn:E.
  - apply Z.leb_le in E.
    rewrite (advance_due until (VStr a) w2 t) by (try reflexivity; assumption).
    cbn. split; reflexivity.
  - apply Z.leb_gt in E.
    rewrite (advance_early until (VStr a) w2 t) by (try reflexivity; assumption).
    cbn. split; reflexivity.
Qed.

Lemma error_cell_one_timer_witness :
  reachable sample_state /\
  ((truthy (fst sample_state) = false /\ timers (snd sample_state) = []) \/
   (truthy (fst sample_state) = true /\
    exists t,
      timers (snd sample_state) = [t] /\
      errorTimeout (snd sample_state) = Some (timer_id t) /\
      now (snd sample_state) <= timer_due t <= now (snd sample_state) + 3500)).
Proof.
  assert (reachable sample_state) as Hreach
    by (apply reachable_set; [apply reachable_init|reflexivity]).
  split; [exact Hreach|]. exact (error_cell_one_timer sample_state Hreach).
Defined.

Lemma error_message_lifetime_witness :
  reachable sample_state /\
  now (snd sample_state) + 3500 <= 3500 /\
  truthy (fst (advance 3500 sample_state)) = false /\
  timers (snd (advance 3500 sample_state)) = [].
Proof.
  assert (reachable sample_state) as Hreach
    by (apply reachable_set; [apply reachable_init|reflexivity]).
  assert (now (snd sample_state) + 3500 <= 3500) as Hle
    by (apply Z.leb_le; reflexivity).
  split; [exact Hreach|]. split; [exact Hle|].
  exact (error_message_lifetime sample_state 3500 Hreach Hle).
Defined.

Lemma same_message_keeps_timer_witness :
  let st := advance 10000
              (error_set (VStr (js "oops"))
                 (advance 1000
                    (error_set (VStr (js "oops")) (advance 0 (init 0))))) in
  cleared (snd st) = [3500] /\ fst st = VNull.
Proof.
  apply (same_message_keeps_timer 0 0 1000 10000 (js "oops"));
    (discriminate || lia).
Defined.

End ErrorCellMore.

(** *** The other mappings, the demo user data and the synchronous timeout *)

Module MappingMore.
Import Mapping2.

(** X20: the mappings of a test result, of a visa application and of a
    company keep every field: data that differ give information that
    differs. *)
Theorem mappings_keep_every_field :
  (forall a b, prepareImmunityInformation a = prepareImmunityInformation b ->
     a = b) /\
  (forall a b, prepareVisaInformation a = prepareVisaInformation b -> a = b) /\
  (forall a b, prepareCompanyInformation a = prepareCompanyInformation b ->
     a = b).
Proof.
  split; [|split]; intros [] []; unfold prepareImmunityInformation,
    prepareVisaInformation, prepareCompanyInformation; cbn;
    intros [=]; subst; reflexivity.
Qed.

(** X21: the address line of [preparePersonalInformation] is street, city
    and postcode only, and it does not tell where the street ends: the
    house and the state of the address do not show in the result, and a
    word moved from the end of the street to the front of the city gives
    the same result. *)
Theorem preparePersonalInformation_address
    language locale city state country postcode street house
    personalData contactData :
  let addressData city street state house :=
    {| AddressData.Language := language;
       AddressData.Locale := locale;
       AddressData.UserAddress :=
         {| AddressData.City := city;
            AddressData.State := state;
            AddressData.Country := country;
            AddressData.Postcode := postcode;
            AddressData.Street := street;
            AddressData.House := house |} |} in
  (forall state' house',
     preparePersonalInformation (addressData city street state' house')
       personalData contactData
     = preparePersonalInformation (addressData city street state house)
         personalData contactData) /\
  (forall word,
     preparePersonalInformation
       (addressData city (street ++ js " " ++ word) state house)
       personalData contactData
     = preparePersonalInformation
         (addressData (word ++ js " " ++ city) street state house)
         personalData contactData) /\
  PersonalInfo.address
    (preparePersonalInformation (addressData city street state house)
       personalData contactData)
  = street ++ js " " ++ city ++ js ", " ++ postcode.
Proof.
  intros addressData. split; [|split].
  - intros state' house'. reflexivity.
  - intros word. unfold preparePersonalInformation, addressData. cbn.
    f_equal. rewrite <- !app_assoc. reflexivity.
  - reflexivity.
Qed.

End MappingMore.

Module RandomUserFacts.
Import Promise RandomUser.

(** X22: [getRandomUserData] resolves to the first of the results; it
    rejects when the request or the reading of its body is rejected and
    when the body has no [results]; but on an empty list of results it
    resolves, to [undefined]. *)
Theorem getRandomUserData_cases :
  (forall reason, getRandomUserData (Rejected reason) = Rejected reason) /\
  (forall reason,
     getRandomUserData (Resolved {| json := Rejected reason |})
     = Rejected reason) /\
  (forall props user others,
     property (js "results") props = VArr (user :: others) ->
     getRandomUserData (Resolved {| json := Resolved (VObj props) |})
     = Resolved user) /\
  (forall props,
     property (js "results") props = VArr [] ->
     getRandomUserData (Resolved {| json := Resolved (VObj props) |})
     = Resolved VUndefined) /\
  (forall props,
     property (js "results") props = VUndefined ->
     getRandomUserData (Resolved {| json := Resolved (VObj props) |})
     = Rejected TypeError) /\
  getRandomUserData (Resolved {| json := Resolved VNull |})
  = Rejected TypeError.
Proof.
  unfold getRandomUserData, then_adopt, then_, results_of. cbn [json].
  repeat split; try reflexivity; intros props; intros; 
    match goal with Hp : property _ _ = _ |- _ => rewrite Hp end; reflexivity.
Qed.

End RandomUserFacts.

Module DelayFacts.
Import Delay.

Lemma delay_loop_waits ms startPoint clock n : forall fuel k,
  forallb (fun i => PrimFloat.leb (PrimFloat.sub (clock i) startPoint) ms)
          (seq k n) = true ->
  delay_loop (n + fuel) ms startPoint clock k
  = delay_loop fuel ms startPoint clock (k + n).
Proof.
  induction n as [|n IH]; intros fuel k Hall.
  { rewrite Nat.add_0_r. reflexivity. }
  cbn [seq forallb] in Hall. apply andb_true_iff in Hall as [Hk Hall].
  cbn [Nat.add delay_loop]. rewrite Hk, IH by assumption.
  f_equal. lia.
Qed.

Lemma delay_loop_stalled ms startPoint clock fuel : forall k,
  (forall i, k <= i ->
     PrimFloat.leb (PrimFloat.sub (clock i) startPoint) ms = true) ->
  delay_loop fuel ms startPoint clock k = None.
Proof.
  induction fuel as [|fuel IH]; intros k Hall; [reflexivity|].
  cbn [delay_loop]. rewrite Hall by lia. apply IH.
  intros i Hi. apply Hall. lia.
Qed.

Lemma delay_loop_short ms startPoint clock n : forall fuel k,
  forallb (fun i => PrimFloat.leb (PrimFloat.sub (clock i) startPoint) ms)
          (seq k n) = true ->
  fuel <= n -> delay_loop fuel ms startPoint clock k = None.
Proof.
  induction n as [|n IH]; intros fuel k Hall Hfuel.
  { replace fuel with 0 by lia. reflexivity. }
  destruct fuel as [|fuel]; [reflexivity|].
  cbn [seq forallb] in Hall. apply andb_true_iff in Hall as [Hk Hall].
  cbn [delay_loop]. rewrite Hk. apply IH; [assumption|lia].
Qed.

Lemma leb_nan x : PrimFloat.leb x PrimFloat.nan = false.
Proof.
  rewrite FloatAxioms.leb_spec.
  replace (FloatOps.Prim2SF PrimFloat.nan) with SpecFloat.S754_nan
    by (vm_compute; reflexivity).
  unfold SpecFloat.SFleb, SpecFloat.SFcompare.
  destruct (FloatOps.Prim2SF x); reflexivity.
Qed.

(** X23: [delay(ms)] returns at the first reading of the clock, after the
    one it starts from, that is no longer within [ms] of it: if the next
    [n] readings are within [ms] and the one after is not, the loop ends
    having read the clock [n + 2] times, and not before. *)
Theorem delay_returns_at_first_late_reading ms clock n fuel :
  forallb (waiting ms clock) (seq 1 n) = true ->
  waiting ms clock (S n) = false ->
  n < fuel ->
  delay fuel ms clock = Some (n + 2) /\
  (forall fuel', fuel' <= n -> delay fuel' ms clock = None).
Proof.
  unfold delay, waiting. intros Hall Hlate Hfuel. split.
  - replace fuel with (n + S (fuel - S n)) by lia.
    rewrite delay_loop_waits by assumption.
    change (1 + n) with (S n). cbn [delay_loop]. rewrite Hlate. f_equal. lia.
  - intros fuel' Hfuel'. apply (delay_loop_short _ _ _ n); assumption.
Qed.

(** X24: [delay] does not end while the clock stands still: if every
    reading stays within [ms] of the first, the loop is still running after
    any number of readings. With [ms] not a number it ends at once, after
    the second reading of the clock. *)
Theorem delay_stalled_or_nan clock :
  (forall ms,
     (forall i, 1 <= i -> waiting ms clock i = true) ->
     forall fuel, delay fuel ms clock = None) /\
  (forall fuel, delay (S fuel) PrimFloat.nan clock = Some 2).
Proof.
  unfold delay, waiting. split.
  - intros ms Hall fuel. apply delay_loop_stalled. assumption.
  - intros fuel. cbn [delay_loop]. rewrite leb_nan. reflexivity.
Qed.

(** A clock that is read every 1000 ms. *)
Definition sample_clock (k : nat) : number :=
  nth k [0; 1000; 2000]%float 3000%float.

Lemma delay_returns_at_first_late_reading_witness :
  forallb (waiting 2500%float sample_clock) (seq 1 2) = true /\
  waiting 2500%float sample_clock 3 = false /\
  2 < 10 /\
  delay 10 2500%float sample_clock = Some 4 /\
  (forall fuel', fuel' <= 2 -> delay fuel' 2500%float sample_clock = None).
Proof.
  assert (2 < 10) as Hfuel by (apply Nat.ltb_lt; reflexivity).
  split; [reflexivity|]. split; [reflexivity|]. split; [exact Hfuel|].
  exact (delay_returns_at_first_late_reading 2500%float sample_clock 2 10
           eq_refl eq_refl Hfuel).
Defined.

End DelayFacts.
